(** * podtools: the [podcast] feed model and the [podget] downloader

    A shallow embedding of the Go sources [podcast/podcast.go] and
    [cmd/podget/podget.go].  Go's [int] and [time.Duration] are 64-bit
    two's-complement integers, modelled as [Z] with the wrap-around written
    out.  Go strings are byte strings, modelled as [string].  A Go function
    that may return an error or panic returns a [result]. *)

From Stdlib Require Import ZArith List String Ascii Bool Lia.
From stdpp Require Import base option strings gmap.
Import ListNotations.

Local Open Scope string_scope.
Local Open Scope Z_scope.

(** ** Machine integers *)

Definition wrap64 (z : Z) : Z := (z + 2 ^ 63) mod 2 ^ 64 - 2 ^ 63.

Definition minInt64 : Z := - 2 ^ 63.
Definition maxInt64 : Z := 2 ^ 63 - 1.

Definition add64 (a b : Z) : Z := wrap64 (a + b).
Definition sub64 (a b : Z) : Z := wrap64 (a - b).
Definition mul64 (a b : Z) : Z := wrap64 (a * b).

(** ** Errors, panics and results *)

(** [strconv.NumError.Err]: the two causes [strconv.Atoi] reports. *)
Inductive NumError := ErrSyntax | ErrRange.

(** The errno values [os.Stat] fails with. *)
Inductive Errno := ENOENT | EACCES | ENOTDIR | EIO | ELOOP | ENAMETOOLONG.

(** Go [error] values met in the two packages. *)
Inductive error :=
| ErrAtoi (input : string) (cause : NumError)
| ErrParseDuration (ds c : string) (cause : error)
  (* fmt.Errorf("can't parse %s as duration, %s not integer: %s", ds, c, err) *)
| ErrExtract (url : string)
  (* fmt.Errorf("failed to extract filename for %s", u.String()) *)
| ErrParseXML (cause : error)
  (* fmt.Errorf("error parsing XML: %v", err) *)
| ErrPath (op path : string) (errno : Errno)      (* *os.PathError *)
| ErrLib (pkg msg : string).                      (* any other library error *)

(** Run-time panics. *)
Inductive panic :=
| NilDereference
| IndexOutOfRange (index len : Z)
| NegativeWaitGroupCounter.

Inductive result (A : Type) :=
| Ok (a : A)
| Err (e : error)
| Panic (p : panic).
Arguments Ok {A} a.
Arguments Err {A} e.
Arguments Panic {A} p.

(** ** Package [strings] and [strconv] *)

Module strings.

(** [strings.Split(s, sep)] for a one-byte separator: one more piece than
    there are separators, the empty string giving one empty piece. *)
Fixpoint Split (s : string) (sep : ascii) : list string :=
  match s with
  | EmptyString => [EmptyString]
  | String a rest =>
      if Ascii.eqb a sep then EmptyString :: Split rest sep
      else match Split rest sep with
           | [] => [String a EmptyString]
           | piece :: pieces => String a piece :: pieces
           end
  end.

(** [strings.SplitN(s, sep, 2)] for a one-byte separator: cut at the first
    separator, or the whole string when there is none. *)
Fixpoint SplitN2 (s : string) (sep : ascii) : list string :=
  match s with
  | EmptyString => [EmptyString]
  | String a rest =>
      if Ascii.eqb a sep then [EmptyString; rest]
      else match SplitN2 rest sep with
           | [piece] => [String a piece]
           | piece :: pieces => String a piece :: pieces
           | [] => [String a EmptyString]
           end
  end.

Fixpoint mem (a : ascii) (cutset : string) : bool :=
  match cutset with
  | EmptyString => false
  | String c rest => Ascii.eqb a c || mem a rest
  end.

Fixpoint TrimLeft (s cutset : string) : string :=
  match s with
  | EmptyString => EmptyString
  | String a rest => if mem a cutset then TrimLeft rest cutset else s
  end.

Fixpoint TrimRight (s cutset : string) : string :=
  match s with
  | EmptyString => EmptyString
  | String a rest =>
      match TrimRight rest cutset with
      | EmptyString => if mem a cutset then EmptyString else String a EmptyString
      | kept => String a kept
      end
  end.

(** [strings.Trim(s, cutset)] for an ASCII cutset. *)
Definition Trim (s cutset : string) : string :=
  TrimRight (TrimLeft s cutset) cutset.

(** [strings.Replace(s, old, new, -1)] for one-byte [old] and [new]. *)
Fixpoint ReplaceByte (s : string) (old new : ascii) : string :=
  match s with
  | EmptyString => EmptyString
  | String a rest =>
      String (if Ascii.eqb a old then new else a) (ReplaceByte rest old new)
  end.

End strings.

Module strconv.

Definition digit (a : ascii) : option Z :=
  let n := Z.of_N (N_of_ascii a) in
  if (48 <=? n) && (n <=? 57) then Some (n - 48) else None.

Fixpoint digits (s : string) (acc : Z) : option Z :=
  match s with
  | EmptyString => Some acc
  | String a rest =>
      match digit a with
      | Some d => digits rest (acc * 10 + d)
      | None => None
      end
  end.

(** [strconv.Atoi] on a 64-bit platform: an optional sign, then one or more
    decimal digits, the value within [int]. *)
Definition Atoi (s : string) : Z + error :=
  match s with
  | EmptyString => inr (ErrAtoi s ErrSyntax)
  | String a rest =>
      let neg := Ascii.eqb a "-" in
      let body := if neg || Ascii.eqb a "+" then rest else s in
      match body with
      | EmptyString => inr (ErrAtoi s ErrSyntax)
      | _ =>
          match digits body 0 with
          | None => inr (ErrAtoi s ErrSyntax)
          | Some n =>
              let v := if neg then - n else n in
              if (minInt64 <=? v) && (v <=? maxInt64) then inl v
              else inr (ErrAtoi s ErrRange)
          end
      end
  end.

End strconv.

(** ** Package [time]: durations *)

Module time.

Definition Nanosecond : Z := 1.
Definition Microsecond : Z := 1000 * Nanosecond.
Definition Millisecond : Z := 1000 * Microsecond.
Definition Second : Z := 1000 * Millisecond.
Definition Minute : Z := 60 * Second.
Definition Hour : Z := 60 * Minute.

Definition minDuration : Z := minInt64.
Definition maxDuration : Z := maxInt64.

(** [lessThanHalf(x, y)]: [uint64(x)+uint64(x) < uint64(y)]. *)
Definition lessThanHalf (x y : Z) : bool :=
  ((x mod 2 ^ 64 + x mod 2 ^ 64) mod 2 ^ 64) <? (y mod 2 ^ 64).

(** [Duration.Round]: to the nearest multiple of [m], halves away from
    zero, saturating. *)
Definition Round (d m : Z) : Z :=
  if m <=? 0 then d
  else
    let r := Z.rem d m in
    if d <? 0 then
      let r := - r in
      if lessThanHalf r m then add64 d r
      else
        let d1 := add64 (sub64 d m) r in
        if d1 <? d then d1 else minDuration
    else
      if lessThanHalf r m then sub64 d r
      else
        let d1 := sub64 (add64 d m) r in
        if d <? d1 then d1 else maxDuration.

End time.

(** ** Package [time]: instants *)

(** [time.Time], as far as the program observes it: the instant, in seconds
    and nanoseconds since the Unix epoch, and the offset of its zone in
    seconds east of UTC. *)
Record Time := { unix : Z; nsec : Z; zone : Z }.

(** [time.Time{}]: January 1 of year 1, 00:00:00 UTC. *)
Definition zeroTime : Time := {| unix := -62135596800; nsec := 0; zone := 0 |}.

Definition RFC1123Z : string := "Mon, 02 Jan 2006 15:04:05 -0700".

(** ** Package [podcast] *)

Module podcast.

(** [type Duration time.Duration] *)
Definition Duration := Z.

(** [type Timestamp struct { time.Time }] *)
Record Timestamp := { Time_ : Time }.

Definition Keywords := list string.

Record Image := { Image_AttrHref : string }.

Record Category := { Category_AttrText : string }.

Record Owner := { Email : string; Name : string }.

Record Enclosure := { Length : Z; MIMEType : string; URL : string }.

Record Guid := { AttrIsPermaLink : string; Text : string }.

(** The pointer fields [*Enclosure] and [*Guid] are [option]s: [None] is
    the nil pointer of an element absent from the feed. *)
Record Item := {
  Author : string;
  Category_ : string;
  Description : string;
  Duration_ : Duration;
  Enclosure_ : option Enclosure;
  Guid_ : option Guid;
  Keywords_ : Keywords;
  PubDate : Timestamp;
  Title : string
}.

Record Channel := {
  Channel_Author : string;
  Channel_Category : list Category;
  Copyright : string;
  Channel_Description : string;
  Explicit : string;
  Image_ : option Image;
  Item_ : list Item;
  Language : string;
  LastBuild : option Timestamp;
  Link : string;
  Owner_ : option Owner;
  PubString : string;
  Subtitle : string;
  Summary : string;
  Channel_Title : string
}.

Record RSS := {
  AttrXmlnsItunes : string;
  AttrVersion : string;
  Channel_ : option Channel
}.

(** [Keywords.UnmarshalXML]; [decoded] is what [dec.DecodeElement] gave. *)
Definition Keywords_UnmarshalXML (kw : Keywords) (decoded : string + error)
  : Keywords * option error :=
  match decoded with
  | inr err => (kw, Some err)
  | inl content =>
      let keys := strings.Split content "," in
      let cutset := (* " \n\t" *)
        String " " (String (ascii_of_nat 10) (String (ascii_of_nat 9) EmptyString)) in
      (map (fun k => strings.Trim k cutset) keys, None)
  end.

Definition babylon : list Z := [1; 60; 3600; 86400].

(** The body of [for i := 0; i < lc; i++]; [todo] is [lc - i]. *)
Fixpoint parseDuration_loop (ds : string) (chunks : list string)
    (lc : nat) (todo : nat) (i : nat) (secs : Z) : result Z :=
  match todo with
  | O => Ok secs
  | S todo' =>
      let j := (lc - i - 1)%nat in
      match nth_error chunks j with
      | None => Panic (IndexOutOfRange (Z.of_nat j) (Z.of_nat lc))
      | Some c =>
          match strconv.Atoi c with
          | inr err => Err (ErrParseDuration ds c err)
          | inl s =>
              match nth_error babylon i with
              | None =>
                  Panic (IndexOutOfRange (Z.of_nat i)
                           (Z.of_nat (List.length babylon)))
              | Some weight =>
                  parseDuration_loop ds chunks lc todo' (S i)
                    (add64 secs (mul64 s weight))
              end
          end
      end
  end.

Definition parseDuration (ds : string) : result Z :=
  let chunks := strings.Split ds ":" in
  let lc := List.length chunks in
  match parseDuration_loop ds chunks lc lc 0 0 with
  | Ok secs => Ok (mul64 secs time.Second)
  | Err e => Err e
  | Panic p => Panic p
  end.

(** [Duration.UnmarshalXML]: the value is assigned only when the parse
    succeeds; a panic of [parseDuration] propagates. *)
Definition Duration_UnmarshalXML (dur : Duration) (decoded : string + error)
  : Duration * result unit :=
  match decoded with
  | inr err => (dur, Err err)
  | inl content =>
      match parseDuration content with
      | Ok d => (d, Ok tt)
      | Err e => (dur, Err e)
      | Panic p => (dur, Panic p)
      end
  end.

Section Timestamp.

(** [time.Parse(layout, value)] of the standard library. *)
Variable time_Parse : string -> string -> Time + error.

(** [Timestamp.UnmarshalXML]: returns the receiver's new value and the
    error. *)
Definition Timestamp_UnmarshalXML (ts : Timestamp)
    (decoded : string + error) : Timestamp * option error :=
  match decoded with
  | inr err => (ts, Some err)
  | inl content =>
      match time_Parse RFC1123Z content with
      | inl t => ({| Time_ := t |}, None)
      | inr err => (ts, Some err)
      end
  end.

End Timestamp.

End podcast.

(** ** The standard library and the operating system, as [podget] uses them *)

(** [*url.URL]: the fields and methods the program reads. *)
Record url_URL := { Path : string; URL_String : string }.

(** [*http.Response], an opaque handle on a response whose body is read
    through the operating system. *)
Record Response := { handle : string }.

(** [os.FileInfo] *)
Record FileInfo := { ModTime : Time }.

(** The pure library functions the program calls and whose code is not part
    of it.  Every definition below is parametric in them. *)
Class GoLib := {
  Regexp : Type;                                         (* *regexp.Regexp *)
  regexp_Compile : string -> Regexp + error;
  (** [nil] when there is no match, else the leftmost match followed by the
      text of each capturing group. *)
  Regexp_FindStringSubmatch : Regexp -> string -> list string;
  Regexp_String : Regexp -> string;
  url_Parse : string -> url_URL + error;
  filepath_Ext : string -> string;
  filepath_Base : string -> string;
  filepath_Join : list string -> string;
  path_Dir : string -> string;
  strings_TrimSpace : string -> string;
  Duration_String : Z -> string;                         (* time.Duration.String *)
  Time_String : Time -> string;
  (** [xml.Unmarshal(rss, &feed)] into a fresh [podcast.RSS]: the document
      decoded, the decoder's error, or the panic of an [UnmarshalXML] method
      of package [podcast] that the decoder runs on the way
      ([Duration.UnmarshalXML] panics where [parseDuration] does). *)
  xml_Unmarshal : string -> result podcast.RSS
}.

(** What the operating system and the network answer at one moment.
    [os.Stat] observes a file system that the download task and other
    processes change, and [time.Since] reads the clock, so both are oracles,
    and so are the calls that reach the network or create files. *)
Record Env := {
  os_Stat : string -> FileInfo + Errno;
  time_Since : Time -> Z;
  http_Get : string -> Response + error;
  ioutil_ReadAll : Response -> string + error;
  os_MkdirAll : string -> option Errno;
  os_Create : string -> option Errno;
  (** [io.Copy(fout, resp.Body)]: the bytes that reached the file and the
      error that ended the copy, if any. *)
  io_Copy : string -> Response -> string * option error
}.

(** The answers change while a task runs: a [Timeline] gives those of every
    moment of the task, the moments counted by the events the task has
    produced so far.  A function that asks the system once per call
    ([processItem], [download]) takes the [Env] of its moment; a loop takes
    the [Timeline] and hands each round its own [Env]. *)
Definition Timeline := nat -> Env.

(** [os.IsNotExist] *)
Definition os_IsNotExist (err : option Errno) : bool :=
  match err with
  | Some ENOENT => true
  | _ => false
  end.

(** ** Package [main] of [cmd/podget] *)

Module podget.

(** Max number of downloads to queue *)
Definition queueSize : nat := 15.

Record Download := { URL : string; File : string }.

(** The command-line flags, after [flag.Parse]. *)
Record Flags := {
  verbose : bool;
  debug : bool;
  destdir : string;
  maxdays : Z;
  podtrac : string
}.

(** A value handed to a [Printf] verb. *)
Inductive value :=
| VString (s : string)
| VInt (n : Z)
| VDuration (d : Z)
| VDate (t : Time) (layout : string)       (* t.Format(layout) *)
| VError (e : error)
| VErrno (op path : string) (e : Errno)
| VMissing.                                 (* %!v(MISSING) *)

(** What a task does to the outside, in order. *)
Inductive Event :=
| Stdout (format : string) (vals : list value)
| Stderr (format : string) (vals : list value)
| Call (fn arg : string)                    (* a system or network call *)
| Send (dl : Download)                      (* dlqueue <- dl *)
| Close                                     (* close(dlqueue) *)
| Sleep (d : Z).                            (* time.Sleep(d) *)

(** The state a task changes: its trace, and the files it has written. *)
Record World := { trace : list Event; files : gmap string string }.

(** The moment a task has reached. *)
Definition now (w : World) : nat := List.length (trace w).

Definition emit (e : Event) (w : World) : World :=
  {| trace := trace w ++ [e]; files := files w |}.

Definition write_file (path content : string) (w : World) : World :=
  {| trace := trace w; files := <[path := content]> (files w) |}.

Definition newline : string := String (ascii_of_nat 10) EmptyString.

Definition sends (w : World) : list Download :=
  omap (fun e => match e with Send dl => Some dl | _ => None end) (trace w).

Definition sleeps (w : World) : list Z :=
  omap (fun e => match e with Sleep d => Some d | _ => None end) (trace w).

Definition errors (w : World) : list (string * list value) :=
  omap (fun e => match e with Stderr f v => Some (f, v) | _ => None end)
    (trace w).

Definition calls (fn : string) (w : World) : list string :=
  omap (fun e => match e with
                 | Call f arg => if String.eqb f fn then Some arg else None
                 | _ => None
                 end) (trace w).

Section Program.

Context {lib : GoLib}.
Variable env : Env.
Variable flags : Flags.

Definition logInfo (msg : string) (vals : list value) (w : World) : World :=
  if verbose flags then emit (Stdout (msg ++ newline) vals) w else w.

Definition logDebug (msg : string) (vals : list value) (w : World) : World :=
  if debug flags then emit (Stdout (msg ++ newline) vals) w else w.

Definition logError (msg : string) (vals : list value) (w : World) : World :=
  emit (Stderr (msg ++ newline) vals) w.

(** [download]: every failure logs and returns; nothing is removed. *)
Definition download (fromurl tofile : string) (w : World) : World :=
  let w := logDebug "beginning download %s -> %s"
             [VString fromurl; VString tofile] w in
  let dir := path_Dir tofile in
  let w := emit (Call "os.MkdirAll" dir) w in
  match os_MkdirAll env dir with
  | Some _ =>
      logError "can't create destination directory %s: %v"
        [VString dir; VMissing] w
  | None =>
      let w := emit (Call "os.Create" tofile) w in
      match os_Create env tofile with
      | Some err =>
          logError "can't create %s: %v"
            [VString tofile; VErrno "open" tofile err] w
      | None =>
          let w := write_file tofile "" w in
          let w := emit (Call "http.Get" fromurl) w in
          match http_Get env fromurl with
          | inr err =>
              logError "can't download %s: %v"
                [VString fromurl; VError err] w
          | inl resp =>
              let '(written, err) := io_Copy env tofile resp in
              let w := write_file tofile written w in
              match err with
              | Some err =>
                  logError "error downloading %s: %v"
                    [VString fromurl; VError err] w
              | None =>
                  let w := logInfo "%d bytes downloaded to %s"
                             [VInt (Z.of_nat (String.length written));
                              VString tofile] w in
                  logDebug "ending download %s -> %s"
                    [VString fromurl; VString tofile] w
              end
          end
      end
  end.

(** The body of [for dl := range dlqueue]. *)
Definition downloader_body (dl : Download) (w : World) : World :=
  let w := download (URL dl) (File dl) w in
  emit (Sleep (mul64 2 time.Second)) w.


(** The package variables [podtracRE] and [podtracField]. *)
Record Globals := { podtracRE : option Regexp; podtracField : string }.

Definition asciiOnly_strip (s : string) : string :=
  (* asciiOnly.ReplaceAllLiteralString(s, "") with asciiOnly = [[:^ascii:]] *)
  string_of_list_ascii
    (filter (fun a => (N_of_ascii a <? 128)%N = true) (list_ascii_of_string s)).

(** [depodtracify] *)
Definition depodtracify (g : Globals) (item : podcast.Item)
    (enc : podcast.Enclosure) (u : url_URL) (ext : string) (w : World)
  : result string * World :=
  let data : gmap string string := ∅ in
  let data := <["item.author" := podcast.Author item]> data in
  let data := <["item.category" := podcast.Category_ item]> data in
  let data := <["item.description" := podcast.Description item]> data in
  let data := <["item.duration" := Duration_String (podcast.Duration_ item)]> data in
  match podcast.Guid_ item with
  | None => (Panic NilDereference, w)
  | Some guid =>
      let data := <["item.guid" := podcast.Text guid]> data in
      let data := <["item.pubDate" :=
                      Time_String (podcast.Time_ (podcast.PubDate item))]> data in
      let data := <["item.title" := podcast.Title item]> data in
      let data := <["enclosure.url" := podcast.URL enc]> data in
      let data := <["url" := URL_String u]> data in
      let x := default "" (data !! podtracField g) in
      match podtracRE g with
      | None => (Panic NilDereference, w)
      | Some re =>
          let ep := Regexp_FindStringSubmatch re x in
          let failed w :=
            let w := if debug flags
                     then logDebug "     regexp: %s" [VString (Regexp_String re)]
                            (logDebug "search data: %s" [VString x] w)
                     else w in
            (Err (ErrExtract (URL_String u)), w) in
          if (List.length ep <? 1)%nat then failed w
          else
            match nth_error ep 1 with
            | None => (Panic (IndexOutOfRange 1 (Z.of_nat (List.length ep))), w)
            | Some ep1 =>
                if String.eqb ep1 "" then failed w
                else (Ok (ep1 ++ ext), w)
            end
      end
  end.

(** [processItem], up to the destination file: [Ok None] is an early
    return. *)
Definition processItem_destfile (g : Globals) (feedtitle feeddir : string)
    (item : podcast.Item) (w : World)
  : result (option (podcast.Enclosure * string)) * World :=
  let enc := podcast.Enclosure_ item in
  let w := logInfo "  %v %s %v"
             [VDate (podcast.Time_ (podcast.PubDate item)) "2006-01-02";
              VString (podcast.Title item);
              VString (Duration_String (podcast.Duration_ item))] w in
  match enc with
  | None => (Panic NilDereference, w)
  | Some enc =>
      match url_Parse (podcast.URL enc) with
      | inr err =>
          (Ok None,
           logError "can't parse URL %s for %s: %v"
             [VString (podcast.URL enc); VString feedtitle; VError err] w)
      | inl u =>
          if negb (String.eqb (podtrac flags) "") then
            match depodtracify g item enc u (filepath_Ext (Path u)) w with
            | (Err err, w) =>
                (Ok None, logError "skipping episode: %v" [VError err] w)
            | (Panic p, w) => (Panic p, w)
            | (Ok destfile, w) =>
                (Ok (Some (enc, filepath_Join [destdir flags; feeddir; destfile])), w)
            end
          else
            (Ok (Some (enc, filepath_Join
                              [destdir flags; feeddir; filepath_Base (Path u)])), w)
      end
  end.

(** [processItem], from [os.Stat] on. *)
Definition processItem_stat (enc : podcast.Enclosure) (destfile : string)
    (w : World) : World :=
  let w := emit (Call "os.Stat" destfile) w in
  let stat := os_Stat env destfile in
  let err := match stat with inl _ => None | inr e => Some e end in
  let overwrite := false in
  let '(overwrite, w) :=
    match stat with
    | inl stats =>
        if 0 <? maxdays flags then
          let maxage := mul64 (mul64 (maxdays flags) time.Hour) 24 in
          let age := time.Round (time_Since env (ModTime stats)) time.Second in
          let overwrite := maxage <? age in
          let fw := if overwrite then "" else "not " in
          (overwrite,
           logInfo "%sallowing overwrite of %s, file is %v old"
             [VString fw; VString destfile; VDuration age] w)
        else (overwrite, w)
    | inr _ => (overwrite, w)
    end in
  if os_IsNotExist err || overwrite then
    emit (Send {| URL := podcast.URL enc; File := destfile |}) w
  else
    logError "skipping %s, already downloaded" [VString destfile] w.

Definition processItem (g : Globals) (feedtitle feeddir : string)
    (item : podcast.Item) (w : World) : result unit * World :=
  match processItem_destfile g feedtitle feeddir item w with
  | (Ok (Some (enc, destfile)), w) => (Ok tt, processItem_stat enc destfile w)
  | (Ok None, w) => (Ok tt, w)
  | (Err e, w) => (Err e, w)
  | (Panic p, w) => (Panic p, w)
  end.

(** [podtracCompile]: the error it returns, the package variables it
    leaves. *)
Definition podtracCompile (g : Globals) (w : World)
  : result unit * Globals * World :=
  let instruction := podtrac flags in
  if String.eqb instruction "" then (Ok tt, g, w)
  else
    let chunks := strings.SplitN2 instruction " " in
    match nth_error chunks 0 with
    | None => (Panic (IndexOutOfRange 0 0), g, w)
    | Some chunk0 =>
        let g := {| podtracRE := podtracRE g;
                    podtracField := strings_TrimSpace chunk0 |} in
        match nth_error chunks 1 with
        | None =>
            (Panic (IndexOutOfRange 1 (Z.of_nat (List.length chunks))), g, w)
        | Some chunk1 =>
            let sregex := strings.Trim chunk1 " /" in
            let w := if debug flags
                     then logDebug "compiling %s" [VString sregex] w else w in
            match regexp_Compile sregex with
            | inl re =>
                (Ok tt, {| podtracRE := Some re;
                           podtracField := podtracField g |}, w)
            | inr err =>
                (Err err, {| podtracRE := None;
                             podtracField := podtracField g |}, w)
            end
        end
    end.

(** How [main] leaves its start-up: it exits, or goes on to start the
    two tasks with the package variables set. *)
Inductive Startup :=
| Exit (code : Z)
| Proceed (g : Globals)
| Crash (p : panic).

Definition initial_globals : Globals :=
  {| podtracRE := None; podtracField := "" |}.

Definition regexp_show (re : option Regexp) : string :=
  match re with
  | Some re => Regexp_String re
  | None => "<nil>"
  end.

(** [main], up to the start of the tasks. *)
Definition main_startup (w : World) : Startup * World :=
  match podtracCompile initial_globals w with
  | (Err err, _, w) =>
      (Exit 1, logError "can't compile podtrac decode instruction: %v"
                 [VError err] w)
  | (Panic p, _, w) => (Crash p, w)
  | (Ok _, g, w) =>
      (Proceed g,
       logDebug "will search field %s for %s"
         [VString (podtracField g); VString (regexp_show (podtracRE g))] w)
  end.

End Program.

Section Tasks.

Context {lib : GoLib}.
Variable sys : Timeline.
Variable flags : Flags.

(** [downloader], on the jobs it receives from the queue until the queue
    is closed and empty; each download meets the system of its moment. *)
Definition downloader (received : list Download) (w : World) : World :=
  let w := logDebug flags "download task starting" [] w in
  let w := fold_left (fun w dl => downloader_body (sys (now w)) flags dl w)
             received w in
  logDebug flags "all downloads complete, download task finishing" [] w.

(** [for _, item := range channel.Item]: a panic ends the loop.  Each item
    meets the file system of its moment. *)
Fixpoint processItems (g : Globals) (feedtitle feeddir : string)
    (items : list podcast.Item) (w : World) : result unit * World :=
  match items with
  | [] => (Ok tt, w)
  | item :: rest =>
      let w := logDebug flags "processing item" [] w in
      match processItem (sys (now w)) flags g feedtitle feeddir item w with
      | (Ok _, w) => processItems g feedtitle feeddir rest w
      | stopped => stopped
      end
  end.

(** [processChannel] *)
Definition processChannel (g : Globals) (rss : string) (w : World)
  : result unit * World :=
  let w := logDebug flags "processing channel data [%s]"
             [VString (substring 0 40 rss)] w in
  match xml_Unmarshal rss with
  | Err err => (Err (ErrParseXML err), w)
  | Panic p => (Panic p, w)
  | Ok feed =>
      match podcast.Channel_ feed with
      | None => (Panic NilDereference, w)
      | Some channel =>
          let name := asciiOnly_strip (podcast.Channel_Title channel) in
          let dir := strings.ReplaceByte name " " "_" in
          let w := logInfo flags "%s %s/"
                     [VString (podcast.Channel_Title channel); VString dir] w in
          match processItems g (podcast.Channel_Title channel) dir
                  (podcast.Item_ channel) w with
          | (Ok _, w) => (Ok tt, logDebug flags "done processing channel data" [] w)
          | stopped => stopped
          end
      end
  end.

(** [processFeed]: [None] is a normal return, [Some p] a panic.  The fetch
    meets the network of its moment. *)
Definition processFeed (g : Globals) (feedurl : string) (w : World)
  : option panic * World :=
  let env := sys (now w) in
  let w := emit (Call "http.Get" feedurl) w in
  match http_Get env feedurl with
  | inr err =>
      (None, logError "can't fetch feed %s: %v" [VString feedurl; VError err] w)
  | inl resp =>
      match ioutil_ReadAll env resp with
      | inr err =>
          (None, logError "error reading response from %s: %v"
                   [VString feedurl; VError err] w)
      | inl xmlb =>
          match processChannel g xmlb w with
          | (Ok _, w) => (None, w)
          | (Err err, w) =>
              (None, logError "can't process %s: %v"
                       [VString feedurl; VError err] w)
          | (Panic p, w) => (Some p, w)
          end
      end
  end.

(** The feed task of [main]: each feed in turn, then [close(dlqueue)].
    A panic in a feed ends the task, and the process. *)
Fixpoint feed_task (g : Globals) (feedurls : list string) (w : World)
  : option panic * World :=
  match feedurls with
  | [] => (None, emit Close w)
  | feedurl :: rest =>
      let w := logInfo flags "fetching %s" [VString feedurl] w in
      match processFeed g feedurl w with
      | (None, w) => feed_task g rest w
      | stopped => stopped
      end
  end.

End Tasks.

End podget.

(** ** The two tasks of [main] and the queue between them

    [main] starts the download task and the feed task and waits for the
    [sync.WaitGroup].  The tasks run interleaved; a state of the process and
    the steps either task, or [main], can take are below.  A feed is given
    by the jobs its [processFeed] sends. *)

Module tasks.

Import podget.

(** The feed task: at the top of [for _, feedurl := range flag.Args()] with
    the feeds still to come; inside [processFeed] with the jobs it still has
    to send; past [close(dlqueue)], running its deferred calls; gone. *)
Inductive Producer :=
| BetweenFeeds (later : list (list Download))
| InFeed (unsent : list Download) (later : list (list Download))
| Unwinding
| ProducerGone.

(** The download task: at [range dlqueue]; inside [download] and the sleep
    after it; past the loop, before its deferred [wg.Done()]; gone. *)
Inductive Worker :=
| Receiving
| Downloading (dl : Download)
| Returned
| WorkerGone.

Inductive Process :=
| Running
| Exited                       (* [main] returned *)
| Crashed (p : panic).

Record System := {
  producer : Producer;
  deferred : nat;              (* [defer wg.Done()] calls the feed task holds *)
  buffer : list Download;      (* the values in [dlqueue] *)
  closed : bool;               (* [dlqueue] is closed *)
  worker : Worker;
  completed : list Download;   (* the jobs the worker is done with *)
  counter : Z;                 (* the counter of the WaitGroup *)
  released : bool;             (* [wg.Wait()] has been let through *)
  process : Process
}.

Inductive Action :=
| NextFeed        (* [defer wg.Done()], then [processFeed] begins *)
| SendJob         (* [dlqueue <- job] *)
| FeedDone        (* [processFeed] returns *)
| CloseQueue      (* [close(dlqueue)] *)
| ProducerDone    (* one deferred [wg.Done()] of the feed task *)
| ProducerExit
| Receive         (* [range dlqueue] yields a job *)
| Finish          (* [download] and [time.Sleep] are over *)
| RangeEnds       (* [range dlqueue] ends: closed and empty *)
| WorkerDone      (* the deferred [wg.Done()] of the download task *)
| MainReturns.    (* [wg.Wait()] returns and [main] with it *)

Definition with_producer (p : Producer) (n : nat) (s : System) : System :=
  {| producer := p; deferred := n; buffer := buffer s; closed := closed s;
     worker := worker s; completed := completed s; counter := counter s;
     released := released s; process := process s |}.

Definition with_buffer (b : list Download) (s : System) : System :=
  {| producer := producer s; deferred := deferred s; buffer := b;
     closed := closed s; worker := worker s; completed := completed s;
     counter := counter s; released := released s; process := process s |}.

Definition with_closed (s : System) : System :=
  {| producer := producer s; deferred := deferred s; buffer := buffer s;
     closed := true; worker := worker s; completed := completed s;
     counter := counter s; released := released s; process := process s |}.

Definition with_worker (wk : Worker) (done : list Download) (s : System) : System :=
  {| producer := producer s; deferred := deferred s; buffer := buffer s;
     closed := closed s; worker := wk; completed := done;
     counter := counter s; released := released s; process := process s |}.

Definition with_process (p : Process) (s : System) : System :=
  {| producer := producer s; deferred := deferred s; buffer := buffer s;
     closed := closed s; worker := worker s; completed := completed s;
     counter := counter s; released := released s; process := p |}.

(** [wg.Done()]: the counter goes down by one; below zero it panics, at zero
    it lets the waiter through. *)
Definition wg_Done (s : System) : System :=
  let v := counter s - 1 in
  if v <? 0 then with_process (Crashed NegativeWaitGroupCounter) s
  else
    {| producer := producer s; deferred := deferred s; buffer := buffer s;
       closed := closed s; worker := worker s; completed := completed s;
       counter := v; released := released s || (v =? 0);
       process := process s |}.

(** One step; [None] when the action cannot be taken: a send needs room in
    the queue, a receive needs a job in it. *)
Definition step (a : Action) (s : System) : option System :=
  match process s with
  | Running =>
      match a with
      | NextFeed =>
          match producer s with
          | BetweenFeeds (feed :: later) =>
              Some (with_producer (InFeed feed later) (S (deferred s)) s)
          | _ => None
          end
      | SendJob =>
          match producer s with
          | InFeed (dl :: unsent) later =>
              if (List.length (buffer s) <? queueSize)%nat
              then Some (with_buffer (buffer s ++ [dl])
                           (with_producer (InFeed unsent later) (deferred s) s))
              else None
          | _ => None
          end
      | FeedDone =>
          match producer s with
          | InFeed [] later => Some (with_producer (BetweenFeeds later) (deferred s) s)
          | _ => None
          end
      | CloseQueue =>
          match producer s with
          | BetweenFeeds [] =>
              Some (with_closed (with_producer Unwinding (deferred s) s))
          | _ => None
          end
      | ProducerDone =>
          match producer s, deferred s with
          | Unwinding, S n => Some (wg_Done (with_producer Unwinding n s))
          | _, _ => None
          end
      | ProducerExit =>
          match producer s, deferred s with
          | Unwinding, O => Some (with_producer ProducerGone O s)
          | _, _ => None
          end
      | Receive =>
          match worker s, buffer s with
          | Receiving, dl :: rest =>
              Some (with_buffer rest (with_worker (Downloading dl) (completed s) s))
          | _, _ => None
          end
      | Finish =>
          match worker s with
          | Downloading dl => Some (with_worker Receiving (completed s ++ [dl]) s)
          | _ => None
          end
      | RangeEnds =>
          match worker s, buffer s, closed s with
          | Receiving, [], true => Some (with_worker Returned (completed s) s)
          | _, _, _ => None
          end
      | WorkerDone =>
          match worker s with
          | Returned => Some (wg_Done (with_worker WorkerGone (completed s) s))
          | _ => None
          end
      | MainReturns =>
          if released s then Some (with_process Exited s) else None
      end
  | _ => None
  end.

Fixpoint run (actions : list Action) (s : System) : option System :=
  match actions with
  | [] => Some s
  | a :: rest =>
      match step a s with
      | Some s' => run rest s'
      | None => None
      end
  end.

(** [main] after [wg.Add(1)], [go], [wg.Add(1)], [go]. *)
Definition initial (feeds : list (list Download)) : System :=
  {| producer := BetweenFeeds feeds; deferred := 0; buffer := []; closed := false;
     worker := Receiving; completed := []; counter := 2; released := false;
     process := Running |}.

Definition reachable (feeds : list (list Download)) (s : System) : Prop :=
  exists actions, run actions (initial feeds) = Some s.

(** The jobs the feed task has still to send, and the job in the worker's
    hands. *)
Definition unsent_jobs (s : System) : list Download :=
  match producer s with
  | BetweenFeeds later => concat later
  | InFeed unsent later => unsent ++ concat later
  | _ => []
  end.

Definition in_hand (s : System) : list Download :=
  match worker s with
  | Downloading dl => [dl]
  | _ => []
  end.

Definition worker_returned (s : System) : bool :=
  match worker s with
  | Returned | WorkerGone => true
  | _ => false
  end.

Definition producer_closed (s : System) : bool :=
  match producer s with
  | Unwinding | ProducerGone => true
  | _ => false
  end.

End tasks.

(** ** A model of the standard library for the scenarios

    The properties below hold for every [GoLib].  To run the program on a
    concrete input, this module models the fragment of the Go standard
    library that the scenarios exercise: regular expressions built from
    literals, [.], [\d], [\w], [\s], anchors, groups, alternation and the
    greedy quantifiers, matched leftmost-first as package [regexp] does;
    [time.Parse] and [Time.Format] for the layout RFC1123Z; [url.Parse] and
    the path functions on plain absolute URLs and clean slash-separated
    paths. *)

Module model.

(** *** Decimal output *)

Fixpoint itoa_loop (fuel : nat) (n : Z) (acc : string) : string :=
  match fuel with
  | O => acc
  | S fuel' =>
      let acc' := String (ascii_of_nat (48 + Z.to_nat (n mod 10))) acc in
      if n <? 10 then acc' else itoa_loop fuel' (n / 10) acc'
  end.

Definition itoa (n : Z) : string := itoa_loop 20 n "".

Definition pad2 (n : Z) : string :=
  if n <? 10 then String "0" (itoa n) else itoa n.

Definition pad4 (n : Z) : string :=
  if n <? 10 then "000" ++ itoa n
  else if n <? 100 then "00" ++ itoa n
  else if n <? 1000 then String "0" (itoa n) else itoa n.

(** *** Regular expressions *)

Inductive re :=
| Empty
| Chr (c : ascii)
| Any
| Class (name : ascii)
| Bol
| Eol
| Seq (a b : re)
| Alt (a b : re)
| Star (a : re)
| Plus (a : re)
| Opt (a : re)
| Group (n : nat) (a : re).

Definition is_punct (c : ascii) : bool :=
  let n := N_of_ascii c in
  ((33 <=? n) && (n <=? 47) || (58 <=? n) && (n <=? 64)
   || (91 <=? n) && (n <=? 96) || (123 <=? n) && (n <=? 126))%N.

Definition quantify (a : re) (s : list ascii) : option (re * list ascii) :=
  let is_quant c := (Ascii.eqb c "*" || Ascii.eqb c "+" || Ascii.eqb c "?")%bool in
  match s with
  | q :: rest =>
      if is_quant q then
        match rest with
        | q2 :: _ => if is_quant q2 then None else
            Some (if Ascii.eqb q "*" then Star a
                  else if Ascii.eqb q "+" then Plus a else Opt a, rest)
        | [] =>
            Some (if Ascii.eqb q "*" then Star a
                  else if Ascii.eqb q "+" then Plus a else Opt a, rest)
        end
      else Some (a, s)
  | [] => Some (a, s)
  end.

(** Recursive descent; [n] counts the groups opened so far. *)
Fixpoint parse_alt (fuel : nat) (s : list ascii) (n : nat)
  : option (re * list ascii * nat) :=
  match fuel with
  | O => None
  | S fuel' =>
      match parse_seq fuel' s n with
      | Some (a, "|"%char :: rest, n1) =>
          match parse_alt fuel' rest n1 with
          | Some (b, rest', n2) => Some (Alt a b, rest', n2)
          | None => None
          end
      | other => other
      end
  end
with parse_seq (fuel : nat) (s : list ascii) (n : nat)
  : option (re * list ascii * nat) :=
  match fuel with
  | O => None
  | S fuel' =>
      match s with
      | [] => Some (Empty, s, n)
      | "|"%char :: _ => Some (Empty, s, n)
      | ")"%char :: _ => Some (Empty, s, n)
      | _ =>
          match parse_atom fuel' s n with
          | Some (a, rest, n1) =>
              match quantify a rest with
              | Some (a', rest') =>
                  match parse_seq fuel' rest' n1 with
                  | Some (Empty, rest'', n2) => Some (a', rest'', n2)
                  | Some (b, rest'', n2) => Some (Seq a' b, rest'', n2)
                  | None => None
                  end
              | None => None
              end
          | None => None
          end
      end
  end
with parse_atom (fuel : nat) (s : list ascii) (n : nat)
  : option (re * list ascii * nat) :=
  match fuel with
  | O => None
  | S fuel' =>
      match s with
      | [] => None
      | c :: rest =>
          if Ascii.eqb c "(" then
            match parse_alt fuel' rest (S n) with
            | Some (a, ")"%char :: rest', n1) => Some (Group (S n) a, rest', n1)
            | _ => None
            end
          else if Ascii.eqb c "\" then
            match rest with
            | e :: rest' =>
                if strings.mem e "dwsDWS" then Some (Class e, rest', n)
                else if is_punct e then Some (Chr e, rest', n)
                else None
            | [] => None
            end
          else if Ascii.eqb c "." then Some (Any, rest, n)
          else if Ascii.eqb c "^" then Some (Bol, rest, n)
          else if Ascii.eqb c "$" then Some (Eol, rest, n)
          else if strings.mem c "*+?)[{" then None
          else Some (Chr c, rest, n)
      end
  end.

Record compiled := { source : string; prog : re; groups : nat }.

Definition Compile (expr : string) : compiled + error :=
  let s := list_ascii_of_string expr in
  match parse_alt (3 * List.length s + 3) s 0 with
  | Some (r, [], n) => inl {| source := expr; prog := r; groups := n |}
  | _ => inr (ErrLib "regexp" ("error parsing regexp: " ++ expr))
  end.

Definition in_class (name c : ascii) : bool :=
  let n := N_of_ascii c in
  let digit := ((48 <=? n) && (n <=? 57))%N in
  let word := (digit || (65 <=? n) && (n <=? 90) || (97 <=? n) && (n <=? 122)
               || (n =? 95))%N in
  let space := ((n =? 9) || (n =? 10) || (n =? 12) || (n =? 13) || (n =? 32))%N in
  if Ascii.eqb name "d" then digit
  else if Ascii.eqb name "D" then negb digit
  else if Ascii.eqb name "w" then word
  else if Ascii.eqb name "W" then negb word
  else if Ascii.eqb name "s" then space
  else negb space.

Definition captures := list (nat * string).

Definition consumed (before after : list ascii) : string :=
  string_of_list_ascii
    (firstn (List.length before - List.length after) before).

(** Backtracking with the priorities of leftmost-first matching: the left
    alternative first, a quantifier as many times as it can.  [total] is
    the length of the whole input, [k] what must match after [r]. *)
Fixpoint run (fuel : nat) (total : nat) (r : re) (s : list ascii)
    (caps : captures)
    (k : list ascii -> captures -> option (list ascii * captures))
  : option (list ascii * captures) :=
  match fuel with
  | O => None
  | S fuel' =>
      match r with
      | Empty => k s caps
      | Chr c =>
          match s with
          | a :: s' => if Ascii.eqb a c then k s' caps else None
          | [] => None
          end
      | Any =>
          match s with
          | a :: s' => if Ascii.eqb a (ascii_of_nat 10) then None else k s' caps
          | [] => None
          end
      | Class name =>
          match s with
          | a :: s' => if in_class name a then k s' caps else None
          | [] => None
          end
      | Bol => if (List.length s =? total)%nat then k s caps else None
      | Eol => match s with [] => k s caps | _ => None end
      | Seq a b =>
          run fuel' total a s caps (fun s' caps' => run fuel' total b s' caps' k)
      | Alt a b =>
          match run fuel' total a s caps k with
          | Some m => Some m
          | None => run fuel' total b s caps k
          end
      | Star a =>
          match run fuel' total a s caps
                  (fun s' caps' =>
                     if (List.length s' <? List.length s)%nat
                     then run fuel' total (Star a) s' caps' k else None) with
          | Some m => Some m
          | None => k s caps
          end
      | Plus a => run fuel' total (Seq a (Star a)) s caps k
      | Opt a =>
          match run fuel' total a s caps k with
          | Some m => Some m
          | None => k s caps
          end
      | Group n a =>
          run fuel' total a s caps
            (fun s' caps' => k s' ((n, consumed s s') :: caps'))
      end
  end.

Fixpoint capture (n : nat) (caps : captures) : string :=
  match caps with
  | [] => ""
  | (m, text) :: rest => if (m =? n)%nat then text else capture n rest
  end.

(** The leftmost match: try each start in turn. *)
Fixpoint find (fuel : nat) (total : nat) (c : compiled) (s : list ascii)
  : list string :=
  match run fuel total (prog c) s [] (fun s' caps => Some (s', caps)) with
  | Some (rest, caps) =>
      consumed s rest :: map (fun n => capture n caps) (seq 1 (groups c))
  | None =>
      match s with
      | [] => []
      | _ :: s' => find fuel total c s'
      end
  end.

Definition FindStringSubmatch (c : compiled) (s : string) : list string :=
  let input := list_ascii_of_string s in
  find (1000 + 10 * List.length input) (List.length input) c input.

(** *** Calendar *)

Definition days_from_civil (y m d : Z) : Z :=
  let y := if m <=? 2 then y - 1 else y in
  let era := y / 400 in
  let yoe := y - era * 400 in
  let doy := (153 * (if 2 <? m then m - 3 else m + 9) + 2) / 5 + d - 1 in
  let doe := yoe * 365 + yoe / 4 - yoe / 100 + doy in
  era * 146097 + doe - 719468.

Definition civil_from_days (z : Z) : Z * Z * Z :=
  let z := z + 719468 in
  let era := z / 146097 in
  let doe := z - era * 146097 in
  let yoe := (doe - doe / 1460 + doe / 36524 - doe / 146096) / 365 in
  let doy := doe - (365 * yoe + yoe / 4 - yoe / 100) in
  let mp := (5 * doy + 2) / 153 in
  let d := doy - (153 * mp + 2) / 5 + 1 in
  let m := if mp <? 10 then mp + 3 else mp - 9 in
  (if m <=? 2 then yoe + era * 400 + 1 else yoe + era * 400, m, d).

Definition is_leap (y : Z) : bool :=
  (y mod 4 =? 0) && (negb (y mod 100 =? 0) || (y mod 400 =? 0)).

Definition days_in (m y : Z) : Z :=
  if m =? 2 then (if is_leap y then 29 else 28)
  else if (m =? 4) || (m =? 6) || (m =? 9) || (m =? 11) then 30 else 31.

Definition shortDayNames : list string :=
  ["Sun"; "Mon"; "Tue"; "Wed"; "Thu"; "Fri"; "Sat"].

Definition shortMonthNames : list string :=
  ["Jan"; "Feb"; "Mar"; "Apr"; "May"; "Jun";
   "Jul"; "Aug"; "Sep"; "Oct"; "Nov"; "Dec"].

Fixpoint index_of (name : string) (names : list string) (i : Z) : option Z :=
  match names with
  | [] => None
  | n :: rest => if String.eqb n name then Some i else index_of name rest (i + 1)
  end.

(** A field of exactly [width] decimal digits. *)
Definition number (width : nat) (s : string) : option Z :=
  if (String.length s =? width)%nat then
    match s with
    | EmptyString => None
    | _ => strconv.digits s 0
    end
  else None.

Definition parse_error (value : string) : error :=
  ErrLib "time" ("parsing time " ++ value ++ " as " ++ RFC1123Z).

(** [time.Parse(RFC1123Z, value)] on values in the canonical form
    "Mon, 02 Jan 2006 15:04:05 -0700". *)
Definition time_Parse (layout value : string) : Time + error :=
  let bad := inr (parse_error value) in
  if negb (String.eqb layout RFC1123Z) then bad
  else if negb (String.length value =? 31)%nat then bad
  else
    let field (from len : Z) := substring (Z.to_nat from) (Z.to_nat len) value in
    match index_of (field 0 3) shortDayNames 0,
          number 2 (field 5 2),
          index_of (field 8 3) shortMonthNames 1,
          number 4 (field 12 4),
          number 2 (field 17 2),
          number 2 (field 20 2),
          number 2 (field 23 2),
          number 2 (field 27 2),
          number 2 (field 29 2) with
    | Some _, Some day, Some month, Some year,
      Some hour, Some minute, Some sec, Some zh, Some zm =>
        let punctuation :=
          String.eqb (field 3 2) ", " && String.eqb (field 7 1) " "
          && String.eqb (field 11 1) " " && String.eqb (field 16 1) " "
          && String.eqb (field 19 1) ":" && String.eqb (field 22 1) ":"
          && String.eqb (field 25 1) " " in
        let sign := field 26 1 in
        let in_range :=
          (1 <=? day) && (day <=? days_in month year) && (hour <? 24)
          && (minute <? 60) && (sec <? 60) && (zh <=? 24) && (zm <=? 60) in
        if punctuation && in_range
           && (String.eqb sign "+" || String.eqb sign "-") then
          let offset := (if String.eqb sign "-" then -1 else 1)
                        * (zh * 3600 + zm * 60) in
          inl {| unix := days_from_civil year month day * 86400
                         + hour * 3600 + minute * 60 + sec - offset;
                 nsec := 0;
                 zone := offset |}
        else bad
    | _, _, _, _, _, _, _, _, _ => bad
    end.

(** The zone as [-0700]: the offset in minutes, truncated, and its sign. *)
Definition zone_text (offset : Z) : string :=
  let zone := Z.quot offset 60 in
  let minutes := Z.abs zone in
  (if zone <? 0 then "-" else "+") ++ pad2 (minutes / 60) ++ pad2 (minutes mod 60).

(** [t.Format(RFC1123Z)] *)
Definition Time_Format_RFC1123Z (t : Time) : string :=
  let local := unix t + zone t in
  let days := local / 86400 in
  let sod := local mod 86400 in
  let '(y, m, d) := civil_from_days days in
  nth (Z.to_nat ((days + 4) mod 7)) shortDayNames "" ++ ", " ++ pad2 d ++ " "
  ++ nth (Z.to_nat (m - 1)) shortMonthNames "" ++ " " ++ pad4 y ++ " "
  ++ pad2 (sod / 3600) ++ ":" ++ pad2 (sod / 60 mod 60) ++ ":" ++ pad2 (sod mod 60)
  ++ " " ++ zone_text (zone t).

(** [t.String()], for a time in UTC or in an unnamed fixed zone. *)
Definition Time_String (t : Time) : string :=
  let local := unix t + zone t in
  let days := local / 86400 in
  let sod := local mod 86400 in
  let '(y, m, d) := civil_from_days days in
  pad4 y ++ "-" ++ pad2 m ++ "-" ++ pad2 d ++ " "
  ++ pad2 (sod / 3600) ++ ":" ++ pad2 (sod / 60 mod 60) ++ ":" ++ pad2 (sod mod 60)
  ++ " " ++ zone_text (zone t) ++ " "
  ++ (if zone t =? 0 then "UTC" else zone_text (zone t)).

(** [fmtFrac]: the fraction of [v / 10^prec] without trailing zeros, and
    the dot only when some digit remains. *)
Fixpoint fmtFrac (prec : nat) (v : Z) (acc : string) (print : bool)
  : string * Z :=
  match prec with
  | O => ((if print then String "." acc else acc), v)
  | S prec' =>
      let digit := v mod 10 in
      let print := print || negb (digit =? 0) in
      fmtFrac prec' (v / 10)
        (if print then String (ascii_of_nat (48 + Z.to_nat digit)) acc else acc)
        print
  end.

(** [Duration.String] *)
Definition Duration_String (d : Z) : string :=
  let u := Z.abs d in
  let text :=
    if u <? time.Second then
      if u =? 0 then "0s"
      else if u <? time.Microsecond then itoa u ++ "ns"
      else
        let micro := String (ascii_of_nat 194) (String (ascii_of_nat 181) "s") in
        let '(prec, unit) := if u <? time.Millisecond then (3%nat, micro)
                             else (6%nat, "ms") in
        let '(frac, whole) := fmtFrac prec u "" false in
        itoa whole ++ frac ++ unit
    else
      let '(frac, secs) := fmtFrac 9 u "" false in
      let minutes := secs / 60 in
      let hours := minutes / 60 in
      (if 0 <? hours then itoa hours ++ "h" else "")
      ++ (if 0 <? minutes then itoa (minutes mod 60) ++ "m" else "")
      ++ itoa (secs mod 60) ++ frac ++ "s" in
  if d <? 0 then String "-" text else text.

(** *** URLs and paths *)

Definition has_control_byte (s : string) : bool :=
  existsb (fun a => (N_of_ascii a <? 32)%N || (N_of_ascii a =? 127)%N)
    (list_ascii_of_string s).

Fixpoint after_authority (s : string) : string :=
  match s with
  | EmptyString => EmptyString
  | String a rest => if Ascii.eqb a "/" then s else after_authority rest
  end.

Fixpoint path_of (s : string) : string :=
  match s with
  | String ":" (String "/" (String "/" rest)) => after_authority rest
  | String _ rest => path_of rest
  | EmptyString => EmptyString
  end.

(** [url.Parse] on [scheme://host/path] without escapes, query or
    fragment; a control byte is an error, as in Go. *)
Definition url_Parse (rawurl : string) : url_URL + error :=
  if has_control_byte rawurl
  then inr (ErrLib "net/url" "invalid control character in URL")
  else inl {| Path := path_of rawurl; URL_String := rawurl |}.

(** What precedes the last slash of a path, and what follows it. *)
Fixpoint last_slash (s : string) : option (string * string) :=
  match s with
  | EmptyString => None
  | String a rest =>
      match last_slash rest with
      | Some (dir, base) => Some (String a dir, base)
      | None => if Ascii.eqb a "/" then Some (EmptyString, rest) else None
      end
  end.

(** [filepath.Base] *)
Definition filepath_Base (path : string) : string :=
  match path with
  | EmptyString => "."
  | _ =>
      let path := strings.TrimRight path "/" in
      let path := match last_slash path with
                  | Some (_, base) => base
                  | None => path
                  end in
      match path with
      | EmptyString => "/"
      | _ => path
      end
  end.

Fixpoint ext_of (s : string) : string :=
  match s with
  | EmptyString => EmptyString
  | String a rest =>
      match ext_of rest with
      | EmptyString => if Ascii.eqb a "." then s else EmptyString
      | ext => ext
      end
  end.

(** [filepath.Ext]: from the last dot of the final element. *)
Definition filepath_Ext (path : string) : string :=
  match last_slash path with
  | Some (_, base) => ext_of base
  | None => ext_of path
  end.

(** [filepath.Join] of clean elements: the empty ones dropped. *)
Definition filepath_Join (elem : list string) : string :=
  let kept := filter (fun e => e <> EmptyString) elem in
  match kept with
  | [] => ""
  | first :: rest => fold_left (fun acc e => acc ++ "/" ++ e) rest first
  end.

(** [path.Dir] of a clean path. *)
Definition path_Dir (path : string) : string :=
  match last_slash path with
  | Some (EmptyString, _) => "/"
  | Some (dir, _) => dir
  | None => "."
  end.

Definition strings_TrimSpace (s : string) : string :=
  strings.Trim s
    (String " " (String (ascii_of_nat 9) (String (ascii_of_nat 10)
       (String (ascii_of_nat 11) (String (ascii_of_nat 12)
          (String (ascii_of_nat 13) EmptyString)))))).

(** *** XML documents

    A document of a scenario is given as the decoder of [encoding/xml] walks
    it: the child elements of [<channel>] and of each [<item>] in document
    order, by local name, with their character data or attributes.  The
    decoder fills a zero value field by field; for [Duration], [Keywords] and
    [Timestamp] it calls the [UnmarshalXML] method of the type, and the first
    error or panic ends the decoding. *)

Inductive ItemNode :=
| Leaf (name content : string)
| EnclosureTag (length type url : string)
| GuidTag (isPermaLink text : string).

Inductive ChannelNode :=
| ChannelLeaf (name content : string)
| ItemTag (children : list ItemNode).

Record Document := {
  xmlns_itunes : string;
  version : string;
  channel : option (list ChannelNode)
}.

Definition zero_item : podcast.Item :=
  {| podcast.Author := "";
     podcast.Category_ := "";
     podcast.Description := "";
     podcast.Duration_ := 0;
     podcast.Enclosure_ := None;
     podcast.Guid_ := None;
     podcast.Keywords_ := [];
     podcast.PubDate := {| podcast.Time_ := zeroTime |};
     podcast.Title := "" |}.

Definition zero_channel : podcast.Channel :=
  {| podcast.Channel_Author := "";
     podcast.Channel_Category := [];
     podcast.Copyright := "";
     podcast.Channel_Description := "";
     podcast.Explicit := "";
     podcast.Image_ := None;
     podcast.Item_ := [];
     podcast.Language := "";
     podcast.LastBuild := None;
     podcast.Link := "";
     podcast.Owner_ := None;
     podcast.PubString := "";
     podcast.Subtitle := "";
     podcast.Summary := "";
     podcast.Channel_Title := "" |}.

(** An item with some of its fields replaced. *)
Definition item_with (item : podcast.Item)
    (text : string -> option string)
    (duration : option podcast.Duration)
    (enclosure : option podcast.Enclosure) (guid : option podcast.Guid)
    (keywords : option podcast.Keywords) (pubDate : option podcast.Timestamp)
  : podcast.Item :=
  {| podcast.Author := default (podcast.Author item) (text "author");
     podcast.Category_ := default (podcast.Category_ item) (text "category");
     podcast.Description := default (podcast.Description item) (text "description");
     podcast.Duration_ := default (podcast.Duration_ item) duration;
     podcast.Enclosure_ := match enclosure with
                           | Some e => Some e
                           | None => podcast.Enclosure_ item
                           end;
     podcast.Guid_ := match guid with
                      | Some e => Some e
                      | None => podcast.Guid_ item
                      end;
     podcast.Keywords_ := default (podcast.Keywords_ item) keywords;
     podcast.PubDate := default (podcast.PubDate item) pubDate;
     podcast.Title := default (podcast.Title item) (text "title") |}.

Definition only (name content : string) : string -> option string :=
  fun field => if String.eqb field name then Some content else None.

Definition nothing : string -> option string := fun _ => None.

Definition decode_item_node (item : podcast.Item) (node : ItemNode)
  : result podcast.Item :=
  match node with
  | Leaf name content =>
      if String.eqb name "duration" then
        match podcast.Duration_UnmarshalXML (podcast.Duration_ item) (inl content) with
        | (d, Ok _) => Ok (item_with item nothing (Some d) None None None None)
        | (_, Err e) => Err e
        | (_, Panic p) => Panic p
        end
      else if String.eqb name "keywords" then
        match podcast.Keywords_UnmarshalXML (podcast.Keywords_ item) (inl content) with
        | (kw, None) => Ok (item_with item nothing None None None (Some kw) None)
        | (_, Some e) => Err e
        end
      else if String.eqb name "pubDate" then
        match podcast.Timestamp_UnmarshalXML time_Parse (podcast.PubDate item)
                (inl content) with
        | (ts, None) => Ok (item_with item nothing None None None None (Some ts))
        | (_, Some e) => Err e
        end
      else Ok (item_with item (only name content) None None None None None)
  | EnclosureTag length type url =>
      match strconv.Atoi length with
      | inl n =>
          Ok (item_with item nothing None
                (Some {| podcast.Length := n; podcast.MIMEType := type;
                         podcast.URL := url |}) None None None)
      | inr e => Err e
      end
  | GuidTag isPermaLink text =>
      Ok (item_with item nothing None None
            (Some {| podcast.AttrIsPermaLink := isPermaLink;
                     podcast.Text := text |}) None None)
  end.

Fixpoint decode_item (nodes : list ItemNode) (item : podcast.Item)
  : result podcast.Item :=
  match nodes with
  | [] => Ok item
  | node :: rest =>
      match decode_item_node item node with
      | Ok item => decode_item rest item
      | stopped => stopped
      end
  end.

(** A channel with its items, its title or its [lastBuildDate] replaced. *)
Definition channel_with (ch : podcast.Channel) (items : list podcast.Item)
    (text : string -> option string) (lastBuild : option podcast.Timestamp)
  : podcast.Channel :=
  {| podcast.Channel_Author := default (podcast.Channel_Author ch) (text "author");
     podcast.Channel_Category := podcast.Channel_Category ch;
     podcast.Copyright := default (podcast.Copyright ch) (text "copyright");
     podcast.Channel_Description :=
       default (podcast.Channel_Description ch) (text "description");
     podcast.Explicit := default (podcast.Explicit ch) (text "explicit");
     podcast.Image_ := podcast.Image_ ch;
     podcast.Item_ := items;
     podcast.Language := default (podcast.Language ch) (text "language");
     podcast.LastBuild := match lastBuild with
                          | Some ts => Some ts
                          | None => podcast.LastBuild ch
                          end;
     podcast.Link := default (podcast.Link ch) (text "link");
     podcast.Owner_ := podcast.Owner_ ch;
     podcast.PubString := default (podcast.PubString ch) (text "pubDate");
     podcast.Subtitle := default (podcast.Subtitle ch) (text "subtitle");
     podcast.Summary := default (podcast.Summary ch) (text "summary");
     podcast.Channel_Title := default (podcast.Channel_Title ch) (text "title") |}.

Fixpoint decode_channel (nodes : list ChannelNode) (ch : podcast.Channel)
  : result podcast.Channel :=
  match nodes with
  | [] => Ok ch
  | ChannelLeaf name content :: rest =>
      if String.eqb name "lastBuildDate" then
        match podcast.Timestamp_UnmarshalXML time_Parse
                {| podcast.Time_ := zeroTime |} (inl content) with
        | (ts, None) =>
            decode_channel rest (channel_with ch (podcast.Item_ ch) nothing (Some ts))
        | (_, Some e) => Err e
        end
      else
        decode_channel rest
          (channel_with ch (podcast.Item_ ch) (only name content) None)
  | ItemTag children :: rest =>
      match decode_item children zero_item with
      | Ok item =>
          decode_channel rest
            (channel_with ch (podcast.Item_ ch ++ [item]) nothing None)
      | Err e => Err e
      | Panic p => Panic p
      end
  end.

Definition decode (doc : Document) : result podcast.RSS :=
  match channel doc with
  | None =>
      Ok {| podcast.AttrXmlnsItunes := xmlns_itunes doc;
            podcast.AttrVersion := version doc;
            podcast.Channel_ := None |}
  | Some nodes =>
      match decode_channel nodes zero_channel with
      | Ok ch =>
          Ok {| podcast.AttrXmlnsItunes := xmlns_itunes doc;
                podcast.AttrVersion := version doc;
                podcast.Channel_ := Some ch |}
      | Err e => Err e
      | Panic p => Panic p
      end
  end.

(** [xml.Unmarshal] on the documents of a scenario; any other text is not
    well-formed. *)
Fixpoint xml_Unmarshal (documents : list (string * Document)) (rss : string)
  : result podcast.RSS :=
  match documents with
  | [] => Err (ErrLib "encoding/xml" "syntax error")
  | (text, doc) :: rest =>
      if String.eqb text rss then decode doc else xml_Unmarshal rest rss
  end.

(** The library, with [xml.Unmarshal] given on the documents of a
    scenario. *)
Definition golib (documents : list (string * Document)) : GoLib :=
  Build_GoLib compiled Compile FindStringSubmatch source
    url_Parse filepath_Ext filepath_Base filepath_Join path_Dir
    strings_TrimSpace Duration_String Time_String
    (xml_Unmarshal documents).

End model.

(** ** Scenarios

    Concrete inputs on which the program is run below. *)

Module scenario.

Import podget.

Definition lib : GoLib := model.golib [].

Definition published : Time :=
{| unix := 1136239445; nsec := 0; zone := -25200 |}.

Definition enclosure : podcast.Enclosure :=
{| podcast.Length := 1000;
   podcast.MIMEType := "audio/mpeg";
   podcast.URL := "http://example.com/audio/ep1.mp3" |}.

(** An episode with every element present. *)
Definition episode (title : string) : podcast.Item :=
{| podcast.Author := "A. Host";
   podcast.Category_ := "Talk";
   podcast.Description := "An episode";
   podcast.Duration_ := 3723 * time.Second;
   podcast.Enclosure_ := Some enclosure;
   podcast.Guid_ := Some {| podcast.AttrIsPermaLink := "false";
                            podcast.Text := "guid-1" |};
   podcast.Keywords_ := [];
   podcast.PubDate := {| podcast.Time_ := published |};
   podcast.Title := title |}.

(** The same episode in a feed that has no [<enclosure>] for it, and in one
  that has no [<guid>]. *)
Definition without_enclosure (item : podcast.Item) : podcast.Item :=
{| podcast.Author := podcast.Author item;
   podcast.Category_ := podcast.Category_ item;
   podcast.Description := podcast.Description item;
   podcast.Duration_ := podcast.Duration_ item;
   podcast.Enclosure_ := None;
   podcast.Guid_ := podcast.Guid_ item;
   podcast.Keywords_ := podcast.Keywords_ item;
   podcast.PubDate := podcast.PubDate item;
   podcast.Title := podcast.Title item |}.

Definition without_guid (item : podcast.Item) : podcast.Item :=
{| podcast.Author := podcast.Author item;
   podcast.Category_ := podcast.Category_ item;
   podcast.Description := podcast.Description item;
   podcast.Duration_ := podcast.Duration_ item;
   podcast.Enclosure_ := podcast.Enclosure_ item;
   podcast.Guid_ := None;
   podcast.Keywords_ := podcast.Keywords_ item;
   podcast.PubDate := podcast.PubDate item;
   podcast.Title := podcast.Title item |}.

(** [podget -d /pods -r days -podtrac instruction] *)
Definition flags (days : Z) (instruction : string) : Flags :=
{| verbose := false;
   debug := false;
   destdir := "/pods";
   maxdays := days;
   podtrac := instruction |}.

(** A system where [os.Stat] answers [stat] for every path and existing
  files are [age] old; the network is down. *)
Definition system (stat : FileInfo + Errno) (age : Z) : Env :=
{| os_Stat := fun _ => stat;
   time_Since := fun _ => age;
   http_Get := fun _ => inr (ErrLib "net/http" "no such host");
   ioutil_ReadAll := fun _ => inr (ErrLib "io" "unexpected EOF");
   os_MkdirAll := fun _ => None;
   os_Create := fun _ => None;
   io_Copy := fun _ _ => (EmptyString, None) |}.

Definition existing : FileInfo + Errno := inl {| ModTime := published |}.

Definition start : World := {| trace := []; files := ∅ |}.

Definition destination : string := "/pods/My_Feed/ep1.mp3".

(** The package variables as [main] leaves them for a command line. *)
Definition globals (fl : Flags) : Globals (lib := lib) :=
  match fst (main_startup (lib := lib) fl start) with
  | Proceed g => g
  | _ => initial_globals
  end.

(** [podget -d /pods -podtrac "item.title episode-(\d+)"] on a system where
    no file exists yet. *)
Definition titled : Flags := flags 0 "item.title episode-(\d+)".

Definition fresh : Env := system (inr ENOENT) 0.

(** An enclosure whose URL holds a line feed, and an episode with it. *)
Definition broken_enclosure : podcast.Enclosure :=
  {| podcast.Length := 1000;
     podcast.MIMEType := "audio/mpeg";
     podcast.URL := String (ascii_of_nat 10) "http://example.com/audio/ep1.mp3" |}.

Definition broken_url : podcast.Item :=
  {| podcast.Author := "A. Host";
     podcast.Category_ := "Talk";
     podcast.Description := "An episode";
     podcast.Duration_ := 3723 * time.Second;
     podcast.Enclosure_ := Some broken_enclosure;
     podcast.Guid_ := None;
     podcast.Keywords_ := [];
     podcast.PubDate := {| podcast.Time_ := published |};
     podcast.Title := "episode-43" |}.

(** A feed of two episodes, its document, and a system that serves the
    document at the URL of the feed and answers [os.Stat] by [stat]. *)
Definition second_episode : podcast.Item :=
  {| podcast.Author := "A. Host";
     podcast.Category_ := "Talk";
     podcast.Description := "Another episode";
     podcast.Duration_ := 123 * time.Second;
     podcast.Enclosure_ :=
       Some {| podcast.Length := 2000;
               podcast.MIMEType := "audio/mpeg";
               podcast.URL := "http://example.com/audio/ep2.mp3" |};
     podcast.Guid_ := Some {| podcast.AttrIsPermaLink := "false";
                              podcast.Text := "guid-2" |};
     podcast.Keywords_ := [];
     podcast.PubDate := {| podcast.Time_ := published |};
     podcast.Title := "episode-43: again" |}.

Definition channel : podcast.Channel :=
  {| podcast.Channel_Author := "A. Host";
     podcast.Channel_Category := [];
     podcast.Copyright := "";
     podcast.Channel_Description := "A feed";
     podcast.Explicit := "no";
     podcast.Image_ := None;
     podcast.Item_ := [episode "episode-42: hello"; second_episode];
     podcast.Language := "en";
     podcast.LastBuild := None;
     podcast.Link := "http://example.com/";
     podcast.Owner_ := None;
     podcast.PubString := "";
     podcast.Subtitle := "";
     podcast.Summary := "";
     podcast.Channel_Title := "My Feed" |}.

Definition feed_url : string := "http://example.com/feed.xml".

Definition feed_text : string := "<rss version=2.0>...</rss>".

(** The document of the feed, as the decoder walks it. *)
Definition first_nodes : list model.ItemNode :=
  [model.Leaf "title" "episode-42: hello";
   model.Leaf "author" "A. Host";
   model.Leaf "category" "Talk";
   model.Leaf "description" "An episode";
   model.Leaf "pubDate" "Mon, 02 Jan 2006 15:04:05 -0700";
   model.Leaf "duration" "1:02:03";
   model.EnclosureTag "1000" "audio/mpeg" "http://example.com/audio/ep1.mp3";
   model.GuidTag "false" "guid-1"].

Definition second_nodes (duration : string) : list model.ItemNode :=
  [model.Leaf "title" "episode-43: again";
   model.Leaf "author" "A. Host";
   model.Leaf "category" "Talk";
   model.Leaf "description" "Another episode";
   model.Leaf "pubDate" "Mon, 02 Jan 2006 15:04:05 -0700";
   model.Leaf "duration" duration;
   model.EnclosureTag "2000" "audio/mpeg" "http://example.com/audio/ep2.mp3";
   model.GuidTag "false" "guid-2"].

Definition document (duration : string) : model.Document :=
  {| model.xmlns_itunes := "";
     model.version := "2.0";
     model.channel :=
       Some [model.ChannelLeaf "title" "My Feed";
             model.ChannelLeaf "author" "A. Host";
             model.ChannelLeaf "description" "A feed";
             model.ChannelLeaf "explicit" "no";
             model.ChannelLeaf "language" "en";
             model.ChannelLeaf "link" "http://example.com/";
             model.ItemTag first_nodes;
             model.ItemTag (second_nodes duration)] |}.

(** The same feed with a duration of five components in its second item. *)
Definition long_url : string := "http://example.com/long.xml".

Definition long_text : string := "<rss version=2.0>1:2:3:4:5</rss>".

Definition library : GoLib :=
  model.golib [(feed_text, document "02:03"); (long_text, document "1:2:3:4:5")].

Definition online (stat : string -> FileInfo + Errno) (age : Z) : Env :=
  {| os_Stat := stat;
     time_Since := fun _ => age;
     http_Get := fun url =>
       if String.eqb url feed_url || String.eqb url long_url
       then inl {| handle := url |}
       else inr (ErrLib "net/http" "no such host");
     ioutil_ReadAll := fun resp =>
       if String.eqb (handle resp) feed_url then inl feed_text
       else if String.eqb (handle resp) long_url then inl long_text
       else inr (ErrLib "io" "unexpected EOF");
     os_MkdirAll := fun _ => None;
     os_Create := fun _ => None;
     io_Copy := fun _ _ => (EmptyString, None) |}.

(** A system that answers the same at every moment. *)
Definition always (env : Env) : Timeline := fun _ => env.

(** A feed whose two enclosures have the same file name, and a system where
    no file exists until the feed task has sent its first job: by the third
    event of the task the download task has created the file. *)
Definition twin_url : string := "http://example.com/twin.xml".

Definition twin_text : string := "<rss version=2.0>default.mp3</rss>".

Definition twin_document : model.Document :=
  {| model.xmlns_itunes := "";
     model.version := "2.0";
     model.channel :=
       Some [model.ChannelLeaf "title" "My Feed";
             model.ItemTag
               [model.Leaf "title" "one";
                model.EnclosureTag "1000" "audio/mpeg"
                  "http://example.com/1/default.mp3"];
             model.ItemTag
               [model.Leaf "title" "two";
                model.EnclosureTag "2000" "audio/mpeg"
                  "http://example.com/2/default.mp3"]] |}.

Definition twins : GoLib := model.golib [(twin_text, twin_document)].

Definition arriving : Timeline :=
  fun moment =>
    {| os_Stat := fun _ => if (moment <? 3)%nat then inr ENOENT else existing;
       time_Since := fun _ => 0;
       http_Get := fun url => inl {| handle := url |};
       ioutil_ReadAll := fun _ => inl twin_text;
       os_MkdirAll := fun _ => None;
       os_Create := fun _ => None;
       io_Copy := fun _ _ => ("audio", None) |}.

(** A system where the destination directory cannot be created at first and
    can from the third event of the download task on. *)
Definition recovering : Timeline :=
  fun moment =>
    {| os_Stat := fun _ => inr ENOENT;
       time_Since := fun _ => 0;
       http_Get := fun url => inl {| handle := url |};
       ioutil_ReadAll := fun _ => inr (ErrLib "io" "unexpected EOF");
       os_MkdirAll := fun _ => if (moment <? 3)%nat then Some EACCES else None;
       os_Create := fun _ => None;
       io_Copy := fun _ _ => ("audio", None) |}.

(** The first episode is not on disk, the second is. *)
Definition first_is_new (path : string) : FileInfo + Errno :=
  if String.eqb path "/pods/My_Feed/ep1.mp3" then inr ENOENT else existing.

(** A system whose destination directory cannot be created. *)
Definition readonly : Env :=
  {| os_Stat := fun _ => inr ENOENT;
     time_Since := fun _ => 0;
     http_Get := fun _ => inr (ErrLib "net/http" "no such host");
     ioutil_ReadAll := fun _ => inr (ErrLib "io" "unexpected EOF");
     os_MkdirAll := fun _ => Some EACCES;
     os_Create := fun _ => None;
     io_Copy := fun _ _ => (EmptyString, None) |}.

(** A job of a first feed and a job of a second. *)
Definition job_a : Download :=
  {| URL := "http://example.com/a/ep1.mp3"; File := "/pods/A/ep1.mp3" |}.

Definition job_b : Download :=
  {| URL := "http://example.com/b/ep1.mp3"; File := "/pods/B/ep1.mp3" |}.

(** A queue that is full while the feed task has a job to send. *)
Definition full_queue : tasks.System :=
  {| tasks.producer := tasks.InFeed [job_b] [];
     tasks.deferred := 1;
     tasks.buffer := repeat job_a 15;
     tasks.closed := false;
     tasks.worker := tasks.Downloading job_a;
     tasks.completed := [];
     tasks.counter := 2;
     tasks.released := false;
     tasks.process := tasks.Running |}.

End scenario.

Example regexp_episode :
  match model.Compile "episode-(\d+)" with
  | inl re => model.FindStringSubmatch re "episode-42: hello" = ["episode-42"; "42"]
              /\ model.FindStringSubmatch re "hello" = []
  | inr _ => False
  end.
Proof. vm_compute. auto. Qed.

Example regexp_optional_group :
  match model.Compile "(S\d+)?E(\d+)" with
  | inl re => model.FindStringSubmatch re "show E42" = ["E42"; ""; "42"]
  | inr _ => False
  end.
Proof. vm_compute. auto. Qed.

Example regexp_errors :
  (exists e, model.Compile "episode-(\d+" = inr e) /\
  (exists e, model.Compile "*x" = inr e).
Proof. vm_compute. eauto. Qed.


Example time_examples :
  model.time_Parse RFC1123Z "Mon, 02 Jan 2006 15:04:05 -0700"
  = inl {| unix := 1136239445; nsec := 0; zone := -25200 |} /\
  model.Time_Format_RFC1123Z {| unix := 1136239445; nsec := 0; zone := -25200 |}
  = "Mon, 02 Jan 2006 15:04:05 -0700" /\
  model.Time_String {| unix := 1136239445; nsec := 0; zone := -25200 |}
  = "2006-01-02 15:04:05 -0700 -0700" /\
  model.Time_Format_RFC1123Z zeroTime = "Mon, 01 Jan 0001 00:00:00 +0000" /\
  model.Duration_String (3723 * time.Second) = "1h2m3s" /\
  model.Duration_String 1500000000 = "1.5s" /\
  model.Duration_String 0 = "0s" /\
  model.Duration_String (-90 * time.Second) = "-1m30s" /\
  model.Duration_String 1500 = String "1" (String "." (String "5" (String (ascii_of_nat 194) (String (ascii_of_nat 181) "s")))).
Proof. vm_compute. repeat split. Qed.

Example path_examples :
  model.url_Parse "http://example.com/audio/ep1.mp3"
  = inl {| Path := "/audio/ep1.mp3"; URL_String := "http://example.com/audio/ep1.mp3" |} /\
  model.filepath_Base "/audio/ep1.mp3" = "ep1.mp3" /\
  model.filepath_Ext "/audio/ep1.mp3" = ".mp3" /\
  model.filepath_Ext "/audio.d/ep1" = "" /\
  model.filepath_Join ["/pods"; "My_Feed"; "ep1.mp3"] = "/pods/My_Feed/ep1.mp3" /\
  model.filepath_Join [""; "My_Feed"; "ep1.mp3"] = "My_Feed/ep1.mp3" /\
  model.path_Dir "/pods/My_Feed/ep1.mp3" = "/pods/My_Feed" /\
  model.path_Dir "ep1.mp3" = "." /\
  model.strings_TrimSpace "  item.title " = "item.title".
Proof. vm_compute. repeat split. Qed.

(** * Properties *)

(** ** Duration parsing *)

(** A component [strconv.Atoi] accepts, and one it rejects. *)
Definition integer (c : string) : Prop := exists n, strconv.Atoi c = inl n.
Definition not_integer (c : string) : Prop := exists e, strconv.Atoi c = inr e.

(** Components weighted least-significant first, as the spec words it. *)
Fixpoint weighted_sum (vals weights : list Z) (secs : Z) : Z :=
  match vals, weights with
  | v :: vals, w :: weights => weighted_sum vals weights (add64 secs (mul64 v w))
  | _, _ => secs
  end.

Lemma Atoi_cases c : integer c \/ not_integer c.
Proof.
  unfold integer, not_integer.
  destruct (strconv.Atoi c) as [n | e]; [left | right]; eauto.
Qed.

Lemma integer_not_rejected c : integer c -> not_integer c -> False.
Proof. intros [n Hn] [e He]. congruence. Qed.

Section ParseDurationLoop.

Variable ds : string.
Variable chunks : list string.

Let lc := List.length chunks.

(** With at most four components the loop never leaves the weight table. *)
Lemma loop_total todo : forall i secs,
  (i + todo = lc)%nat -> (lc <= 4)%nat ->
  forall p, podcast.parseDuration_loop ds chunks lc todo i secs <> Panic p.
Proof.
  induction todo as [| todo IH]; intros i secs Hsum Hlc p; simpl; [discriminate |].
  destruct (nth_error chunks (lc - i - 1)) as [c |] eqn:Hc.
  - destruct (strconv.Atoi c) as [s | e]; [| discriminate].
    destruct (nth_error podcast.babylon i) as [b |] eqn:Hb.
    + apply IH; lia.
    + apply nth_error_None in Hb. simpl in Hb. lia.
  - apply nth_error_None in Hc. subst lc. lia.
Qed.

(** A rejected component among those still to be read is a parse error. *)
Lemma loop_rejects todo : forall i secs,
  (i + todo = lc)%nat -> (lc <= 4)%nat ->
  (exists k c, (k < todo)%nat /\ nth_error chunks k = Some c /\ not_integer c) ->
  exists c e, podcast.parseDuration_loop ds chunks lc todo i secs
              = Err (ErrParseDuration ds c e).
Proof.
  induction todo as [| todo IH]; intros i secs Hsum Hlc (k & c & Hk & Hkc & Hrej);
    [lia |].
  simpl. replace (lc - i - 1)%nat with todo by lia.
  destruct (nth_error chunks todo) as [c' |] eqn:Hc.
  - destruct (strconv.Atoi c') as [s | e] eqn:Ha; [| eauto].
    destruct (nth_error podcast.babylon i) as [b |] eqn:Hb.
    + apply IH; [lia | lia |].
      exists k, c. repeat split; auto.
      assert (k <> todo).
      { intros ->. rewrite Hc in Hkc. inversion Hkc; subst.
        destruct Hrej as [e He]. congruence. }
      lia.
    + apply nth_error_None in Hb. simpl in Hb. lia.
  - apply nth_error_None in Hc. subst lc. lia.
Qed.

(** With five or more components, all integers, the fifth round indexes
    [babylon[4]]. *)
Lemma loop_panics todo : forall i secs,
  (i + todo = lc)%nat -> (5 <= lc)%nat -> (i <= 4)%nat ->
  Forall integer chunks ->
  podcast.parseDuration_loop ds chunks lc todo i secs
  = Panic (IndexOutOfRange 4 4).
Proof.
  induction todo as [| todo IH]; intros i secs Hsum Hlc Hi Hall; [lia |].
  simpl. replace (lc - i - 1)%nat with todo by lia.
  destruct (nth_error chunks todo) as [c |] eqn:Hc.
  - assert (Hint : integer c).
    { rewrite List.Forall_forall in Hall. apply Hall. eapply nth_error_In; eauto. }
    destruct Hint as [s Hs]. rewrite Hs.
    destruct (nth_error podcast.babylon i) as [b |] eqn:Hb.
    + assert (Hlt : (i < List.length podcast.babylon)%nat).
      { apply nth_error_Some. congruence. }
      simpl in Hlt. apply IH; auto; lia.
    + apply nth_error_None in Hb. simpl in Hb.
      replace i with 4%nat by lia. reflexivity.
  - apply nth_error_None in Hc. subst lc. lia.
Qed.

(** The loop adds value times weight, last component first. *)
Lemma loop_weighs todo : forall i secs vals,
  (i + todo = lc)%nat -> (lc <= 4)%nat ->
  map strconv.Atoi (rev (firstn todo chunks)) = map inl vals ->
  podcast.parseDuration_loop ds chunks lc todo i secs
  = Ok (weighted_sum vals (skipn i podcast.babylon) secs).
Proof.
  induction todo as [| todo IH]; intros i secs vals Hsum Hlc Hvals.
  - simpl in Hvals. destruct vals; [reflexivity | discriminate].
  - simpl. replace (lc - i - 1)%nat with todo by lia.
    assert (Hlt : (todo < List.length chunks)%nat) by (fold lc; lia).
    destruct (nth_error chunks todo) as [c |] eqn:Hc;
      [| apply nth_error_None in Hc; lia].
    assert (Hsplit : firstn (S todo) chunks = (firstn todo chunks ++ [c])%list).
    { clear - Hc. revert chunks Hc.
      induction todo as [| n IHn]; intros [| x l] Hc; simpl in *; try discriminate.
      - inversion Hc; reflexivity.
      - f_equal. apply IHn; assumption. }
    rewrite Hsplit, rev_app_distr in Hvals. simpl in Hvals.
    destruct vals as [| v vals]; [discriminate |].
    simpl in Hvals. inversion Hvals as [[Hv Hrest]]. rewrite Hv.
    destruct (nth_error podcast.babylon i) as [b |] eqn:Hb.
    + rewrite (IH (S i) _ vals); [| lia | lia | assumption].
      f_equal.
      assert (Hskip : skipn i podcast.babylon = b :: skipn (S i) podcast.babylon).
      { clear - Hb. revert Hb. generalize podcast.babylon as l.
        induction i as [| n IHn]; intros [| x l] Hb; simpl in *; try discriminate.
        - inversion Hb; reflexivity.
        - apply IHn; assumption. }
      rewrite Hskip. reflexivity.
    + apply nth_error_None in Hb. simpl in Hb. lia.
Qed.

End ParseDurationLoop.

Lemma parseDuration_unfold ds :
  podcast.parseDuration ds =
  match podcast.parseDuration_loop ds (strings.Split ds ":")
          (List.length (strings.Split ds ":"))
          (List.length (strings.Split ds ":")) 0 0 with
  | Ok secs => Ok (mul64 secs time.Second)
  | Err e => Err e
  | Panic p => Panic p
  end.
Proof. reflexivity. Qed.

(** What [strconv.Atoi] takes for an integer, syntactically. *)
Definition is_digit (a : ascii) : bool :=
  match strconv.digit a with Some _ => true | None => false end.

Definition decimal (c : string) : bool :=
  match c with
  | EmptyString => false
  | _ => forallb is_digit (list_ascii_of_string c)
  end.

Definition signed_decimal (c : string) : bool :=
  match c with
  | EmptyString => false
  | String a rest =>
      if Ascii.eqb a "-" || Ascii.eqb a "+" then decimal rest else decimal c
  end.

Lemma digits_None s : forall acc,
  forallb is_digit (list_ascii_of_string s) = false -> strconv.digits s acc = None.
Proof.
  induction s as [| a s IH]; intros acc H; simpl in *; [discriminate |].
  unfold is_digit in H at 1.
  destruct (strconv.digit a); simpl in H; [apply IH; assumption | reflexivity].
Qed.

(** A component that is not an optionally signed run of decimal digits is
    rejected. *)
Lemma Atoi_rejects_non_decimal c : signed_decimal c = false -> not_integer c.
Proof.
  unfold not_integer, signed_decimal, strconv.Atoi.
  destruct c as [| a rest]; intros H; [eauto |].
  cbv zeta.
  destruct (Ascii.eqb a "-" || Ascii.eqb a "+")%bool eqn:Hsign.
  - destruct rest as [| b rest']; [eauto |].
    unfold decimal in H. rewrite (digits_None _ 0 H). eauto.
  - unfold decimal in H. rewrite (digits_None _ 0 H). eauto.
Qed.

(** C3, as the spec states its first case: the single component "3723" is
    not rejected; it is read as 3723 seconds. *)
Lemma single_component_is_valid :
  ~ (exists e, podcast.parseDuration "3723" = Err e).
Proof. intros [e H]. vm_compute in H. discriminate. Qed.

(** C3 (amended): "3723" parses to 3723 seconds, "1:02:03" to 3723 seconds
    and "02:03" to 123 seconds; an input of at most four components one of
    which is not an integer yields a parse error; the components are weighted
    least-significant first with the weights 1, 60, 3600 and 86400 seconds. *)
Theorem parseDuration_weights :
  podcast.parseDuration "3723" = Ok (3723 * time.Second) /\
  podcast.parseDuration "1:02:03" = Ok (3723 * time.Second) /\
  podcast.parseDuration "02:03" = Ok (123 * time.Second) /\
  (forall ds,
      (List.length (strings.Split ds ":") <= 4)%nat ->
      Exists not_integer (strings.Split ds ":") ->
      exists c e, podcast.parseDuration ds = Err (ErrParseDuration ds c e)) /\
  (forall ds vals,
      (List.length (strings.Split ds ":") <= 4)%nat ->
      map strconv.Atoi (rev (strings.Split ds ":")) = map inl vals ->
      podcast.parseDuration ds
      = Ok (mul64 (weighted_sum vals [1; 60; 3600; 86400] 0) time.Second)).
Proof.
  split; [vm_compute; reflexivity |].
  split; [vm_compute; reflexivity |].
  split; [vm_compute; reflexivity |].
  split.
  - intros ds Hlen Hex. rewrite parseDuration_unfold.
    destruct (loop_rejects ds (strings.Split ds ":")
                (List.length (strings.Split ds ":")) 0%nat 0) as (c & e & Hloop);
      [lia | assumption | | rewrite Hloop; eauto].
    apply List.Exists_exists in Hex. destruct Hex as (c & Hin & Hrej).
    apply In_nth_error in Hin. destruct Hin as [k Hk].
    exists k, c. repeat split; auto.
    apply nth_error_Some. congruence.
  - intros ds vals Hlen Hvals. rewrite parseDuration_unfold.
    rewrite (loop_weighs ds (strings.Split ds ":")
               (List.length (strings.Split ds ":")) 0%nat 0 vals);
      [reflexivity | lia | assumption |].
    rewrite firstn_all. assumption.
Qed.

Lemma parseDuration_weights_witness :
  (exists c e, podcast.parseDuration "1:xx:03"
               = Err (ErrParseDuration "1:xx:03" c e)) /\
  podcast.parseDuration "1:00:02:03"
  = Ok (mul64 (3 * 1 + 2 * 60 + 0 * 3600 + 1 * 86400) time.Second).
Proof.
  destruct parseDuration_weights as (_ & _ & _ & Herr & Hsum).
  split.
  - apply Herr; [simpl; lia |].
    apply Exists_cons_tl, Exists_cons_hd.
    apply Atoi_rejects_non_decimal. reflexivity.
  - apply (Hsum "1:00:02:03" [3; 2; 0; 1]); [simpl; lia | reflexivity].
Defined.

(** C10: with five or more colon-separated components, all of them integers,
    [parseDuration] indexes [babylon[4]] in its four-element weight table and
    panics; with at most four components it does not panic. *)
Theorem parseDuration_five_components ds :
  ((5 <= List.length (strings.Split ds ":"))%nat ->
   Forall integer (strings.Split ds ":") ->
   podcast.parseDuration ds = Panic (IndexOutOfRange 4 4)) /\
  ((List.length (strings.Split ds ":") <= 4)%nat ->
   (exists d, podcast.parseDuration ds = Ok d) \/
   (exists e, podcast.parseDuration ds = Err e)).
Proof.
  split.
  - intros Hlen Hall. rewrite parseDuration_unfold.
    rewrite (loop_panics ds (strings.Split ds ":")
               (List.length (strings.Split ds ":")) 0%nat 0); auto; lia.
  - intros Hlen. rewrite parseDuration_unfold.
    pose proof (loop_total ds (strings.Split ds ":")
                  (List.length (strings.Split ds ":")) 0%nat 0) as Htot.
    destruct (podcast.parseDuration_loop ds (strings.Split ds ":")
                (List.length (strings.Split ds ":"))
                (List.length (strings.Split ds ":")) 0 0) as [secs | e | p];
      [left; eauto | right; eauto |].
    exfalso. apply (Htot eq_refl Hlen p). reflexivity.
Qed.

Lemma parseDuration_five_components_witness :
  podcast.parseDuration "1:2:3:4:5" = Panic (IndexOutOfRange 4 4) /\
  ((exists d, podcast.parseDuration "1:2:3:4" = Ok d) \/
   (exists e, podcast.parseDuration "1:2:3:4" = Err e)).
Proof.
  split.
  - apply (proj1 (parseDuration_five_components "1:2:3:4:5")).
    + simpl; lia.
    + repeat constructor; eexists; reflexivity.
  - apply (proj2 (parseDuration_five_components "1:2:3:4")). simpl; lia.
Defined.

(** ** Traces *)

Section Traces.

Import podget.
Context {lib : GoLib}.
Variable env : Env.
Variable flags : Flags.

Definition sent (e : Event) : list Download :=
  match e with Send dl => [dl] | _ => [] end.

Lemma sends_emit e w : sends (emit e w) = (sends w ++ sent e)%list.
Proof.
  unfold sends, emit; simpl. rewrite omap_app. f_equal.
  destruct e; reflexivity.
Qed.

Lemma sends_logInfo msg vals w : sends (logInfo flags msg vals w) = sends w.
Proof.
  unfold logInfo. destruct (verbose flags); [| reflexivity].
  rewrite sends_emit. apply app_nil_r.
Qed.

Lemma sends_logDebug msg vals w : sends (logDebug flags msg vals w) = sends w.
Proof.
  unfold logDebug. destruct (debug flags); [| reflexivity].
  rewrite sends_emit. apply app_nil_r.
Qed.

Lemma sends_logError msg vals w : sends (logError msg vals w) = sends w.
Proof. unfold logError. rewrite sends_emit. apply app_nil_r. Qed.

Lemma errors_emit e w :
  errors (emit e w)
  = (errors w ++ match e with Stderr f v => [(f, v)] | _ => [] end)%list.
Proof.
  unfold errors, emit; simpl. rewrite omap_app. f_equal.
  destruct e; reflexivity.
Qed.

Lemma errors_logInfo msg vals w : errors (logInfo flags msg vals w) = errors w.
Proof.
  unfold logInfo. destruct (verbose flags); [| reflexivity].
  rewrite errors_emit. apply app_nil_r.
Qed.

Lemma errors_logDebug msg vals w : errors (logDebug flags msg vals w) = errors w.
Proof.
  unfold logDebug. destruct (debug flags); [| reflexivity].
  rewrite errors_emit. apply app_nil_r.
Qed.

Lemma errors_logError msg vals w :
  errors (logError msg vals w) = (errors w ++ [((msg ++ newline)%string, vals)])%list.
Proof. unfold logError. apply errors_emit. Qed.

(** [depodtracify] only logs. *)
Lemma depodtracify_sends g item enc u ext w :
  sends (snd (depodtracify flags g item enc u ext w)) = sends w.
Proof.
  unfold depodtracify.
  destruct (podcast.Guid_ item); [| reflexivity].
  destruct (podtracRE g); [| reflexivity].
  assert (Hfail : forall x r,
    sends (if debug flags
           then logDebug flags "     regexp: %s" [VString (Regexp_String r)]
                  (logDebug flags "search data: %s" [VString x] w)
           else w) = sends w).
  { intros. destruct (debug flags); [| reflexivity].
    rewrite !sends_logDebug. reflexivity. }
  destruct (List.length _ <? 1)%nat; [apply Hfail |].
  destruct (nth_error _ 1); [| reflexivity].
  destruct (String.eqb _ ""); [apply Hfail | reflexivity].
Qed.

(** Nothing is enqueued before [os.Stat]. *)
Lemma processItem_destfile_sends g feedtitle feeddir item w :
  sends (snd (processItem_destfile flags g feedtitle feeddir item w)) = sends w.
Proof.
  unfold processItem_destfile.
  destruct (podcast.Enclosure_ item) as [enc |]; simpl;
    [| apply sends_logInfo].
  destruct (url_Parse (podcast.URL enc)) as [u | err]; simpl;
    [| rewrite sends_logError; apply sends_logInfo].
  destruct (negb (String.eqb (podtrac flags) "")); simpl;
    [| apply sends_logInfo].
  pose proof (depodtracify_sends g item enc u (filepath_Ext (Path u))
                (logInfo flags "  %v %s %v"
                   [VDate (podcast.Time_ (podcast.PubDate item)) "2006-01-02";
                    VString (podcast.Title item);
                    VString (Duration_String (podcast.Duration_ item))] w)) as Hd.
  destruct (depodtracify _ _ _ _ _ _ _) as [[name | err | p] w']; simpl in *;
    rewrite ?sends_logError, Hd; apply sends_logInfo.
Qed.

End Traces.

(** ** The Episode Resolver *)

Lemma wrap64_small z : - 2 ^ 63 <= z < 2 ^ 63 -> wrap64 z = z.
Proof.
  intros H. unfold wrap64.
  rewrite Z.mod_small by lia. lia.
Qed.

(** Days turn into nanoseconds without overflow up to 106751 days. *)
Lemma maxage_exact days :
  0 <= days <= 106751 ->
  mul64 (mul64 days time.Hour) 24 = days * (24 * time.Hour).
Proof.
  intros H. unfold mul64.
  assert (Hh : time.Hour = 3600000000000) by reflexivity.
  rewrite Hh.
  rewrite (wrap64_small (days * 3600000000000)) by lia.
  rewrite wrap64_small by lia. lia.
Qed.

(** The three decisions of the resolver, and how a run of [processItem]
    shows them: a job enqueued for a file that does not exist, a job enqueued
    for a file that exists, or nothing enqueued and the skip reported. *)
Inductive Decision := DoDownload | DoOverwrite | DoSkip.

Section Resolver.

Import podget.
Context {lib : GoLib}.
Variable env : Env.
Variable flags : Flags.

Definition job (enc : podcast.Enclosure) (destfile : string) : Download :=
  {| URL := podcast.URL enc; File := destfile |}.

Definition file_exists (stat : FileInfo + Errno) : Prop :=
  exists stats, stat = inl stats.

(** The age the code compares: [time.Since] of the modification time,
    rounded to the second. *)
Definition file_age (stat : FileInfo + Errno) : Z :=
  match stat with
  | inl stats => time.Round (time_Since env (ModTime stats)) time.Second
  | inr _ => 0
  end.

Definition enqueued (before after : World) (dl : Download) : Prop :=
  sends after = (sends before ++ [dl])%list.

Definition skipped (before after : World) (destfile : string) : Prop :=
  sends after = sends before /\
  errors after
  = (errors before
     ++ [(("skipping %s, already downloaded" ++ newline)%string,
          [VString destfile])])%list.

Definition decided (d : Decision) (stat : FileInfo + Errno)
    (before after : World) (enc : podcast.Enclosure) (destfile : string)
  : Prop :=
  match d with
  | DoDownload => ~ file_exists stat /\ enqueued before after (job enc destfile)
  | DoOverwrite => file_exists stat /\ enqueued before after (job enc destfile)
  | DoSkip => skipped before after destfile
  end.

(** Whether the code sets [overwrite]. *)
Definition allows_overwrite (stat : FileInfo + Errno) : bool :=
  match stat with
  | inl _ =>
      (0 <? maxdays flags)
      && (mul64 (mul64 (maxdays flags) time.Hour) 24 <? file_age stat)
  | inr _ => false
  end.

Definition stat_error (stat : FileInfo + Errno) : option Errno :=
  match stat with inl _ => None | inr e => Some e end.

Lemma processItem_stat_sends enc destfile w :
  sends (processItem_stat env flags enc destfile w)
  = (sends w
     ++ if os_IsNotExist (stat_error (os_Stat env destfile))
           || allows_overwrite (os_Stat env destfile)
        then [job enc destfile] else [])%list.
Proof.
  unfold processItem_stat, allows_overwrite, file_age, stat_error.
  destruct (os_Stat env destfile) as [stats | e].
  - destruct (0 <? maxdays flags); simpl.
    + destruct (_ <? _); simpl;
        rewrite ?sends_emit, ?sends_logError, ?sends_logInfo, ?sends_emit;
        simpl; rewrite ?app_nil_r; reflexivity.
    + rewrite sends_logError, sends_emit. simpl. rewrite !app_nil_r. reflexivity.
  - destruct (os_IsNotExist (Some e)); simpl;
      rewrite ?sends_emit, ?sends_logError, ?sends_emit;
      simpl; rewrite ?app_nil_r; reflexivity.
Qed.

Lemma processItem_stat_errors enc destfile w :
  errors (processItem_stat env flags enc destfile w)
  = (errors w
     ++ if os_IsNotExist (stat_error (os_Stat env destfile))
           || allows_overwrite (os_Stat env destfile)
        then []
        else [(("skipping %s, already downloaded" ++ newline)%string,
               [VString destfile])])%list.
Proof.
  unfold processItem_stat, allows_overwrite, file_age, stat_error.
  destruct (os_Stat env destfile) as [stats | e].
  - destruct (0 <? maxdays flags); simpl.
    + destruct (_ <? _); simpl;
        rewrite ?errors_emit, ?errors_logError, ?errors_logInfo, ?errors_emit;
        simpl; rewrite ?app_nil_r; reflexivity.
    + rewrite errors_logError, errors_emit. simpl. rewrite !app_nil_r. reflexivity.
  - destruct (os_IsNotExist (Some e)); simpl;
      rewrite ?errors_emit, ?errors_logError, ?errors_emit;
      simpl; rewrite ?app_nil_r; reflexivity.
Qed.

Lemma processItem_destfile_errors_ok g feedtitle feeddir item w enc destfile w1 :
  processItem_destfile flags g feedtitle feeddir item w
  = (Ok (Some (enc, destfile)), w1) ->
  errors w1 = errors w.
Proof.
  unfold processItem_destfile.
  destruct (podcast.Enclosure_ item) as [enc' |]; [| discriminate].
  destruct (url_Parse (podcast.URL enc')) as [u | err]; [| discriminate].
  destruct (negb (String.eqb (podtrac flags) "")).
  - unfold depodtracify.
    destruct (podcast.Guid_ item); [| discriminate].
    destruct (podtracRE g); [| discriminate].
    destruct (List.length _ <? 1)%nat; [discriminate |].
    destruct (nth_error _ 1); [| discriminate].
    destruct (String.eqb _ ""); [discriminate |].
    intros H; inversion H; subst. apply errors_logInfo.
  - intros H; inversion H; subst. apply errors_logInfo.
Qed.

(** Once the destination is known, [processItem] is the [os.Stat] part. *)
Lemma processItem_reaches_stat g feedtitle feeddir item w enc destfile w1 :
  processItem_destfile flags g feedtitle feeddir item w
  = (Ok (Some (enc, destfile)), w1) ->
  processItem env flags g feedtitle feeddir item w
  = (Ok tt, processItem_stat env flags enc destfile w1)
  /\ sends w1 = sends w /\ errors w1 = errors w.
Proof.
  intros H. split; [unfold processItem; rewrite H; reflexivity |].
  split.
  - pose proof (processItem_destfile_sends flags g feedtitle feeddir item w) as Hs.
    rewrite H in Hs. exact Hs.
  - eapply processItem_destfile_errors_ok; eauto.
Qed.

(** What a run decides, from whether the code enqueues. *)
Lemma decided_cases g feedtitle feeddir item w enc destfile w1 :
  processItem_destfile flags g feedtitle feeddir item w
  = (Ok (Some (enc, destfile)), w1) ->
  let stat := os_Stat env destfile in
  let after := snd (processItem env flags g feedtitle feeddir item w) in
  let enq := os_IsNotExist (stat_error stat) || allows_overwrite stat in
  (enqueued w after (job enc destfile) <-> enq = true) /\
  (skipped w after destfile <-> enq = false).
Proof.
  intros H stat after enq.
  destruct (processItem_reaches_stat _ _ _ _ _ _ _ _ H) as (Hrun & Hs & He).
  subst after. rewrite Hrun. simpl.
  unfold enqueued, skipped.
  rewrite processItem_stat_sends, processItem_stat_errors, Hs, He.
  fold stat. fold enq.
  destruct enq; split; split; try discriminate; try reflexivity.
  - intros [Habs _]. apply (f_equal (@List.length _)) in Habs.
    rewrite length_app in Habs. simpl in Habs. lia.
  - intros Habs. rewrite app_nil_r in Habs.
    apply (f_equal (@List.length _)) in Habs.
    rewrite length_app in Habs. simpl in Habs. lia.
  - intros _. rewrite app_nil_r. split; reflexivity.
Qed.

End Resolver.

(** C9: an item whose enclosure is absent makes [processItem] dereference the
    nil [enc] in [url.Parse(enc.URL)]: it panics, and nothing is enqueued. *)
Theorem processItem_nil_enclosure {lib : GoLib} (env : Env) (flags : podget.Flags)
    (g : podget.Globals) (feedtitle feeddir : string) (item : podcast.Item)
    (w : podget.World) :
  podcast.Enclosure_ item = None ->
  fst (podget.processItem env flags g feedtitle feeddir item w)
  = Panic NilDereference
  /\ podget.sends (snd (podget.processItem env flags g feedtitle feeddir item w))
     = podget.sends w.
Proof.
  intros Hnil.
  unfold podget.processItem, podget.processItem_destfile.
  rewrite Hnil. simpl. split; [reflexivity | apply sends_logInfo].
Qed.

Lemma processItem_nil_enclosure_witness :
  fst (podget.processItem (lib := scenario.lib)
         (scenario.system (inr ENOENT) 0) (scenario.flags 30 "")
         podget.initial_globals "My Feed" "My_Feed"
         (scenario.without_enclosure (scenario.episode "episode-42: hello"))
         scenario.start)
  = Panic NilDereference.
Proof.
  apply (processItem_nil_enclosure (lib := scenario.lib)). reflexivity.
Defined.

(** The decision table of the spec, as C5 words it, for one item. *)
Definition overwrite_policy_as_stated {lib : GoLib} (env : Env)
    (flags : podget.Flags) (g : podget.Globals) (feedtitle feeddir : string)
    (item : podcast.Item) (w : podget.World) : Prop :=
  forall enc destfile w1,
    podget.processItem_destfile flags g feedtitle feeddir item w
    = (Ok (Some (enc, destfile)), w1) ->
    let stat := os_Stat env destfile in
    file_exists stat \/ stat = inr ENOENT ->
    let after := snd (podget.processItem env flags g feedtitle feeddir item w) in
    let R := podget.maxdays flags * (24 * time.Hour) in
    let A := file_age env stat in
    (decided DoOverwrite stat w after enc destfile
     <-> file_exists stat /\ 0 < R /\ R < A) /\
    (decided DoSkip stat w after enc destfile
     <-> file_exists stat /\ (R = 0 \/ A <= R)) /\
    (decided DoDownload stat w after enc destfile <-> ~ file_exists stat).

(** C5, as stated, fails for a negative [-r]: with [-r -1] an existing file
    one hour old is skipped, though R is not 0 and the age is not at most R. *)
Lemma negative_maxdays_skips :
  ~ overwrite_policy_as_stated (lib := scenario.lib)
      (scenario.system scenario.existing time.Hour) (scenario.flags (-1) "")
      podget.initial_globals "My Feed" "My_Feed"
      (scenario.episode "episode-42: hello") scenario.start.
Proof.
  intros H.
  destruct (H scenario.enclosure scenario.destination scenario.start eq_refl)
    as (_ & [Hskip _] & _).
  - left. eexists. reflexivity.
  - destruct Hskip as (_ & [HR | HA]).
    + split; reflexivity.
    + vm_compute in HR. discriminate.
    + vm_compute in HA. apply HA. reflexivity.
Qed.

(** C5 (amended): for an item whose destination-path stat succeeds or reports
    non-existence, with maxAge R of at most 106751 days and file age A, the
    decision is "overwrite" iff the file exists, R > 0 and A > R; "skip" iff
    the file exists and (R <= 0 or A <= R); "download" iff the file does not
    exist, regardless of R. *)
Theorem overwrite_policy {lib : GoLib} (env : Env) (flags : podget.Flags)
    (g : podget.Globals) (feedtitle feeddir : string) (item : podcast.Item)
    (w : podget.World) (enc : podcast.Enclosure) (destfile : string)
    (w1 : podget.World) :
  podget.processItem_destfile flags g feedtitle feeddir item w
  = (Ok (Some (enc, destfile)), w1) ->
  podget.maxdays flags <= 106751 ->
  let stat := os_Stat env destfile in
  file_exists stat \/ stat = inr ENOENT ->
  let after := snd (podget.processItem env flags g feedtitle feeddir item w) in
  let R := podget.maxdays flags * (24 * time.Hour) in
  let A := file_age env stat in
  (decided DoOverwrite stat w after enc destfile
   <-> file_exists stat /\ 0 < R /\ R < A) /\
  (decided DoSkip stat w after enc destfile
   <-> file_exists stat /\ (R <= 0 \/ A <= R)) /\
  (decided DoDownload stat w after enc destfile <-> ~ file_exists stat).
Proof.
  intros Hdest Hmax stat Hstat after R A.
  destruct (decided_cases env flags g feedtitle feeddir item w enc destfile w1 Hdest)
    as [Henq Hskip].
  fold stat in Henq, Hskip. fold after in Henq, Hskip.
  assert (HhourR : 0 < podget.maxdays flags -> 0 < R)
    by (unfold R; intros; assert (time.Hour = 3600000000000) by reflexivity; lia).
  assert (HRhour : 0 < R -> 0 < podget.maxdays flags)
    by (unfold R; intros; assert (time.Hour = 3600000000000) by reflexivity; lia).
  simpl. rewrite Henq, Hskip. clear Henq Hskip.
  destruct Hstat as [[stats Hs] | Hs].
  - assert (Hex : file_exists stat) by (exists stats; exact Hs).
    assert (Hallow : os_IsNotExist (stat_error stat) || allows_overwrite env flags stat
                     = allows_overwrite env flags stat)
      by (rewrite Hs; reflexivity).
    rewrite Hallow.
    assert (Hspec : allows_overwrite env flags stat = true <-> 0 < R /\ R < A).
    { unfold allows_overwrite. subst A. rewrite Hs. fold stat. rewrite <- Hs.
      rewrite andb_true_iff, Z.ltb_lt, Z.ltb_lt. split.
      - intros [Hpos Hlt]. rewrite maxage_exact in Hlt by lia.
        fold R in Hlt. auto.
      - intros [Hpos Hlt]. split; [auto |].
        rewrite maxage_exact by lia. exact Hlt. }
    split; [| split].
    + split; [intros [_ Hal]; split; [exact Hex | apply Hspec; exact Hal]
             | intros [_ HRA]; split; [exact Hex | apply Hspec; exact HRA]].
    + split.
      * intros Hal. split; [exact Hex |].
        destruct (Z_lt_le_dec 0 R) as [Hpos | Hnon]; [| left; exact Hnon].
        right. destruct (Z_lt_le_dec R A) as [Hlt | Hle]; [| exact Hle].
        assert (allows_overwrite env flags stat = true) by (apply Hspec; auto).
        congruence.
      * intros [_ HRA].
        destruct (allows_overwrite env flags stat) eqn:Hal; [| reflexivity].
        assert (0 < R /\ R < A) by (apply Hspec; reflexivity). lia.
    + split; [intros [Hnex _]; exact Hnex | intros Hnex; contradiction].
  - assert (Hnex : ~ file_exists stat)
      by (intros [stats Hs']; rewrite Hs in Hs'; discriminate).
    assert (Hb : os_IsNotExist (stat_error stat) || allows_overwrite env flags stat
                 = true) by (rewrite Hs; reflexivity).
    rewrite Hb.
    split; [| split].
    + split; [intros [Hex _]; contradiction | intros [Hex _]; contradiction].
    + split; [discriminate | intros [Hex _]; contradiction].
    + split; [intros _; exact Hnex | intros _; split; [exact Hnex | reflexivity]].
Qed.

Lemma overwrite_policy_witness :
  decided DoOverwrite scenario.existing scenario.start
    (snd (podget.processItem (lib := scenario.lib)
            (scenario.system scenario.existing (31 * 24 * time.Hour))
            (scenario.flags 30 "") podget.initial_globals "My Feed" "My_Feed"
            (scenario.episode "episode-42: hello") scenario.start))
    scenario.enclosure scenario.destination.
Proof.
  apply (overwrite_policy (lib := scenario.lib)
           (scenario.system scenario.existing (31 * 24 * time.Hour))
           (scenario.flags 30 "") podget.initial_globals "My Feed" "My_Feed"
           (scenario.episode "episode-42: hello") scenario.start
           scenario.enclosure scenario.destination scenario.start eq_refl).
  - simpl. lia.
  - left. eexists. reflexivity.
  - split; [eexists; reflexivity |]. vm_compute. split; reflexivity.
Defined.

(** C1, as the spec words it, for one item: a stat failure other than "does
    not exist" leads to the download of a non-existent file. *)
Definition stat_failure_as_stated {lib : GoLib} (env : Env)
    (flags : podget.Flags) (g : podget.Globals) (feedtitle feeddir : string)
    (item : podcast.Item) (w : podget.World) : Prop :=
  forall enc destfile w1 errno,
    podget.processItem_destfile flags g feedtitle feeddir item w
    = (Ok (Some (enc, destfile)), w1) ->
    os_Stat env destfile = inr errno ->
    errno <> ENOENT ->
    enqueued w (snd (podget.processItem env flags g feedtitle feeddir item w))
      (job enc destfile).

(** C1, as stated, fails: when [os.Stat] is refused with EACCES nothing is
    enqueued. *)
Lemma permission_error_is_not_download :
  ~ stat_failure_as_stated (lib := scenario.lib)
      (scenario.system (inr EACCES) 0) (scenario.flags 30 "")
      podget.initial_globals "My Feed" "My_Feed"
      (scenario.episode "episode-42: hello") scenario.start.
Proof.
  intros H.
  specialize (H scenario.enclosure scenario.destination scenario.start EACCES
                eq_refl eq_refl).
  assert (Hne : EACCES <> ENOENT) by discriminate.
  specialize (H Hne). vm_compute in H. discriminate.
Qed.

(** C1 (amended): for every item whose destination-path stat fails with an
    error other than "does not exist", the decision is the one for an
    existing file that may not be overwritten: the item is skipped, reported
    as already downloaded, and no job is enqueued. *)
Theorem stat_failure_skips {lib : GoLib} (env : Env) (flags : podget.Flags)
    (g : podget.Globals) (feedtitle feeddir : string) (item : podcast.Item)
    (w : podget.World) (enc : podcast.Enclosure) (destfile : string)
    (w1 : podget.World) (errno : Errno) :
  podget.processItem_destfile flags g feedtitle feeddir item w
  = (Ok (Some (enc, destfile)), w1) ->
  os_Stat env destfile = inr errno ->
  errno <> ENOENT ->
  fst (podget.processItem env flags g feedtitle feeddir item w) = Ok tt /\
  decided DoSkip (os_Stat env destfile) w
    (snd (podget.processItem env flags g feedtitle feeddir item w)) enc destfile.
Proof.
  intros Hdest Hstat Hne.
  destruct (processItem_reaches_stat env flags _ _ _ _ _ _ _ _ Hdest) as (Hrun & _).
  split; [rewrite Hrun; reflexivity |].
  simpl.
  apply (decided_cases env flags g feedtitle feeddir item w enc destfile w1 Hdest).
  rewrite Hstat. destruct errno; try reflexivity. contradiction.
Qed.

Lemma stat_failure_skips_witness :
  decided DoSkip (inr EACCES) scenario.start
    (snd (podget.processItem (lib := scenario.lib)
            (scenario.system (inr EACCES) 0) (scenario.flags 30 "")
            podget.initial_globals "My Feed" "My_Feed"
            (scenario.episode "episode-42: hello") scenario.start))
    scenario.enclosure scenario.destination.
Proof.
  apply (stat_failure_skips (lib := scenario.lib)
           (scenario.system (inr EACCES) 0) (scenario.flags 30 "")
           podget.initial_globals "My Feed" "My_Feed"
           (scenario.episode "episode-42: hello") scenario.start
           scenario.enclosure scenario.destination scenario.start EACCES
           eq_refl eq_refl).
  discriminate.
Defined.

(** ** The extraction rule *)

(** The field selectors the spec enumerates. *)
Definition known_fields : list string :=
  ["item.author"; "item.category"; "item.description"; "item.duration";
   "item.guid"; "item.pubDate"; "item.title"; "enclosure.url"; "url"].

(** The string a field selector names; the empty string for any other
    token. *)
Definition field_value {lib : GoLib} (field : string) (item : podcast.Item)
    (guid : podcast.Guid) (enc : podcast.Enclosure) (u : url_URL) : string :=
  if String.eqb field "url" then URL_String u
  else if String.eqb field "enclosure.url" then podcast.URL enc
  else if String.eqb field "item.title" then podcast.Title item
  else if String.eqb field "item.pubDate"
       then Time_String (podcast.Time_ (podcast.PubDate item))
  else if String.eqb field "item.guid" then podcast.Text guid
  else if String.eqb field "item.duration"
       then Duration_String (podcast.Duration_ item)
  else if String.eqb field "item.description" then podcast.Description item
  else if String.eqb field "item.category" then podcast.Category_ item
  else if String.eqb field "item.author" then podcast.Author item
  else "".

Lemma field_value_unknown {lib : GoLib} field item guid enc u :
  ~ In field known_fields -> field_value field item guid enc u = "".
Proof.
  intros Hnot. unfold field_value.
  repeat match goal with
         | |- context [String.eqb field ?k] =>
             destruct (String.eqb_spec field k) as [-> | _];
             [exfalso; apply Hnot; simpl; tauto |]
         end.
  reflexivity.
Qed.

(** What [depodtracify] makes of the submatches [ep]. *)
Definition extraction (ep : list string) (url ext : string) : result string :=
  match ep with
  | [] => Err (ErrExtract url)
  | [_] => Panic (IndexOutOfRange 1 1)
  | _ :: ep1 :: _ =>
      if String.eqb ep1 "" then Err (ErrExtract url) else Ok (ep1 ++ ext)
  end.

Section Extraction.

Import podget.
Context {lib : GoLib}.
Variable flags : Flags.

Lemma depodtracify_result g item guid re enc u ext w :
  podcast.Guid_ item = Some guid ->
  podtracRE g = Some re ->
  fst (depodtracify flags g item enc u ext w)
  = extraction
      (Regexp_FindStringSubmatch re (field_value (podtracField g) item guid enc u))
      (URL_String u) ext.
Proof.
  intros Hguid Hre. unfold depodtracify. rewrite Hguid, Hre.
  assert (Hx : forall v1 v2 v3 v4 v5 v6 v7 v8 v9 f,
    default "" ((<["url" := v9]> (<["enclosure.url" := v8]>
      (<["item.title" := v7]> (<["item.pubDate" := v6]> (<["item.guid" := v5]>
      (<["item.duration" := v4]> (<["item.description" := v3]>
      (<["item.category" := v2]> (<["item.author" := v1]>
         (∅ : gmap string string)))))))))) !! f)
    = if String.eqb f "url" then v9
      else if String.eqb f "enclosure.url" then v8
      else if String.eqb f "item.title" then v7
      else if String.eqb f "item.pubDate" then v6
      else if String.eqb f "item.guid" then v5
      else if String.eqb f "item.duration" then v4
      else if String.eqb f "item.description" then v3
      else if String.eqb f "item.category" then v2
      else if String.eqb f "item.author" then v1
      else "").
  { intros.
    repeat (rewrite lookup_insert;
            match goal with
            | |- context [String.eqb f ?k] =>
                destruct (String.eqb_spec f k) as [-> | Hne];
                [rewrite decide_True by reflexivity; reflexivity
                | rewrite decide_False by congruence; clear Hne]
            end).
    rewrite lookup_empty. reflexivity. }
  rewrite Hx. fold (field_value (podtracField g) item guid enc u).
  destruct (Regexp_FindStringSubmatch re _) as [| m [| ep1 rest]]; simpl.
  - destruct (debug flags); reflexivity.
  - reflexivity.
  - destruct (String.eqb ep1 ""); [destruct (debug flags) |]; reflexivity.
Qed.

Lemma depodtracify_errors g item enc u ext w :
  errors (snd (depodtracify flags g item enc u ext w)) = errors w.
Proof.
  unfold depodtracify.
  destruct (podcast.Guid_ item); [| reflexivity].
  destruct (podtracRE g); [| reflexivity].
  assert (Hfail : forall x r,
    errors (if debug flags
            then logDebug flags "     regexp: %s" [VString (Regexp_String r)]
                   (logDebug flags "search data: %s" [VString x] w)
            else w) = errors w).
  { intros. destruct (debug flags); [| reflexivity].
    rewrite !errors_logDebug. reflexivity. }
  destruct (List.length _ <? 1)%nat; [apply Hfail |].
  destruct (nth_error _ 1); [| reflexivity].
  destruct (String.eqb _ ""); [apply Hfail | reflexivity].
Qed.

End Extraction.

Lemma SplitN2_cut field rest :
  strings.mem " " field = false ->
  strings.SplitN2 (field ++ String " " rest) " " = [field; rest].
Proof.
  induction field as [| a field IH]; intros Hmem; [reflexivity |].
  change (strings.mem " " (String a field))
    with (Ascii.eqb " " a || strings.mem " " field)%bool in Hmem.
  apply orb_false_iff in Hmem. destruct Hmem as [Ha Hrest].
  change (strings.SplitN2 (String a field ++ String " " rest) " ")
    with (if Ascii.eqb a " " then [EmptyString; (field ++ String " " rest)%string]
          else match strings.SplitN2 (field ++ String " " rest) " " with
               | [piece] => [String a piece]
               | piece :: pieces => String a piece :: pieces
               | [] => [String a EmptyString]
               end).
  rewrite Ascii.eqb_sym, Ha, (IH Hrest). reflexivity.
Qed.

(** C2, as the spec words it, for one command line: a field selector outside
    the enumerated set stops the process at startup. *)
Definition field_check_as_stated {lib : GoLib} (flags : podget.Flags)
    (w : podget.World) : Prop :=
  forall field pattern,
    strings.mem " " field = false ->
    podget.podtrac flags = field ++ " " ++ pattern ->
    ~ In field known_fields ->
    ~ exists g, fst (podget.main_startup flags w) = podget.Proceed g.

(** C2, as stated, fails: with [-podtrac "item.bogus episode-(\d+)"] the
    start-up succeeds and the process goes on to the feeds. *)
Lemma unknown_field_is_accepted :
  ~ field_check_as_stated (lib := scenario.lib)
      (scenario.flags 0 "item.bogus episode-(\d+)") scenario.start.
Proof.
  intros H.
  apply (H "item.bogus" "episode-(\d+)"); [reflexivity | reflexivity | |].
  - simpl. intros Hin. repeat destruct Hin as [Hin | Hin]; try discriminate Hin.
    exact Hin.
  - eexists. reflexivity.
Qed.

(** C2 (amended): the field-selector token is not checked at startup.  For an
    instruction "<field> <pattern>" the process stops at startup, with exit
    status 1 and before any feed is processed, exactly when the pattern,
    trimmed of spaces and slashes, does not compile; otherwise it proceeds
    with the token as field selector, enumerated or not, and a token outside
    the enumerated set selects the empty string for every episode that has a
    guid. *)
Theorem startup_checks_pattern_only {lib : GoLib} (flags : podget.Flags)
    (w : podget.World) (field pattern : string) :
  strings.mem " " field = false ->
  podget.podtrac flags = field ++ " " ++ pattern ->
  match regexp_Compile (strings.Trim pattern " /") with
  | inr _ => fst (podget.main_startup flags w) = podget.Exit 1
  | inl re =>
      let g := {| podget.podtracRE := Some re;
                  podget.podtracField := strings_TrimSpace field |} in
      fst (podget.main_startup flags w) = podget.Proceed g /\
      (~ In (strings_TrimSpace field) known_fields ->
       forall item guid enc u ext w',
         podcast.Guid_ item = Some guid ->
         fst (podget.depodtracify flags g item enc u ext w')
         = extraction (Regexp_FindStringSubmatch re "") (URL_String u) ext)
  end.
Proof.
  intros Hfield Hflag.
  unfold podget.main_startup, podget.podtracCompile.
  rewrite Hflag.
  assert (Hne : String.eqb (field ++ " " ++ pattern) "" = false).
  { destruct field; reflexivity. }
  rewrite Hne. change (" " ++ pattern)%string with (String " " pattern).
  rewrite SplitN2_cut by assumption. simpl.
  destruct (regexp_Compile (strings.Trim pattern " /")) as [re | err];
    [| reflexivity].
  split; [reflexivity |].
  intros Hunknown item guid enc u ext w' Hguid.
  rewrite (depodtracify_result flags
             {| podget.podtracRE := Some re;
                podget.podtracField := strings_TrimSpace field |}
             item guid re enc u ext w' Hguid eq_refl).
  cbn [podget.podtracField].
  rewrite (field_value_unknown _ item guid enc u Hunknown). reflexivity.
Qed.

Lemma startup_checks_pattern_only_witness :
  fst (podget.main_startup (lib := scenario.lib)
         (scenario.flags 0 "item.title /episode-(\d+/") scenario.start)
  = podget.Exit 1.
Proof.
  apply (startup_checks_pattern_only (lib := scenario.lib)
           (scenario.flags 0 "item.title /episode-(\d+/") scenario.start
           "item.title" "/episode-(\d+/"); reflexivity.
Defined.

(** X14: per-episode application of a configured rule, for an item that has a
    guid and a pattern that has a capturing group: the named field is
    searched; without a match, or with an empty first group, the episode is
    skipped with an error and nothing is enqueued; otherwise the first group
    and the extension of the enclosure URL's path name the file. *)
Lemma extraction_rule {lib : GoLib} (env : Env) (flags : podget.Flags)
    (g : podget.Globals) (feedtitle feeddir : string) (item : podcast.Item)
    (w : podget.World) (enc : podcast.Enclosure) (u : url_URL)
    (guid : podcast.Guid) (re : Regexp) :
  podcast.Enclosure_ item = Some enc ->
  url_Parse (podcast.URL enc) = inl u ->
  podget.podtrac flags <> "" ->
  podcast.Guid_ item = Some guid ->
  podget.podtracRE g = Some re ->
  let ep := Regexp_FindStringSubmatch re
              (field_value (podget.podtracField g) item guid enc u) in
  List.length ep <> 1%nat ->
  let run := podget.processItem env flags g feedtitle feeddir item w in
  (ep = [] \/ nth_error ep 1 = Some "" ->
   fst run = Ok tt /\
   podget.sends (snd run) = podget.sends w /\
   podget.errors (snd run)
   = (podget.errors w
      ++ [(("skipping episode: %v" ++ podget.newline)%string,
           [podget.VError (ErrExtract (URL_String u))])])%list) /\
  (forall stem,
      nth_error ep 1 = Some stem -> stem <> "" ->
      exists w1,
        podget.processItem_destfile flags g feedtitle feeddir item w
        = (Ok (Some (enc, filepath_Join
                            [podget.destdir flags; feeddir;
                             (stem ++ filepath_Ext (Path u))%string])), w1)).
Proof.
  intros Henc Hurl Hpod Hguid Hre ep Hlen run.
  assert (Hflag : negb (String.eqb (podget.podtrac flags) "") = true).
  { destruct (String.eqb_spec (podget.podtrac flags) ""); [contradiction | reflexivity]. }
  pose (w0 := podget.logInfo flags "  %v %s %v"
                [podget.VDate (podcast.Time_ (podcast.PubDate item)) "2006-01-02";
                 podget.VString (podcast.Title item);
                 podget.VString (Duration_String (podcast.Duration_ item))] w).
  pose proof (depodtracify_result flags g item guid re enc u
                (filepath_Ext (Path u)) w0 Hguid Hre) as Hres.
  pose proof (depodtracify_sends flags g item enc u (filepath_Ext (Path u)) w0) as Hs.
  pose proof (depodtracify_errors flags g item enc u (filepath_Ext (Path u)) w0) as He.
  fold ep in Hres.
  assert (Hdest : podget.processItem_destfile flags g feedtitle feeddir item w
    = match podget.depodtracify flags g item enc u (filepath_Ext (Path u)) w0 with
      | (Err err, w') =>
          (Ok None, podget.logError "skipping episode: %v" [podget.VError err] w')
      | (Panic p, w') => (Panic p, w')
      | (Ok destfile, w') =>
          (Ok (Some (enc, filepath_Join [podget.destdir flags; feeddir; destfile])), w')
      end).
  { unfold podget.processItem_destfile. rewrite Henc, Hurl, Hflag. reflexivity. }
  split.
  - intros Hfail.
    assert (Hext : extraction ep (URL_String u) (filepath_Ext (Path u))
                   = Err (ErrExtract (URL_String u))).
    { destruct Hfail as [Hnil | Hempty]; [rewrite Hnil; reflexivity |].
      destruct ep as [| m [| ep1 rest]]; try discriminate.
      simpl in Hempty. inversion Hempty; subst. reflexivity. }
    rewrite Hext in Hres.
    subst run. unfold podget.processItem. rewrite Hdest.
    destruct (podget.depodtracify flags g item enc u (filepath_Ext (Path u)) w0)
      as [[name | err | p] w'] eqn:Hd; simpl in Hres; try discriminate.
    inversion Hres; subst err. simpl in Hs, He |- *.
    split; [reflexivity |]. split.
    + rewrite sends_logError, Hs. apply sends_logInfo.
    + rewrite errors_logError, He. unfold w0. rewrite errors_logInfo. reflexivity.
  - intros stem Hstem Hne.
    assert (Hext : extraction ep (URL_String u) (filepath_Ext (Path u))
                   = Ok (stem ++ filepath_Ext (Path u))%string).
    { destruct ep as [| m [| ep1 rest]]; try discriminate.
      simpl in Hstem. inversion Hstem; subst. simpl.
      destruct (String.eqb_spec stem ""); [contradiction | reflexivity]. }
    rewrite Hext in Hres. rewrite Hdest.
    destruct (podget.depodtracify flags g item enc u (filepath_Ext (Path u)) w0)
      as [[name | err | p] w'] eqn:Hd; simpl in Hres; try discriminate.
    inversion Hres; subst name. eexists. reflexivity.
Qed.

(** The spec's example: "item.title episode-(\d+)" names the file of the
    episode titled "episode-42: hello" 42.mp3, and skips the episode titled
    "hello". *)
Lemma extraction_rule_example :
  podget.sends
    (snd (podget.processItem (lib := scenario.lib) scenario.fresh scenario.titled
            (scenario.globals scenario.titled) "My Feed" "My_Feed"
            (scenario.episode "episode-42: hello") scenario.start))
  = [ {| podget.URL := "http://example.com/audio/ep1.mp3";
         podget.File := "/pods/My_Feed/42.mp3" |} ] /\
  podget.sends
    (snd (podget.processItem (lib := scenario.lib) scenario.fresh scenario.titled
            (scenario.globals scenario.titled) "My Feed" "My_Feed"
            (scenario.episode "hello") scenario.start))
  = [] /\
  podget.errors
    (snd (podget.processItem (lib := scenario.lib) scenario.fresh scenario.titled
            (scenario.globals scenario.titled) "My Feed" "My_Feed"
            (scenario.episode "hello") scenario.start))
  = [(("skipping episode: %v" ++ podget.newline)%string,
      [podget.VError (ErrExtract "http://example.com/audio/ep1.mp3")])].
Proof. vm_compute. repeat split. Qed.

(** C4 fails on an episode whose feed entry has no guid: with the rule
    "item.title episode-(\d+)" and the title "episode-42: hello",
    [depodtracify] dereferences the nil [item.Guid] while it fills its table
    of fields, and the process panics instead of naming the file 42.mp3. *)
Theorem extraction_without_guid_panics :
  podget.processItem (lib := scenario.lib) scenario.fresh scenario.titled
    (scenario.globals scenario.titled) "My Feed" "My_Feed"
    (scenario.without_guid (scenario.episode "episode-42: hello")) scenario.start
  = (Panic NilDereference, scenario.start).
Proof. vm_compute. reflexivity. Qed.

(** The guard [len(ep) < 1] lets a match without a capturing group through to
    [ep[1]]: a rule whose pattern has no group panics on every episode it
    matches. *)
Lemma extraction_without_group_panics :
  fst (podget.processItem (lib := scenario.lib) scenario.fresh
         (scenario.flags 0 "item.title episode-\d+")
         (scenario.globals (scenario.flags 0 "item.title episode-\d+"))
         "My Feed" "My_Feed" (scenario.episode "episode-42: hello") scenario.start)
  = Panic (IndexOutOfRange 1 1).
Proof. vm_compute. reflexivity. Qed.

(** ** Moments *)

(** Moments in order: the first not before [from], each later than the one
    before it. *)
Fixpoint ascending (from : nat) (moments : list nat) : Prop :=
  match moments with
  | [] => True
  | m :: rest => (from <= m)%nat /\ ascending (S m) rest
  end.

Lemma ascending_from from from' moments :
  (from <= from')%nat -> ascending from' moments -> ascending from moments.
Proof.
  destruct moments as [| m rest]; [trivial |].
  intros Hle [Hm Hrest]. split; [lia | exact Hrest].
Qed.

Lemma map_const_zip_with {A B C D} (f : A -> B -> C) (c : D) (l : list A)
    (k : list B) :
  List.length l = List.length k ->
  map (fun _ => c) (zip_with f l k) = map (fun _ => c) k.
Proof.
  revert k. induction l as [| a l IH]; intros [| b k] Hlen;
    try discriminate; [reflexivity |].
  cbn [zip_with map]. f_equal. apply IH. simpl in Hlen. lia.
Qed.

Lemma now_emit e w : podget.now (podget.emit e w) = S (podget.now w).
Proof. unfold podget.now, podget.emit. cbn [podget.trace]. rewrite length_app. simpl. lia. Qed.

(** ** The download worker *)

(** What a log call prints when its switch is on. *)
Definition printed (on : bool) (msg : string) (vals : list podget.value)
  : list podget.Event :=
  if on then [podget.Stdout (msg ++ podget.newline) vals] else [].

(** How one [download] ends. *)
Inductive Ending :=
| MkdirFailed (errno : Errno)
| CreateFailed (errno : Errno)
| GetFailed (err : error)
| CopyFailed (written : string) (err : error)
| Completed (written : string).

Lemma World_eq (a b : podget.World) :
  podget.trace a = podget.trace b -> podget.files a = podget.files b -> a = b.
Proof. destruct a, b; simpl; intros -> ->; reflexivity. Qed.

Section Worker.

Import podget.
Context {lib : GoLib}.
Variable env : Env.
Variable flags : Flags.

(** The ending the system's answers give the job. *)
Definition ending (fromurl tofile : string) : Ending :=
  match os_MkdirAll env (path_Dir tofile) with
  | Some e => MkdirFailed e
  | None =>
      match os_Create env tofile with
      | Some e => CreateFailed e
      | None =>
          match http_Get env fromurl with
          | inr err => GetFailed err
          | inl resp =>
              match io_Copy env tofile resp with
              | (written, Some err) => CopyFailed written err
              | (written, None) => Completed written
              end
          end
      end
  end.

(** The line a failed job leaves on the error stream: what failed, on what,
    and the error.  The line of a failed [os.MkdirAll] has the verb for the
    error and no error to print. *)
Definition failure_line (dl : Download) (e : Ending) : list (string * list value) :=
  match e with
  | MkdirFailed _ =>
      [(("can't create destination directory %s: %v" ++ newline)%string,
        [VString (path_Dir (File dl)); VMissing])]
  | CreateFailed errno =>
      [(("can't create %s: %v" ++ newline)%string,
        [VString (File dl); VErrno "open" (File dl) errno])]
  | GetFailed err =>
      [(("can't download %s: %v" ++ newline)%string,
        [VString (URL dl); VError err])]
  | CopyFailed _ err =>
      [(("error downloading %s: %v" ++ newline)%string,
        [VString (URL dl); VError err])]
  | Completed _ => []
  end.

(** The system calls of a job, by how far it gets. *)
Definition job_calls (dl : Download) (e : Ending) : list Event :=
  match e with
  | MkdirFailed _ => [Call "os.MkdirAll" (path_Dir (File dl))]
  | CreateFailed _ =>
      [Call "os.MkdirAll" (path_Dir (File dl)); Call "os.Create" (File dl)]
  | GetFailed _ | CopyFailed _ _ | Completed _ =>
      [Call "os.MkdirAll" (path_Dir (File dl)); Call "os.Create" (File dl);
       Call "http.Get" (URL dl)]
  end.

(** The events of a job that ends in [e]: the debug line of its start, its
    calls, and then the line of its failure or the lines of its success. *)
Definition job_trace (dl : Download) (e : Ending) : list Event :=
  (printed (debug flags) "beginning download %s -> %s"
     [VString (URL dl); VString (File dl)]
   ++ job_calls dl e
   ++ map (fun line => Stderr (fst line) (snd line)) (failure_line dl e)
   ++ match e with
      | Completed written =>
          printed (verbose flags) "%d bytes downloaded to %s"
            [VInt (Z.of_nat (String.length written)); VString (File dl)]
          ++ printed (debug flags) "ending download %s -> %s"
               [VString (URL dl); VString (File dl)]
      | _ => []
      end)%list.

(** The files after a job that ends in [e]: the destination is created
    empty once [os.Create] succeeds and holds what [io.Copy] wrote, whether
    the copy failed or not; nothing is removed. *)
Definition job_files (dl : Download) (e : Ending) (fs : gmap string string)
  : gmap string string :=
  match e with
  | MkdirFailed _ | CreateFailed _ => fs
  | GetFailed _ => <[File dl := ""]> fs
  | CopyFailed written _ | Completed written => <[File dl := written]> fs
  end.

Lemma trace_logInfo msg vals w :
  trace (logInfo flags msg vals w) = (trace w ++ printed (verbose flags) msg vals)%list.
Proof.
  unfold logInfo, printed. destruct (verbose flags); simpl;
    [reflexivity | symmetry; apply app_nil_r].
Qed.

Lemma trace_logDebug msg vals w :
  trace (logDebug flags msg vals w) = (trace w ++ printed (debug flags) msg vals)%list.
Proof.
  unfold logDebug, printed. destruct (debug flags); simpl;
    [reflexivity | symmetry; apply app_nil_r].
Qed.

Lemma trace_logError msg vals w :
  trace (logError msg vals w) = (trace w ++ [Stderr (msg ++ newline) vals])%list.
Proof. reflexivity. Qed.

Lemma trace_emit e w : trace (emit e w) = (trace w ++ [e])%list.
Proof. reflexivity. Qed.

Lemma trace_write_file path content w : trace (write_file path content w) = trace w.
Proof. reflexivity. Qed.

Lemma files_logInfo msg vals w : files (logInfo flags msg vals w) = files w.
Proof. unfold logInfo. destruct (verbose flags); reflexivity. Qed.

Lemma files_logDebug msg vals w : files (logDebug flags msg vals w) = files w.
Proof. unfold logDebug. destruct (debug flags); reflexivity. Qed.

Lemma errors_write_file path content w :
  errors (write_file path content w) = errors w.
Proof. reflexivity. Qed.

Lemma files_emit e w : files (emit e w) = files w.
Proof. reflexivity. Qed.

Lemma files_logError msg vals w : files (logError msg vals w) = files w.
Proof. reflexivity. Qed.

Lemma files_write_file path content w :
  files (write_file path content w) = <[path := content]> (files w).
Proof. reflexivity. Qed.

Ltac world :=
  repeat (rewrite ?trace_logError, ?trace_emit, ?trace_logDebug, ?trace_logInfo,
            ?trace_write_file, ?files_emit, ?files_logError, ?files_write_file,
            ?files_logDebug, ?files_logInfo;
          cbn [app map fst snd URL File]);
  rewrite <- ?app_assoc; cbn [app]; rewrite ?app_nil_r.

(** One download, whole: the trace grows by the events of the job and the
    files change as its ending says. *)
Lemma download_run dl w :
  download env flags (URL dl) (File dl) w
  = {| trace := (trace w ++ job_trace dl (ending (URL dl) (File dl)))%list;
       files := job_files dl (ending (URL dl) (File dl)) (files w) |}.
Proof.
  apply World_eq; cbn [trace files];
    unfold ending, download, job_trace, job_calls, failure_line, job_files;
    cbv zeta;
    destruct (os_MkdirAll env (path_Dir (File dl))); [world; reflexivity | |
                                                       world; reflexivity |];
    (destruct (os_Create env (File dl)); [world; reflexivity |]);
    (destruct (http_Get env (URL dl)) as [resp | err]; [| world; reflexivity]);
    destruct (io_Copy env (File dl) resp) as [written [err |]]; world;
    rewrite ?insert_insert_eq; reflexivity.
Qed.

End Worker.
Section WorkerLoop.

Import podget.
Context {lib : GoLib}.
Variable sys : Timeline.
Variable flags : Flags.

(** A job with the ending it had. *)
Definition Run : Type := Download * Ending.

(** The jobs with the endings the system gives them at their moments. *)
Definition runs_at (moments : list nat) (received : list Download) : list Run :=
  zip_with (fun m dl => (dl, ending (sys m) (URL dl) (File dl))) moments received.

(** The events of a round of [for dl := range dlqueue]: the job, then the
    sleep. *)
Definition round_trace (r : Run) : list Event :=
  (job_trace flags (fst r) (snd r) ++ [Sleep (2 * time.Second)])%list.

Definition round_files (fs : gmap string string) (r : Run) : gmap string string :=
  job_files (fst r) (snd r) fs.

Definition is_stderr (e : Event) : option (string * list value) :=
  match e with Stderr f v => Some (f, v) | _ => None end.

Definition is_sleep (e : Event) : option Z :=
  match e with Sleep d => Some d | _ => None end.

Lemma printed_silent on msg vals :
  omap is_stderr (printed on msg vals) = [] /\ omap is_sleep (printed on msg vals) = [].
Proof. destruct on; split; reflexivity. Qed.

Lemma omap_stderr_lines (lines : list (string * list value)) :
  omap is_stderr (map (fun line => Stderr (fst line) (snd line)) lines) = lines.
Proof.
  induction lines as [| [f v] rest IH]; [reflexivity |].
  simpl. f_equal. exact IH.
Qed.

Lemma omap_sleep_lines (lines : list (string * list value)) :
  omap is_sleep (map (fun line => Stderr (fst line) (snd line)) lines) = [].
Proof. induction lines as [| [f v] rest IH]; [reflexivity | exact IH]. Qed.

(** Of a round, the error stream gets the line of the failure, if any, and
    the round sleeps once, at its end. *)
Lemma round_trace_parts r :
  omap is_stderr (round_trace r) = failure_line (fst r) (snd r) /\
  omap is_sleep (round_trace r) = [2 * time.Second].
Proof.
  unfold round_trace, job_trace. rewrite !omap_app.
  rewrite (proj1 (printed_silent _ _ _)), (proj2 (printed_silent _ _ _)).
  rewrite omap_stderr_lines, omap_sleep_lines.
  destruct r as [dl e]. cbn [fst snd].
  destruct e; cbn [job_calls omap is_stderr is_sleep app];
    rewrite ?omap_app, ?(proj1 (printed_silent _ _ _)),
      ?(proj2 (printed_silent _ _ _)), ?app_nil_r;
    split; reflexivity.
Qed.

Lemma rounds_parts (runs : list Run) :
  omap is_stderr (concat (map round_trace runs))
  = concat (map (fun r => failure_line (fst r) (snd r)) runs) /\
  omap is_sleep (concat (map round_trace runs))
  = map (fun _ => 2 * time.Second) runs.
Proof.
  induction runs as [| r rest [IHe IHs]]; [split; reflexivity |].
  cbn [map concat]. rewrite !omap_app, IHe, IHs.
  destruct (round_trace_parts r) as [He Hs]. rewrite He, Hs.
  split; reflexivity.
Qed.

(** The loop of the worker, whole: round after round, each job with the
    ending the system of its moment gives it. *)
Lemma worker_loop_run received : forall w,
  exists moments,
    List.length moments = List.length received /\
    ascending (now w) moments /\
    fold_left (fun w dl => downloader_body (sys (now w)) flags dl w) received w
    = {| trace := (trace w ++ concat (map round_trace (runs_at moments received)))%list;
         files := fold_left round_files (runs_at moments received) (files w) |}.
Proof.
  induction received as [| dl rest IH]; intros w.
  - exists []. split; [reflexivity |]. split; [exact I |].
    apply World_eq; simpl; [symmetry; apply app_nil_r | reflexivity].
  - cbn [fold_left].
    destruct (IH (downloader_body (sys (now w)) flags dl w))
      as (moments & Hlen & Hasc & Hrun).
    exists (now w :: moments).
    split; [simpl; rewrite Hlen; reflexivity |].
    split.
    { split; [lia |]. eapply ascending_from; [| exact Hasc].
      unfold downloader_body. rewrite now_emit, download_run.
      unfold now. cbn [trace]. rewrite length_app. lia. }
    rewrite Hrun. unfold downloader_body. rewrite download_run.
    apply World_eq; cbn [trace files emit runs_at zip_with map concat fold_left];
      unfold round_trace, round_files; cbn [fst snd];
      rewrite <- ?app_assoc; reflexivity.
Qed.

End WorkerLoop.

(** X24: the rest of C7, for every list of jobs and every behaviour of the
    system: the worker begins every job it receives, in order, each at a
    moment of its own and with the ending the system of that moment gives
    it; a failed job leaves its one line on the error stream and the worker
    goes on; what a job wrote to its file stays and no other file is
    touched; every job, failed or not, is followed by a sleep of two
    seconds. *)
Lemma downloader_isolates_failures {lib : GoLib} (sys : Timeline)
    (flags : podget.Flags) (received : list podget.Download) (w : podget.World) :
  let w' := podget.downloader sys flags received w in
  exists moments,
    List.length moments = List.length received /\
    ascending (podget.now w) moments /\
    let runs := runs_at sys moments received in
    podget.trace w'
    = (podget.trace w
       ++ printed (podget.debug flags) "download task starting" []
       ++ concat (map (round_trace flags) runs)
       ++ printed (podget.debug flags)
            "all downloads complete, download task finishing" [])%list /\
    podget.files w' = fold_left round_files runs (podget.files w) /\
    podget.errors w'
    = (podget.errors w
       ++ concat (map (fun r => failure_line (fst r) (snd r)) runs))%list /\
    podget.sleeps w'
    = (podget.sleeps w ++ map (fun _ => 2 * time.Second) received)%list.
Proof.
  intros w'. subst w'. unfold podget.downloader.
  destruct (worker_loop_run sys flags received
              (podget.logDebug flags "download task starting" [] w))
    as (moments & Hlen & Hasc & Hrun).
  exists moments. split; [exact Hlen |].
  split.
  { eapply ascending_from; [| exact Hasc].
    unfold podget.now. rewrite trace_logDebug, length_app. lia. }
  cbv zeta. rewrite Hrun.
  set (runs := runs_at sys moments received).
  assert (Htrace :
    podget.trace
      (podget.logDebug flags "all downloads complete, download task finishing" []
         {| podget.trace :=
              (podget.trace (podget.logDebug flags "download task starting" [] w)
               ++ concat (map (round_trace flags) runs))%list;
            podget.files :=
              fold_left round_files runs
                (podget.files (podget.logDebug flags "download task starting" [] w)) |})
    = (podget.trace w
       ++ printed (podget.debug flags) "download task starting" []
       ++ concat (map (round_trace flags) runs)
       ++ printed (podget.debug flags)
            "all downloads complete, download task finishing" [])%list).
  { rewrite trace_logDebug. cbn [podget.trace]. rewrite trace_logDebug.
    rewrite <- !app_assoc. reflexivity. }
  split; [exact Htrace |].
  split; [rewrite files_logDebug; cbn [podget.files]; rewrite files_logDebug;
          reflexivity |].
  destruct (rounds_parts flags runs) as [He Hs].
  split.
  - unfold podget.errors. fold is_stderr. rewrite Htrace, !omap_app.
    rewrite (proj1 (printed_silent _ _ _)), (proj1 (printed_silent _ _ _)).
    rewrite He, app_nil_r. reflexivity.
  - unfold podget.sleeps. fold is_sleep. rewrite Htrace, !omap_app.
    rewrite (proj2 (printed_silent _ _ _)), (proj2 (printed_silent _ _ _)).
    rewrite Hs, app_nil_r. unfold runs, runs_at.
    rewrite map_const_zip_with by exact Hlen. reflexivity.
Qed.

(** A job touches its own file only, and what reached the file stays when
    the fetch or the copy fails. *)
Lemma job_files_kept (dl : podget.Download) (e : Ending) (fs : gmap string string) :
  (forall path, path <> podget.File dl -> job_files dl e fs !! path = fs !! path) /\
  (forall content, fs !! podget.File dl = Some content ->
                   exists kept, job_files dl e fs !! podget.File dl = Some kept) /\
  (forall written err, e = CopyFailed written err ->
                       job_files dl e fs !! podget.File dl = Some written) /\
  (forall err, e = GetFailed err -> job_files dl e fs !! podget.File dl = Some "").
Proof.
  split; [| split; [| split]].
  - intros path Hne. destruct e; cbn [job_files];
      rewrite ?lookup_insert_ne by congruence; reflexivity.
  - intros content Hold. destruct e; cbn [job_files];
      rewrite ?lookup_insert_eq; eauto.
  - intros written err ->. apply lookup_insert_eq.
  - intros err ->. apply lookup_insert_eq.
Qed.

(** C7 fails on a job whose destination directory cannot be created: the
    line [download] writes for a failed [os.MkdirAll] has the verb for the
    error but not the error, and reads
    "can't create destination directory <dir>: %!v(MISSING)" whatever the
    error was.  The job is given up and no file is touched. *)
Theorem mkdir_failure_omits_error {lib : GoLib} (env : Env)
    (flags : podget.Flags) (fromurl tofile : string) (w : podget.World)
    (errno : Errno) :
  os_MkdirAll env (path_Dir tofile) = Some errno ->
  podget.errors (podget.download env flags fromurl tofile w)
  = (podget.errors w
     ++ [(("can't create destination directory %s: %v" ++ podget.newline)%string,
          [podget.VString (path_Dir tofile); podget.VMissing])])%list /\
  podget.files (podget.download env flags fromurl tofile w) = podget.files w.
Proof.
  intros Hmkdir. unfold podget.download. cbv zeta. rewrite Hmkdir.
  rewrite errors_logError, errors_emit, errors_logDebug, app_nil_r.
  split; [reflexivity |].
  rewrite files_logError, files_emit. apply files_logDebug.
Qed.

Lemma mkdir_failure_omits_error_witness :
  podget.errors
    (podget.download (lib := scenario.lib) scenario.readonly (scenario.flags 0 "")
       (podget.URL scenario.job_a) (podget.File scenario.job_a) scenario.start)
  = [(("can't create destination directory %s: %v" ++ podget.newline)%string,
      [podget.VString "/pods/A"; podget.VMissing])].
Proof.
  apply (mkdir_failure_omits_error (lib := scenario.lib) scenario.readonly
           (scenario.flags 0 "") (podget.URL scenario.job_a)
           (podget.File scenario.job_a) scenario.start EACCES).
  reflexivity.
Defined.

(** ** The queue between the tasks *)

Section Queue.

Import podget tasks.
Variable feeds : list (list Download).

(** What holds of every state the process reaches: the queue never holds
    more than [queueSize] jobs; the jobs done, in hand, queued and still to
    send are, in this order, the jobs of all the feeds; the queue is closed
    exactly when the feed task is past its loop; the worker leaves its loop
    only on a closed and empty queue. *)
Definition queue_invariant (s : System) : Prop :=
  (List.length (buffer s) <= queueSize)%nat /\
  (completed s ++ in_hand s ++ buffer s ++ unsent_jobs s)%list = concat feeds /\
  closed s = producer_closed s /\
  (worker_returned s = true -> closed s = true /\ buffer s = []).

Lemma queue_invariant_initial : queue_invariant (initial feeds).
Proof.
  unfold queue_invariant, initial; simpl.
  repeat split; try reflexivity; try discriminate. unfold queueSize. lia.
Qed.

Lemma queue_invariant_wg_Done s : queue_invariant s -> queue_invariant (wg_Done s).
Proof.
  unfold wg_Done. destruct (counter s - 1 <? 0); intros H; exact H.
Qed.

Ltac queue_unfold :=
  unfold queue_invariant, unsent_jobs, in_hand, worker_returned, producer_closed
    in *; simpl in *.

Ltac queue_close :=
  repeat match goal with
         | |- _ /\ _ => split
         | |- _ -> _ => intro
         | H : ?a = true -> _ |- _ =>
             match goal with
             | H' : a = true |- _ => specialize (H H')
             | _ => specialize (H eq_refl)
             end
         | H : _ /\ _ |- _ => destruct H
         end;
  subst; simpl in *; try congruence; try lia; auto.

Lemma queue_invariant_step a s s' :
  step a s = Some s' -> queue_invariant s -> queue_invariant s'.
Proof.
  unfold step. destruct (process s); [| discriminate | discriminate].
  intros Hstep (Hlen & Hjobs & Hclosed & Hret).
  destruct a.
  - destruct (producer s) as [[| feed later] | | |] eqn:Hp; try discriminate.
    inversion Hstep; subst; clear Hstep.
    queue_unfold. rewrite Hp in *. queue_close.
  - destruct (producer s) as [| [| dl unsent] later | |] eqn:Hp; try discriminate.
    destruct (List.length (buffer s) <? queueSize)%nat eqn:Hroom; [| discriminate].
    inversion Hstep; subst; clear Hstep.
    apply Nat.ltb_lt in Hroom.
    queue_unfold. rewrite Hp in *.
    split; [rewrite length_app; simpl; lia |].
    split; [rewrite <- Hjobs, <- !app_assoc; reflexivity |].
    queue_close.
  - destruct (producer s) as [| [| dl unsent] later | |] eqn:Hp; try discriminate.
    inversion Hstep; subst; clear Hstep.
    queue_unfold. rewrite Hp in *. queue_close.
  - destruct (producer s) as [[| feed later] | | |] eqn:Hp; try discriminate.
    inversion Hstep; subst; clear Hstep.
    queue_unfold. rewrite Hp in *. queue_close.
  - destruct (producer s) eqn:Hp; try discriminate.
    destruct (deferred s) eqn:Hd; try discriminate.
    inversion Hstep; subst; clear Hstep.
    apply queue_invariant_wg_Done.
    queue_unfold. rewrite Hp in *. queue_close.
  - destruct (producer s) eqn:Hp; try discriminate.
    destruct (deferred s) eqn:Hd; try discriminate.
    inversion Hstep; subst; clear Hstep.
    queue_unfold. rewrite Hp in *. queue_close.
  - destruct (worker s) eqn:Hw; try discriminate.
    destruct (buffer s) as [| dl rest] eqn:Hb; try discriminate.
    inversion Hstep; subst; clear Hstep.
    queue_unfold. rewrite Hw in *. queue_close.
  - destruct (worker s) eqn:Hw; try discriminate.
    inversion Hstep; subst; clear Hstep.
    queue_unfold. rewrite Hw in *.
    split; [assumption |].
    split; [rewrite <- Hjobs, <- !app_assoc; reflexivity |].
    queue_close.
  - destruct (worker s) eqn:Hw; try discriminate.
    destruct (buffer s) as [| dl rest] eqn:Hb; try discriminate.
    destruct (closed s) eqn:Hc; try discriminate.
    inversion Hstep; subst; clear Hstep.
    queue_unfold. rewrite Hw, Hb in *. queue_close.
  - destruct (worker s) eqn:Hw; try discriminate.
    inversion Hstep; subst; clear Hstep.
    apply queue_invariant_wg_Done.
    queue_unfold. rewrite Hw in *. queue_close.
  - destruct (released s); [| discriminate].
    inversion Hstep; subst; clear Hstep.
    queue_unfold. queue_close.
Qed.

Lemma queue_invariant_run actions : forall s s',
  run actions s = Some s' -> queue_invariant s -> queue_invariant s'.
Proof.
  induction actions as [| a rest IH]; intros s s' Hrun Hinv; simpl in Hrun.
  - inversion Hrun; subst; assumption.
  - destruct (step a s) as [s1 |] eqn:Hstep; [| discriminate].
    eapply IH; eauto. eapply queue_invariant_step; eauto.
Qed.

Lemma queue_invariant_reachable s : reachable feeds s -> queue_invariant s.
Proof.
  intros [actions Hrun].
  eapply queue_invariant_run; eauto. apply queue_invariant_initial.
Qed.

End Queue.

Section WaitGroup.

Import podget tasks.
Variable feeds : list (list Download).

Let n := List.length feeds.

(** The [wg.Done()] calls each task has made. *)
Definition producer_dones (s : System) : Z :=
  match producer s with
  | Unwinding => Z.of_nat n - Z.of_nat (deferred s)
  | ProducerGone => Z.of_nat n
  | _ => 0
  end.

Definition worker_dones (s : System) : Z :=
  match worker s with
  | WorkerGone => 1
  | _ => 0
  end.

(** Unless the process has crashed: the counter is the two [wg.Add(1)] less
    the [wg.Done()] calls made; [main] is let through only at zero; the feed
    task holds one deferred call for every feed it has begun. *)
Definition counter_invariant (s : System) : Prop :=
  match process s with
  | Crashed _ => True
  | p =>
      counter s = 2 - producer_dones s - worker_dones s /\
      (released s = true -> counter s = 0) /\
      (p = Exited -> released s = true) /\
      match producer s with
      | BetweenFeeds later | InFeed _ later => (deferred s + List.length later = n)%nat
      | Unwinding => (deferred s <= n)%nat
      | ProducerGone => True
      end
  end.

Lemma counter_invariant_initial : counter_invariant (initial feeds).
Proof.
  unfold counter_invariant, initial, producer_dones, worker_dones; simpl.
  repeat split; try discriminate; try reflexivity.
Qed.

Lemma counter_invariant_wg_Done s :
  process s = Running ->
  counter s - 1 = 2 - producer_dones s - worker_dones s ->
  (released s = true -> counter s = 0) ->
  match producer s with
  | BetweenFeeds later | InFeed _ later => (deferred s + List.length later = n)%nat
  | Unwinding => (deferred s <= n)%nat
  | ProducerGone => True
  end ->
  counter_invariant (wg_Done s).
Proof.
  intros Hrun Hc Hrel Hdef. unfold wg_Done.
  destruct (counter s - 1 <? 0) eqn:Hneg.
  - unfold counter_invariant; simpl. exact I.
  - apply Z.ltb_ge in Hneg.
    unfold counter_invariant, producer_dones, worker_dones in *; simpl.
    rewrite Hrun. split; [exact Hc |]. split; [| split; [discriminate | exact Hdef]].
    intros Hr. apply orb_true_iff in Hr. destruct Hr as [Hr | Hr].
    + specialize (Hrel Hr). lia.
    + apply Z.eqb_eq in Hr. exact Hr.
Qed.

Ltac counter_close :=
  unfold counter_invariant, producer_dones, worker_dones in *; simpl in *;
  repeat match goal with
         | H : process _ = _ |- _ => rewrite H in *
         | H : producer _ = _ |- _ => rewrite H in *
         | H : worker _ = _ |- _ => rewrite H in *
         end;
  simpl in *; repeat split; auto; try discriminate; try lia.

Lemma counter_invariant_step a s s' :
  step a s = Some s' -> queue_invariant feeds s ->
  counter_invariant s -> counter_invariant s'.
Proof.
  unfold step. destruct (process s) eqn:Hproc; [| discriminate | discriminate].
  intros Hstep (_ & _ & Hclosed & Hret) Hinv.
  unfold counter_invariant in Hinv. rewrite Hproc in Hinv.
  destruct Hinv as (Hc & Hrel & _ & Hdef).
  destruct a.
  - destruct (producer s) as [[| feed later] | | |] eqn:Hp; try discriminate.
    inversion Hstep; subst; clear Hstep. counter_close.
  - destruct (producer s) as [| [| dl unsent] later | |] eqn:Hp; try discriminate.
    destruct (List.length (buffer s) <? queueSize)%nat; [| discriminate].
    inversion Hstep; subst; clear Hstep. counter_close.
  - destruct (producer s) as [| [| dl unsent] later | |] eqn:Hp; try discriminate.
    inversion Hstep; subst; clear Hstep. counter_close.
  - destruct (producer s) as [[| feed later] | | |] eqn:Hp; try discriminate.
    inversion Hstep; subst; clear Hstep. counter_close.
  - destruct (producer s) eqn:Hp; try discriminate.
    destruct (deferred s) as [| k] eqn:Hd; try discriminate.
    inversion Hstep; subst; clear Hstep.
    apply counter_invariant_wg_Done; counter_close.
  - destruct (producer s) eqn:Hp; try discriminate.
    destruct (deferred s) as [| k] eqn:Hd; try discriminate.
    inversion Hstep; subst; clear Hstep. counter_close.
  - destruct (worker s) eqn:Hw; try discriminate.
    destruct (buffer s) as [| dl rest] eqn:Hb; try discriminate.
    inversion Hstep; subst; clear Hstep. counter_close.
  - destruct (worker s) eqn:Hw; try discriminate.
    inversion Hstep; subst; clear Hstep. counter_close.
  - destruct (worker s) eqn:Hw; try discriminate.
    destruct (buffer s) as [| dl rest] eqn:Hb; try discriminate.
    destruct (closed s) eqn:Hcl; try discriminate.
    inversion Hstep; subst; clear Hstep. counter_close.
  - destruct (worker s) eqn:Hw; try discriminate.
    inversion Hstep; subst; clear Hstep.
    apply counter_invariant_wg_Done; counter_close.
  - destruct (released s) eqn:Hr; [| discriminate].
    inversion Hstep; subst; clear Hstep. counter_close.
Qed.

Lemma invariants_run actions : forall s s',
  run actions s = Some s' ->
  queue_invariant feeds s /\ counter_invariant s ->
  queue_invariant feeds s' /\ counter_invariant s'.
Proof.
  induction actions as [| a rest IH]; intros s s' Hrun [Hq Hc]; simpl in Hrun.
  - inversion Hrun; subst; auto.
  - destruct (step a s) as [s1 |] eqn:Hstep; [| discriminate].
    apply (IH s1 s' Hrun). split.
    + eapply queue_invariant_step; eauto.
    + eapply counter_invariant_step; eauto.
Qed.

Lemma counter_invariant_reachable s : reachable feeds s -> counter_invariant s.
Proof.
  intros [actions Hrun].
  apply (invariants_run actions (initial feeds) s Hrun).
  split; [apply queue_invariant_initial | apply counter_invariant_initial].
Qed.

End WaitGroup.

(** X17: the queue never holds more than fifteen jobs. *)
Lemma queue_bounded feeds s :
  tasks.reachable feeds s -> (List.length (tasks.buffer s) <= 15)%nat.
Proof. intros H. apply (queue_invariant_reachable feeds s H). Qed.

(** X18: no job is lost, doubled or reordered: the jobs done, the job in hand,
    the queue and the jobs still to send are the jobs of the feeds, in the
    order of the feeds. *)
Lemma queue_is_fifo feeds s :
  tasks.reachable feeds s ->
  (tasks.completed s ++ tasks.in_hand s ++ tasks.buffer s ++ tasks.unsent_jobs s)%list
  = concat feeds.
Proof. intros H. apply (queue_invariant_reachable feeds s H). Qed.

(** X19: on a full queue the send cannot be taken, and no step of another task
    moves the feed task or drops its job: it waits where it is. *)
Lemma full_queue_blocks_send s dl unsent later :
  tasks.producer s = tasks.InFeed (dl :: unsent) later ->
  List.length (tasks.buffer s) = podget.queueSize ->
  tasks.step tasks.SendJob s = None /\
  (forall a s', tasks.step a s = Some s' ->
                tasks.producer s' = tasks.InFeed (dl :: unsent) later).
Proof.
  intros Hp Hfull. split.
  - unfold tasks.step. destruct (tasks.process s); try reflexivity.
    rewrite Hp, Hfull. reflexivity.
  - intros a s'. unfold tasks.step.
    destruct (tasks.process s); try discriminate.
    destruct a; rewrite ?Hp, ?Hfull; simpl; try discriminate;
      try (destruct (tasks.worker s); try discriminate);
      try (destruct (tasks.buffer s); try discriminate);
      try (destruct (tasks.closed s); try discriminate);
      try (destruct (tasks.released s); try discriminate);
      intros H; inversion H; subst; simpl; try exact Hp;
      unfold tasks.wg_Done; simpl; destruct (_ <? 0); simpl; exact Hp.
Qed.

Lemma returned_means_drained feeds s :
  tasks.reachable feeds s ->
  tasks.worker_returned s = true ->
  tasks.closed s = true /\ tasks.buffer s = [] /\ tasks.completed s = concat feeds.
Proof.
  intros Hreach Hret.
  destruct (queue_invariant_reachable feeds s Hreach) as (_ & Hjobs & Hclosed & Hdrain).
  destruct (Hdrain Hret) as [Hc Hb].
  split; [exact Hc |]. split; [exact Hb |].
  rewrite <- Hjobs, Hb.
  unfold tasks.in_hand, tasks.unsent_jobs, tasks.worker_returned,
    tasks.producer_closed in *.
  rewrite Hc in Hclosed.
  destruct (tasks.worker s); try discriminate;
    destruct (tasks.producer s); try discriminate;
    simpl; rewrite app_nil_r; reflexivity.
Qed.

(** X20: the worker leaves [range dlqueue] only when the queue is closed and
    empty, and then it has done every job of every feed, in order. *)
Lemma worker_returns_after_drain feeds s :
  tasks.reachable feeds s ->
  tasks.worker_returned s = true ->
  tasks.closed s = true /\ tasks.buffer s = [] /\ tasks.completed s = concat feeds.
Proof. apply returned_means_drained. Qed.

(** X21: with one feed [main] returns only after the worker has done every job:
    the one deferred [wg.Done()] of the feed task and the one of the
    download task balance the two [wg.Add(1)]. *)
Lemma one_feed_exits_after_drain feed s :
  tasks.reachable [feed] s ->
  tasks.process s = tasks.Exited ->
  tasks.completed s = feed /\ tasks.buffer s = [].
Proof.
  intros Hreach Hexit.
  pose proof (counter_invariant_reachable [feed] s Hreach) as Hc.
  unfold counter_invariant in Hc. rewrite Hexit in Hc.
  destruct Hc as (Hcount & Hrel & Hex & Hdef).
  specialize (Hrel (Hex eq_refl)).
  assert (Hgone : tasks.worker_returned s = true).
  { unfold producer_dones, worker_dones, tasks.worker_returned in *. simpl in *.
    destruct (tasks.worker s); try reflexivity;
      destruct (tasks.producer s); simpl in *; lia. }
  destruct (returned_means_drained [feed] s Hreach Hgone) as (_ & Hb & Hdone).
  split; [| exact Hb]. rewrite Hdone. simpl. apply app_nil_r.
Qed.

(** X22: without a feed on the command line [main] never returns: the feed task
    defers no [wg.Done()], and the counter stays above zero. *)
Lemma no_feed_never_exits s :
  tasks.reachable [] s -> tasks.process s <> tasks.Exited.
Proof.
  intros Hreach Hexit.
  pose proof (counter_invariant_reachable [] s Hreach) as Hc.
  unfold counter_invariant in Hc. rewrite Hexit in Hc.
  destruct Hc as (Hcount & Hrel & Hex & Hdef).
  specialize (Hrel (Hex eq_refl)).
  unfold producer_dones, worker_dones in *. simpl in *.
  destruct (tasks.worker s); destruct (tasks.producer s); simpl in *; lia.
Qed.

(** C8 fails on a command line with two feeds: the feed task defers one
    [wg.Done()] per feed, so after [close(dlqueue)] its two deferred calls
    alone bring the counter of the WaitGroup to zero; [main] returns and the
    process exits while the worker still holds the first job and the second
    is in the queue. *)
Theorem two_feeds_exit_before_drain :
  exists s,
    tasks.run
      [tasks.NextFeed; tasks.SendJob; tasks.Receive; tasks.FeedDone;
       tasks.NextFeed; tasks.SendJob; tasks.FeedDone;
       tasks.CloseQueue; tasks.ProducerDone; tasks.ProducerDone;
       tasks.MainReturns]
      (tasks.initial [[scenario.job_a]; [scenario.job_b]]) = Some s /\
    tasks.process s = tasks.Exited /\
    tasks.worker s = tasks.Downloading scenario.job_a /\
    tasks.buffer s = [scenario.job_b] /\
    tasks.completed s = [].
Proof. eexists. vm_compute. repeat split. Qed.

(** With three feeds the third deferred [wg.Done()] finds the counter at
    zero and panics. *)
Lemma three_feeds_negative_counter :
  exists s,
    tasks.run
      [tasks.NextFeed; tasks.FeedDone; tasks.NextFeed; tasks.FeedDone;
       tasks.NextFeed; tasks.FeedDone; tasks.CloseQueue;
       tasks.ProducerDone; tasks.ProducerDone; tasks.ProducerDone]
      (tasks.initial [[]; []; []]) = Some s /\
    tasks.process s = tasks.Crashed NegativeWaitGroupCounter.
Proof. eexists. vm_compute. split; reflexivity. Qed.

(** ** Timestamps *)

(** *** The calendar of the model *)










(** *** Fields of two and of four digits *)











(** *** From a date to its day and back *)




(** *** What the parser accepts *)








(** * Further properties of the code *)

(** ** [parseDuration] *)

(** The seconds a list of component values stands for, least significant
    first. *)
Fixpoint seconds_of (vals weights : list Z) : Z :=
  match vals, weights with
  | v :: vals, w :: weights => v * w + seconds_of vals weights
  | _, _ => 0
  end.

Lemma loop_never_ok_beyond_four ds chunks todo : forall i secs,
  (i + todo = List.length chunks)%nat -> (5 <= List.length chunks)%nat ->
  (i <= 4)%nat ->
  forall d, podcast.parseDuration_loop ds chunks (List.length chunks) todo i secs
            <> Ok d.
Proof.
  induction todo as [| todo IH]; intros i secs Hsum Hlc Hi d; [lia |].
  simpl.
  destruct (nth_error chunks (List.length chunks - i - 1)) as [c |]; [| discriminate].
  destruct (strconv.Atoi c) as [s | e]; [| discriminate].
  destruct (nth_error podcast.babylon i) as [b |] eqn:Hb; [| discriminate].
  assert (Hlt : (i < List.length podcast.babylon)%nat)
    by (apply nth_error_Some; congruence).
  simpl in Hlt. apply IH; lia.
Qed.

(** X1: [parseDuration] returns a duration only for one to four components. *)
Lemma parseDuration_ok_components ds d :
  podcast.parseDuration ds = Ok d ->
  (1 <= List.length (strings.Split ds ":") <= 4)%nat.
Proof.
  intros Hok. split.
  - destruct ds as [| a ds]; simpl; [lia |].
    destruct (Ascii.eqb a ":"); simpl; [lia |].
    destruct (strings.Split ds ":"); simpl; lia.
  - destruct (le_lt_dec (List.length (strings.Split ds ":")) 4) as [Hle | Hgt];
      [exact Hle | exfalso].
    rewrite parseDuration_unfold in Hok.
    pose proof (loop_never_ok_beyond_four ds (strings.Split ds ":")
                  (List.length (strings.Split ds ":")) 0%nat 0) as Hno.
    destruct (podcast.parseDuration_loop ds (strings.Split ds ":")
                (List.length (strings.Split ds ":"))
                (List.length (strings.Split ds ":")) 0 0) as [secs | e | p];
      try discriminate.
    apply (Hno eq_refl ltac:(lia) ltac:(lia) secs). reflexivity.
Qed.

Lemma parseDuration_ok_components_witness :
  (1 <= List.length (strings.Split "1:02:03" ":") <= 4)%nat.
Proof.
  apply (parseDuration_ok_components "1:02:03" (3723 * time.Second)).
  vm_compute. reflexivity.
Defined.

Lemma weighted_sum_exact vals :
  (List.length vals <= 4)%nat ->
  Forall (fun v => -100000 <= v <= 100000) vals ->
  mul64 (weighted_sum vals podcast.babylon 0) time.Second
  = seconds_of vals podcast.babylon * time.Second.
Proof.
  intros Hlen Hall.
  assert (Hsec : time.Second = 1000000000) by reflexivity.
  destruct vals as [| v0 [| v1 [| v2 [| v3 [| v4 rest]]]]];
    simpl in Hlen; try lia;
    repeat match goal with
           | H : Forall _ (_ :: _) |- _ =>
               let Hv := fresh "Hv" in
               apply Forall_cons_iff in H; destruct H as [Hv H]
           end;
    unfold podcast.babylon, weighted_sum, seconds_of, add64, mul64;
    rewrite Hsec;
    repeat match goal with
           | |- context [wrap64 ?z] =>
               lazymatch z with
               | context [wrap64 _] => fail
               | _ => rewrite (wrap64_small z) by lia
               end
           end; lia.
Qed.

(** X2: up to four components, each an integer between -100000 and 100000, give
    exactly seconds + 60 minutes + 3600 hours + 86400 days; a component is
    not held to its usual range (63 minutes are 3780 seconds) and may be
    negative. *)
Lemma parseDuration_exact ds vals :
  (List.length (strings.Split ds ":") <= 4)%nat ->
  map strconv.Atoi (rev (strings.Split ds ":")) = map inl vals ->
  Forall (fun v => -100000 <= v <= 100000) vals ->
  podcast.parseDuration ds
  = Ok (seconds_of vals [1; 60; 3600; 86400] * time.Second).
Proof.
  intros Hlen Hvals Hall. rewrite parseDuration_unfold.
  rewrite (loop_weighs ds (strings.Split ds ":")
             (List.length (strings.Split ds ":")) 0%nat 0 vals);
    [| lia | assumption | rewrite firstn_all; assumption].
  f_equal. apply weighted_sum_exact; [| assumption].
  apply (f_equal (@List.length _)) in Hvals.
  rewrite !length_map, length_rev in Hvals. lia.
Qed.

Lemma parseDuration_exact_witness :
  podcast.parseDuration "2:63:-5" = Ok ((-5 + 63 * 60 + 2 * 3600) * time.Second).
Proof.
  apply (parseDuration_exact "2:63:-5" [-5; 63; 2]).
  - simpl. lia.
  - reflexivity.
  - repeat constructor; lia.
Defined.

(** ** [Keywords.UnmarshalXML] *)

Fixpoint count_byte (sep : ascii) (s : string) : nat :=
  match s with
  | EmptyString => 0
  | String a rest => (if Ascii.eqb a sep then 1 else 0) + count_byte sep rest
  end.

Definition first_byte (s : string) : option ascii :=
  match s with
  | EmptyString => None
  | String a _ => Some a
  end.

Fixpoint last_byte (s : string) : option ascii :=
  match s with
  | EmptyString => None
  | String a rest =>
      match last_byte rest with
      | Some b => Some b
      | None => Some a
      end
  end.

(** Neither the first nor the last byte is in the cutset. *)
Definition trimmed (cutset : string) (s : string) : Prop :=
  (forall a, first_byte s = Some a -> strings.mem a cutset = false) /\
  (forall a, last_byte s = Some a -> strings.mem a cutset = false).

Lemma Split_length s sep :
  List.length (strings.Split s sep) = S (count_byte sep s).
Proof.
  induction s as [| a s IH]; simpl; [reflexivity |].
  destruct (Ascii.eqb a sep); simpl; [rewrite IH; reflexivity |].
  destruct (strings.Split s sep); simpl in *; [discriminate | exact IH].
Qed.

Lemma TrimLeft_first s cutset a :
  first_byte (strings.TrimLeft s cutset) = Some a -> strings.mem a cutset = false.
Proof.
  induction s as [| b s IH]; simpl; [discriminate |].
  destruct (strings.mem b cutset) eqn:Hb; [exact IH |].
  simpl. intros H; inversion H; subst. exact Hb.
Qed.

Lemma TrimRight_last s cutset a :
  last_byte (strings.TrimRight s cutset) = Some a -> strings.mem a cutset = false.
Proof.
  revert a. induction s as [| b s IH]; intros a; simpl; [discriminate |].
  destruct (strings.TrimRight s cutset) as [| c kept] eqn:Hk.
  - destruct (strings.mem b cutset) eqn:Hb; simpl; [discriminate |].
    intros H; inversion H; subst. exact Hb.
  - intros H. apply IH.
    change (last_byte (String b (String c kept)))
      with (match last_byte (String c kept) with
            | Some x => Some x
            | None => Some b
            end) in H.
    destruct (last_byte (String c kept)) eqn:Hl; [exact H |].
    simpl in Hl. destruct (last_byte kept); discriminate.
Qed.

Lemma TrimRight_first s cutset a :
  first_byte (strings.TrimRight s cutset) = Some a -> first_byte s = Some a.
Proof.
  destruct s as [| b s]; simpl; [discriminate |].
  destruct (strings.TrimRight s cutset);
    [destruct (strings.mem b cutset); simpl; [discriminate | auto] | simpl; auto].
Qed.

Lemma Trim_trimmed s cutset : trimmed cutset (strings.Trim s cutset).
Proof.
  unfold trimmed, strings.Trim. split; intros a Ha.
  - apply TrimRight_first in Ha. eapply TrimLeft_first; eauto.
  - eapply TrimRight_last; eauto.
Qed.

(** The cutset of [strings.Trim(k, " \n\t")]. *)
Definition keyword_cutset : string :=
  String " " (String (ascii_of_nat 10) (String (ascii_of_nat 9) EmptyString)).

(** X3: a decoded element gives one keyword more than it has commas, so an empty
    element gives one empty keyword; no keyword begins or ends with a space,
    a newline or a tab; no error is returned.  A failed decode returns its
    error and leaves the keywords as they were. *)
Lemma Keywords_UnmarshalXML_split kw content :
  let '(kw', err) := podcast.Keywords_UnmarshalXML kw (inl content) in
  err = None /\
  List.length kw' = S (count_byte "," content) /\
  Forall (trimmed keyword_cutset) kw' /\
  (forall e, podcast.Keywords_UnmarshalXML kw (inr e) = (kw, Some e)).
Proof.
  unfold podcast.Keywords_UnmarshalXML. fold keyword_cutset.
  split; [reflexivity |].
  split; [rewrite length_map; apply Split_length |].
  split; [| reflexivity].
  apply List.Forall_forall. intros k Hin.
  apply in_map_iff in Hin. destruct Hin as (k0 & <- & _).
  apply Trim_trimmed.
Qed.

(** A carriage return is not in the cutset: it stays on the keyword. *)
Example Keywords_keep_carriage_return :
  podcast.Keywords_UnmarshalXML []
    (inl (String "a" (String (ascii_of_nat 13) (String "," (String " " "b")))))
  = ([String "a" (String (ascii_of_nat 13) EmptyString); "b"], None).
Proof. reflexivity. Qed.

(** The spec's example. *)
Example Keywords_example :
  podcast.Keywords_UnmarshalXML [] (inl "a, b ,c") = (["a"; "b"; "c"], None) /\
  podcast.Keywords_UnmarshalXML [] (inl "") = ([""], None).
Proof. split; reflexivity. Qed.

(** ** [processItem] and the loops around it *)

Definition empty_world : podget.World :=
  {| podget.trace := []; podget.files := ∅ |}.

Section Items.

Import podget.
Context {lib : GoLib}.
Variable env : Env.
Variable flags : Flags.
Variable g : Globals.

Lemma depodtracify_frame item enc u ext w w0 :
  fst (depodtracify flags g item enc u ext w)
  = fst (depodtracify flags g item enc u ext w0).
Proof.
  unfold depodtracify.
  destruct (podcast.Guid_ item); [| reflexivity].
  destruct (podtracRE g); [| reflexivity].
  destruct (List.length _ <? 1)%nat; [reflexivity |].
  destruct (nth_error _ 1); [| reflexivity].
  destruct (String.eqb _ ""); reflexivity.
Qed.

(** What [processItem] resolves an item to depends neither on what was
    logged before nor on the title of the feed. *)
Lemma processItem_destfile_frame feedtitle feedtitle0 feeddir item w w0 :
  fst (processItem_destfile flags g feedtitle feeddir item w)
  = fst (processItem_destfile flags g feedtitle0 feeddir item w0).
Proof.
  unfold processItem_destfile.
  destruct (podcast.Enclosure_ item) as [enc |]; [| reflexivity].
  destruct (url_Parse (podcast.URL enc)) as [u | err]; [| reflexivity].
  destruct (negb (String.eqb (podtrac flags) "")); [| reflexivity].
  match goal with
  | |- fst (match depodtracify flags g item enc u ?ext ?a with _ => _ end)
       = fst (match depodtracify flags g item enc u ?ext ?b with _ => _ end) =>
      pose proof (depodtracify_frame item enc u ext a b) as Hf;
      destruct (depodtracify flags g item enc u ext a) as [[x | x | x] wa];
      destruct (depodtracify flags g item enc u ext b) as [[y | y | y] wb];
      simpl in Hf; try discriminate Hf; inversion Hf; subst; reflexivity
  end.
Qed.

(** The job an item gives, if any: its enclosure URL and its destination,
    when the destination does not exist or may be overwritten. *)
Definition item_job (feeddir : string) (item : podcast.Item) : option Download :=
  match fst (processItem_destfile flags g "" feeddir item empty_world) with
  | Ok (Some (enc, destfile)) =>
      if os_IsNotExist (stat_error (os_Stat env destfile))
         || allows_overwrite env flags (os_Stat env destfile)
      then Some (job enc destfile) else None
  | _ => None
  end.

Definition item_panics (feeddir : string) (item : podcast.Item) : option panic :=
  match fst (processItem_destfile flags g "" feeddir item empty_world) with
  | Panic p => Some p
  | _ => None
  end.

Lemma processItem_outcome feedtitle feeddir item w :
  fst (processItem env flags g feedtitle feeddir item w)
  = match item_panics feeddir item with
    | Some p => Panic p
    | None => Ok tt
    end.
Proof.
  unfold processItem, item_panics.
  rewrite <- (processItem_destfile_frame feedtitle "" feeddir item w empty_world).
  destruct (processItem_destfile flags g feedtitle feeddir item w)
    as [[[[enc destfile] |] | e | p] w1] eqn:Hd; simpl; try reflexivity.
  exfalso. clear - Hd. unfold processItem_destfile in Hd.
  destruct (podcast.Enclosure_ item); [| discriminate].
  destruct (url_Parse _); [| discriminate].
  destruct (negb _); [| discriminate].
  destruct (depodtracify _ _ _ _ _ _ _) as [[? | ? | ?] ?]; discriminate.
Qed.

(** [processItem] enqueues the job of the item, and nothing else. *)
Lemma processItem_sends feedtitle feeddir item w :
  sends (snd (processItem env flags g feedtitle feeddir item w))
  = (sends w ++ option_list (item_job feeddir item))%list.
Proof.
  unfold item_job.
  rewrite <- (processItem_destfile_frame feedtitle "" feeddir item w empty_world).
  pose proof (processItem_destfile_sends flags g feedtitle feeddir item w) as Hs.
  unfold processItem.
  destruct (processItem_destfile flags g feedtitle feeddir item w)
    as [[[[enc destfile] |] | e | p] w1] eqn:Hd; simpl in *;
    try (rewrite Hs, app_nil_r; reflexivity).
  rewrite processItem_stat_sends, Hs.
  destruct (_ || _); reflexivity.
Qed.

(** X4: at most one job per item, for the URL of its enclosure as the feed has
    it. *)
Lemma processItem_one_job feedtitle feeddir item w :
  exists jobs,
    sends (snd (processItem env flags g feedtitle feeddir item w))
    = (sends w ++ jobs)%list /\
    (List.length jobs <= 1)%nat /\
    (forall dl, In dl jobs ->
                exists enc, podcast.Enclosure_ item = Some enc /\
                            URL dl = podcast.URL enc).
Proof.
  exists (option_list (item_job feeddir item)).
  split; [apply processItem_sends |].
  unfold item_job.
  destruct (fst (processItem_destfile flags g "" feeddir item empty_world))
    as [[[enc destfile] |] | e | p] eqn:Hd; simpl;
    try (split; [lia | intros dl []]).
  assert (Henc : podcast.Enclosure_ item = Some enc).
  { clear - Hd. unfold processItem_destfile in Hd.
    destruct (podcast.Enclosure_ item) as [enc' |]; [| discriminate].
    destruct (url_Parse _); [| discriminate].
    destruct (negb _).
    - destruct (depodtracify _ _ _ _ _ _ _) as [[? | ? | ?] ?]; simpl in Hd;
        try discriminate. inversion Hd; reflexivity.
    - simpl in Hd. inversion Hd; reflexivity. }
  destruct (_ || _); simpl; (split; [lia |]); intros dl Hin;
    [destruct Hin as [<- | []]; exists enc; split; [exact Henc | reflexivity]
    | destruct Hin].
Qed.

Lemma omap_cons_option {A B} (f : A -> option B) x l :
  omap f (x :: l) = (option_list (f x) ++ omap f l)%list.
Proof. simpl. destruct (f x); reflexivity. Qed.

End Items.

Section ItemEdges.

Import podget.
Context {lib : GoLib}.
Variable env : Env.
Variable flags : Flags.
Variable g : Globals.

Lemma calls_emit fn e w :
  calls fn (emit e w)
  = (calls fn w ++ match e with
                   | Call f arg => if String.eqb f fn then [arg] else []
                   | _ => []
                   end)%list.
Proof.
  unfold calls, emit; simpl. rewrite omap_app. f_equal.
  destruct e; try reflexivity. simpl. destruct (String.eqb fn0 fn); reflexivity.
Qed.

Lemma calls_logInfo fn msg vals w : calls fn (logInfo flags msg vals w) = calls fn w.
Proof.
  unfold logInfo. destruct (verbose flags); [| reflexivity].
  rewrite calls_emit. apply app_nil_r.
Qed.

Lemma calls_logError fn msg vals w : calls fn (logError msg vals w) = calls fn w.
Proof. unfold logError. rewrite calls_emit. apply app_nil_r. Qed.

(** X6: an enclosure URL that [url.Parse] rejects costs the item only: the error
    is logged, nothing is enqueued, the file system is not asked, and
    [processItem] returns normally. *)
Lemma processItem_bad_url feedtitle feeddir item w enc err :
  podcast.Enclosure_ item = Some enc ->
  url_Parse (podcast.URL enc) = inr err ->
  let w' := snd (processItem env flags g feedtitle feeddir item w) in
  fst (processItem env flags g feedtitle feeddir item w) = Ok tt /\
  sends w' = sends w /\
  calls "os.Stat" w' = calls "os.Stat" w /\
  errors w'
  = (errors w ++ [(("can't parse URL %s for %s: %v" ++ newline)%string,
                   [VString (podcast.URL enc); VString feedtitle; VError err])])%list.
Proof.
  intros Henc Hurl. unfold processItem, processItem_destfile.
  rewrite Henc, Hurl. cbn [fst snd].
  split; [reflexivity |].
  rewrite sends_logError, sends_logInfo, calls_logError, calls_logInfo,
    errors_logError, errors_logInfo.
  repeat split; reflexivity.
Qed.

(** X7: without an extraction rule the file is named after the last element of
    the URL's path, and only a missing enclosure makes [processItem] panic:
    an item without a guid is resolved like any other. *)
Lemma processItem_default_name feedtitle feeddir item w enc :
  podtrac flags = "" ->
  podcast.Enclosure_ item = Some enc ->
  fst (processItem env flags g feedtitle feeddir item w) = Ok tt /\
  (forall u,
      url_Parse (podcast.URL enc) = inl u ->
      fst (processItem_destfile flags g feedtitle feeddir item w)
      = Ok (Some (enc, filepath_Join [destdir flags; feeddir;
                                      filepath_Base (Path u)]))).
Proof.
  intros Hpod Henc. unfold processItem, processItem_destfile.
  rewrite Henc, Hpod. cbn [String.eqb negb].
  destruct (url_Parse (podcast.URL enc)) as [u | err]; cbn [fst snd].
  - split; [reflexivity |]. intros u' Hu'. inversion Hu'; subst. reflexivity.
  - split; [reflexivity |]. intros u' Hu'. discriminate.
Qed.

End ItemEdges.

Lemma processItem_bad_url_witness :
  podget.sends
    (snd (podget.processItem (lib := scenario.lib) scenario.fresh
            (scenario.flags 0 "") podget.initial_globals "My Feed" "My_Feed"
            scenario.broken_url scenario.start)) = [].
Proof.
  apply (processItem_bad_url (lib := scenario.lib) scenario.fresh
           (scenario.flags 0 "") podget.initial_globals "My Feed" "My_Feed"
           scenario.broken_url scenario.start scenario.broken_enclosure
           (ErrLib "net/url" "invalid control character in URL"));
    reflexivity.
Defined.

Lemma processItem_default_name_witness :
  fst (podget.processItem (lib := scenario.lib) scenario.fresh
         (scenario.flags 0 "") podget.initial_globals "My Feed" "My_Feed"
         (scenario.without_guid (scenario.episode "episode-42: hello"))
         scenario.start) = Ok tt.
Proof.
  apply (processItem_default_name (lib := scenario.lib) scenario.fresh
           (scenario.flags 0 "") podget.initial_globals "My Feed" "My_Feed"
           (scenario.without_guid (scenario.episode "episode-42: hello"))
           scenario.start scenario.enclosure); reflexivity.
Defined.

(** ** Channels, feeds and the feed task *)

(** The directory of a feed: its title without the bytes outside ASCII, the
    spaces turned into underscores. *)
Definition feed_directory (title : string) : string :=
  strings.ReplaceByte (podget.asciiOnly_strip title) " " "_".

Fixpoint bytes_all (P : ascii -> bool) (s : string) : bool :=
  match s with
  | EmptyString => true
  | String a rest => P a && bytes_all P rest
  end.

Definition plain (a : ascii) : bool :=
  (N_of_ascii a <? 128)%N && negb (Ascii.eqb a " ").

Lemma ReplaceByte_plain s :
  bytes_all (fun a => (N_of_ascii a <? 128)%N) s = true ->
  bytes_all plain (strings.ReplaceByte s " " "_") = true.
Proof.
  induction s as [| a s IH]; simpl; [reflexivity |].
  intros H. apply andb_true_iff in H. destruct H as [Ha Hs].
  rewrite (IH Hs), andb_true_r. unfold plain.
  destruct (Ascii.eqb a " ") eqn:Hsp; [reflexivity |].
  rewrite Ha, Hsp. reflexivity.
Qed.

Lemma strip_ascii s :
  bytes_all (fun a => (N_of_ascii a <? 128)%N) (podget.asciiOnly_strip s) = true.
Proof.
  unfold podget.asciiOnly_strip.
  induction s as [| a s IH]; simpl; [reflexivity |].
  unfold filter. simpl.
  destruct (decide ((N_of_ascii a <? 128)%N = true)) as [Ha | Ha]; simpl.
  - rewrite Ha. exact IH.
  - exact IH.
Qed.

Lemma ReplaceByte_id s :
  bytes_all plain s = true -> strings.ReplaceByte s " " "_" = s.
Proof.
  induction s as [| a s IH]; simpl; [reflexivity |].
  intros H. apply andb_true_iff in H. destruct H as [Ha Hs].
  unfold plain in Ha. apply andb_true_iff in Ha. destruct Ha as [_ Hsp].
  apply negb_true_iff in Hsp. rewrite Hsp, (IH Hs). reflexivity.
Qed.

Lemma strip_id s :
  bytes_all (fun a => (N_of_ascii a <? 128)%N) s = true ->
  podget.asciiOnly_strip s = s.
Proof.
  unfold podget.asciiOnly_strip.
  induction s as [| a s IH]; simpl; [reflexivity |].
  intros H. apply andb_true_iff in H. destruct H as [Ha Hs].
  unfold filter. simpl.
  destruct (decide ((N_of_ascii a <? 128)%N = true)) as [_ | Hn];
    [| contradiction].
  simpl. f_equal. apply IH. exact Hs.
Qed.

Lemma plain_is_ascii s :
  bytes_all plain s = true ->
  bytes_all (fun a => (N_of_ascii a <? 128)%N) s = true.
Proof.
  induction s as [| a s IH]; simpl; [reflexivity |].
  intros H. apply andb_true_iff in H. destruct H as [Ha Hs].
  unfold plain in Ha. apply andb_true_iff in Ha. destruct Ha as [Ha _].
  rewrite Ha, (IH Hs). reflexivity.
Qed.

(** X8: the directory of a feed holds only ASCII bytes and no space, whatever
    the title; a title that is already so is its own directory. *)
Lemma feed_directory_plain title :
  bytes_all plain (feed_directory title) = true /\
  (bytes_all plain title = true -> feed_directory title = title).
Proof.
  unfold feed_directory. split.
  - apply ReplaceByte_plain, strip_ascii.
  - intros H. rewrite strip_id by (apply plain_is_ascii; exact H).
    apply ReplaceByte_id. exact H.
Qed.

Lemma feed_directory_plain_witness :
  feed_directory "This American Life" = "This_American_Life" /\
  feed_directory "My_Feed" = "My_Feed".
Proof.
  split; [reflexivity |].
  apply (proj2 (feed_directory_plain "My_Feed")). reflexivity.
Defined.

(** What the feed task does before it closes the queue: it prints, calls the
    system and sends; it neither closes nor sleeps. *)
Definition feeding (e : podget.Event) : Prop :=
  match e with
  | podget.Close | podget.Sleep _ => False
  | _ => True
  end.

Definition grows (w w' : podget.World) : Prop :=
  exists tr, podget.trace w' = (podget.trace w ++ tr)%list /\ Forall feeding tr.

Lemma grows_refl w : grows w w.
Proof. exists []. split; [symmetry; apply app_nil_r | constructor]. Qed.

Lemma grows_trans w1 w2 w3 : grows w1 w2 -> grows w2 w3 -> grows w1 w3.
Proof.
  intros (t1 & H1 & F1) (t2 & H2 & F2). exists (t1 ++ t2)%list.
  split; [rewrite H2, H1, app_assoc; reflexivity | apply Forall_app; auto].
Qed.

Lemma grows_emit e w : feeding e -> grows w (podget.emit e w).
Proof. intros He. exists [e]. split; [reflexivity | repeat constructor; exact He]. Qed.

Section FeedEvents.

Import podget.
Context {lib : GoLib}.
Variable env : Env.
Variable flags : Flags.
Variable g : Globals.

Lemma grows_logInfo msg vals w : grows w (logInfo flags msg vals w).
Proof.
  unfold logInfo. destruct (verbose flags); [apply grows_emit; exact I | apply grows_refl].
Qed.

Lemma grows_logDebug msg vals w : grows w (logDebug flags msg vals w).
Proof.
  unfold logDebug. destruct (debug flags); [apply grows_emit; exact I | apply grows_refl].
Qed.

Lemma grows_logError msg vals w : grows w (logError msg vals w).
Proof. apply grows_emit. exact I. Qed.

Ltac grow :=
  repeat first
    [ apply grows_refl
    | eapply grows_trans; [| apply grows_logError]
    | eapply grows_trans; [| apply grows_logInfo]
    | eapply grows_trans; [| apply grows_logDebug]
    | eapply grows_trans; [| apply grows_emit; exact I] ].

Lemma grows_depodtracify item enc u ext w :
  grows w (snd (depodtracify flags g item enc u ext w)).
Proof.
  unfold depodtracify.
  destruct (podcast.Guid_ item); [| apply grows_refl].
  destruct (podtracRE g); [| apply grows_refl].
  destruct (List.length _ <? 1)%nat; [destruct (debug flags); cbn [snd]; grow |].
  destruct (nth_error _ 1); [| apply grows_refl].
  destruct (String.eqb _ ""); [destruct (debug flags); cbn [snd]; grow | apply grows_refl].
Qed.

Lemma grows_processItem feedtitle feeddir item w :
  grows w (snd (processItem env flags g feedtitle feeddir item w)).
Proof.
  unfold processItem, processItem_destfile.
  destruct (podcast.Enclosure_ item) as [enc |]; cbn [fst snd]; [| grow].
  destruct (url_Parse (podcast.URL enc)) as [u | err]; cbn [fst snd]; [| grow].
  assert (Hstat : forall destfile w0,
    grows w w0 -> grows w (processItem_stat env flags enc destfile w0)).
  { intros destfile w0 Hw. unfold processItem_stat.
    destruct (os_Stat env destfile) as [stats | e].
    - destruct (0 <? maxdays flags); [destruct (_ <? _) |]; cbn [orb];
        eapply grows_trans; try exact Hw; grow.
    - destruct (os_IsNotExist (Some e)); cbn [orb];
        eapply grows_trans; try exact Hw; grow. }
  destruct (negb (String.eqb (podtrac flags) "")).
  - match goal with
    | |- context [depodtracify flags g item enc u ?ext ?w0] =>
        pose proof (grows_depodtracify item enc u ext w0) as Hd;
        assert (Hw0 : grows w w0) by grow;
        destruct (depodtracify flags g item enc u ext w0) as [[x | x | x] wd];
        cbn [fst snd] in Hd |- *
    end.
    + apply Hstat. eapply grows_trans; eauto.
    + eapply grows_trans; [eapply grows_trans; eauto |]. grow.
    + eapply grows_trans; eauto.
  - cbn [fst snd]. apply Hstat. grow.
Qed.

Lemma grows_now w w' : grows w w' -> (now w <= now w')%nat.
Proof.
  intros (tr & Htr & _). unfold now. rewrite Htr, length_app. lia.
Qed.

Lemma now_logError msg vals w : now (logError msg vals w) = S (now w).
Proof. apply now_emit. Qed.

(** An item that does not panic leaves an event: the call of [os.Stat], or
    the line of its error. *)
Lemma processItem_advances feedtitle feeddir item w :
  fst (processItem env flags g feedtitle feeddir item w) = Ok tt ->
  (now w < now (snd (processItem env flags g feedtitle feeddir item w)))%nat.
Proof.
  unfold processItem, processItem_destfile.
  set (w0 := logInfo flags "  %v %s %v" _ w).
  assert (Hw0 : (now w <= now w0)%nat) by apply grows_now, grows_logInfo.
  clearbody w0.
  destruct (podcast.Enclosure_ item) as [enc |]; cbn [fst snd]; [| discriminate].
  destruct (url_Parse (podcast.URL enc)) as [u | err]; cbn [fst snd];
    [| intros _; rewrite now_logError; lia].
  assert (Hstat : forall destfile w1,
    (now w <= now w1)%nat ->
    (now w < now (processItem_stat env flags enc destfile w1))%nat).
  { intros destfile w1 Hw1.
    assert (Hg : grows (emit (Call "os.Stat" destfile) w1)
                   (processItem_stat env flags enc destfile w1)).
    { unfold processItem_stat.
      destruct (os_Stat env destfile) as [stats | e].
      - destruct (0 <? maxdays flags); [destruct (_ <? _) |]; cbn [orb]; grow.
      - destruct (os_IsNotExist (Some e)); cbn [orb]; grow. }
    apply grows_now in Hg. rewrite now_emit in Hg. lia. }
  destruct (negb (String.eqb (podtrac flags) "")).
  - match goal with
    | |- context [depodtracify flags g item enc u ?ext w0] =>
        pose proof (grows_now _ _ (grows_depodtracify item enc u ext w0)) as Hd;
        destruct (depodtracify flags g item enc u ext w0) as [[x | x | x] wd];
        cbn [fst snd] in Hd |- *
    end.
    + intros _. apply Hstat. lia.
    + intros _. rewrite now_logError. lia.
    + discriminate.
  - cbn [fst snd]. intros _. apply Hstat. exact Hw0.
Qed.

End FeedEvents.

Section Feeds.

Import podget.
Context {lib : GoLib}.
Variable sys : Timeline.
Variable flags : Flags.
Variable g : Globals.

(** The items the loop resolves: those before the first that panics; and
    that panic. *)
Fixpoint resolved (feeddir : string) (items : list podcast.Item)
  : list podcast.Item :=
  match items with
  | [] => []
  | item :: rest =>
      match item_panics flags g feeddir item with
      | Some _ => []
      | None => item :: resolved feeddir rest
      end
  end.

Fixpoint items_panic (feeddir : string) (items : list podcast.Item)
  : option panic :=
  match items with
  | [] => None
  | item :: rest =>
      match item_panics flags g feeddir item with
      | Some p => Some p
      | None => items_panic feeddir rest
      end
  end.

(** The jobs of the items, each decided by the file system of its moment:
    the job of the item if the file is not there or may be overwritten, or
    nothing. *)
Definition jobs_at (feeddir : string) (moments : list nat)
    (items : list podcast.Item) : list Download :=
  concat (zip_with (fun m item => option_list (item_job (sys m) flags g feeddir item))
            moments items).

Lemma processItems_run feedtitle feeddir items : forall w,
  let run := processItems sys flags g feedtitle feeddir items w in
  fst run = match items_panic feeddir items with
            | Some p => Panic p
            | None => Ok tt
            end /\
  exists moments,
    List.length moments = List.length (resolved feeddir items) /\
    ascending (now w) moments /\
    sends (snd run)
    = (sends w ++ jobs_at feeddir moments (resolved feeddir items))%list.
Proof.
  induction items as [| item rest IH]; intros w; cbv zeta.
  - split; [reflexivity |]. exists [].
    split; [reflexivity |]. split; [exact I | symmetry; apply app_nil_r].
  - cbn [processItems items_panic resolved]. cbv zeta.
    set (w0 := logDebug flags "processing item" [] w).
    assert (Hw0 : sends w0 = sends w) by apply sends_logDebug.
    assert (Hn0 : (now w <= now w0)%nat) by apply grows_now, grows_logDebug.
    pose proof (processItem_outcome (sys (now w0)) flags g feedtitle feeddir
                  item w0) as Hout.
    pose proof (processItem_sends (sys (now w0)) flags g feedtitle feeddir
                  item w0) as Hs.
    pose proof (processItem_advances (sys (now w0)) flags g feedtitle feeddir
                  item w0) as Hadv.
    rewrite Hw0 in Hs. clearbody w0.
    destruct (processItem (sys (now w0)) flags g feedtitle feeddir item w0)
      as [[[] | e | p] w1];
      cbn [fst snd] in Hout, Hs, Hadv;
      destruct (item_panics flags g feeddir item) eqn:Hp; try discriminate.
    + destruct (IH w1) as [Hfst (moments & Hlen & Hasc & Hsnd)]. cbv zeta in *.
      split; [exact Hfst |].
      exists (now w0 :: moments).
      split; [simpl; rewrite Hlen; reflexivity |].
      split.
      { split; [exact Hn0 |]. eapply ascending_from; [| exact Hasc].
        specialize (Hadv eq_refl). lia. }
      rewrite Hsnd, Hs. unfold jobs_at. cbn [zip_with concat].
      rewrite <- app_assoc. reflexivity.
    + cbn [fst snd]. split; [exact Hout |].
      exists []. split; [reflexivity |]. split; [exact I |].
      rewrite Hs. unfold item_job, item_panics in *.
      destruct (fst (processItem_destfile flags g "" feeddir item empty_world))
        as [[[? ?] |] | ? | ?]; try discriminate; reflexivity.
Qed.

(** X5: the items of a channel are resolved in document order, each at a
    moment of its own against the file system of that moment; the first item
    that panics ends the loop with its panic, and the items after it are
    never looked at. *)
Lemma processItems_sends feedtitle feeddir items w :
  let run := processItems sys flags g feedtitle feeddir items w in
  fst run = match items_panic feeddir items with
            | Some p => Panic p
            | None => Ok tt
            end /\
  exists moments,
    List.length moments = List.length (resolved feeddir items) /\
    ascending (now w) moments /\
    sends (snd run)
    = (sends w ++ jobs_at feeddir moments (resolved feeddir items))%list.
Proof. apply processItems_run. Qed.

Lemma processChannel_run rss w :
  let run := processChannel sys flags g rss w in
  match xml_Unmarshal rss with
  | Err err => fst run = Err (ErrParseXML err) /\ sends (snd run) = sends w
  | Panic p => fst run = Panic p /\ sends (snd run) = sends w
  | Ok feed =>
      match podcast.Channel_ feed with
      | None => fst run = Panic NilDereference /\ sends (snd run) = sends w
      | Some channel =>
          let dir := feed_directory (podcast.Channel_Title channel) in
          fst run = match items_panic dir (podcast.Item_ channel) with
                    | Some p => Panic p
                    | None => Ok tt
                    end /\
          exists moments,
            List.length moments
            = List.length (resolved dir (podcast.Item_ channel)) /\
            ascending (now w) moments /\
            sends (snd run)
            = (sends w
               ++ jobs_at dir moments (resolved dir (podcast.Item_ channel)))%list
      end
  end.
Proof.
  cbv zeta. unfold processChannel, feed_directory.
  destruct (xml_Unmarshal rss) as [feed | err | p]; cbn [fst snd];
    try (split; [reflexivity | apply sends_logDebug]).
  destruct (podcast.Channel_ feed) as [channel |]; cbn [fst snd];
    [| split; [reflexivity | apply sends_logDebug]].
  match goal with
  | |- context [processItems sys flags g ?t ?d ?items ?w0] =>
      assert (Hn0 : (now w <= now w0)%nat)
        by (apply grows_now; eapply grows_trans;
            [apply grows_logDebug | apply grows_logInfo]);
      destruct (processItems_run t d items w0)
        as [Hfst (moments & Hlen & Hasc & Hsnd)];
      cbv zeta in Hfst, Hsnd;
      rewrite sends_logInfo, sends_logDebug in Hsnd;
      apply (ascending_from _ _ _ Hn0) in Hasc;
      destruct (processItems sys flags g t d items w0) as [[[] | e | p] w1];
      cbn [fst snd] in Hfst, Hsnd |- *
  end;
    (split; [exact Hfst |]); exists moments; (split; [exact Hlen |]);
    (split; [exact Hasc |]); rewrite ?sends_logDebug; exact Hsnd.
Qed.

(** X9: [processChannel] on a document: an error of the decoder is returned
    as "error parsing XML", a panic of the decoder (a duration of five
    components in the document) is the panic of [processChannel], a document
    without a channel is a nil dereference, and none of them enqueues
    anything; otherwise the items are resolved in order, into the directory
    of the feed, up to the first item that panics. *)
Lemma processChannel_outcomes rss w :
  let run := processChannel sys flags g rss w in
  match xml_Unmarshal rss with
  | Err err => fst run = Err (ErrParseXML err) /\ sends (snd run) = sends w
  | Panic p => fst run = Panic p /\ sends (snd run) = sends w
  | Ok feed =>
      match podcast.Channel_ feed with
      | None => fst run = Panic NilDereference /\ sends (snd run) = sends w
      | Some channel =>
          let dir := feed_directory (podcast.Channel_Title channel) in
          fst run = match items_panic dir (podcast.Item_ channel) with
                    | Some p => Panic p
                    | None => Ok tt
                    end /\
          exists moments,
            List.length moments
            = List.length (resolved dir (podcast.Item_ channel)) /\
            ascending (now w) moments /\
            sends (snd run)
            = (sends w
               ++ jobs_at dir moments (resolved dir (podcast.Item_ channel)))%list
      end
  end.
Proof. apply processChannel_run. Qed.

(** The document a feed URL gives, when the fetch and the read succeed. *)
Definition feed_document (env : Env) (feedurl : string) : option string :=
  match http_Get env feedurl with
  | inl resp =>
      match ioutil_ReadAll env resp with
      | inl xmlb => Some xmlb
      | inr _ => None
      end
  | inr _ => None
  end.

(** Whatever the feed, [processFeed] only adds to what was sent. *)
Lemma processFeed_sends feedurl w :
  exists group,
    sends (snd (processFeed sys flags g feedurl w)) = (sends w ++ group)%list.
Proof.
  unfold processFeed. cbv zeta.
  destruct (http_Get (sys (now w)) feedurl) as [resp | err]; cbn [fst snd];
    [| exists []; rewrite sends_logError, sends_emit, !app_nil_r; reflexivity].
  destruct (ioutil_ReadAll (sys (now w)) resp) as [xmlb | err]; cbn [fst snd];
    [| exists []; rewrite sends_logError, sends_emit, !app_nil_r; reflexivity].
  pose proof (processChannel_run xmlb (emit (Call "http.Get" feedurl) w))
    as Hc. cbv zeta in Hc.
  rewrite sends_emit, app_nil_r in Hc.
  assert (Hsnd : exists group,
    sends (snd (processChannel sys flags g xmlb (emit (Call "http.Get" feedurl) w)))
    = (sends w ++ group)%list).
  { destruct (xml_Unmarshal xmlb) as [feed | err | p];
      [destruct (podcast.Channel_ feed) |..].
    - destruct Hc as [_ (moments & _ & _ & Hs)]. eexists. exact Hs.
    - exists []. rewrite app_nil_r. apply Hc.
    - exists []. rewrite app_nil_r. apply Hc.
    - exists []. rewrite app_nil_r. apply Hc. }
  destruct Hsnd as (group & Hsnd). exists group.
  destruct (processChannel sys flags g xmlb (emit (Call "http.Get" feedurl) w))
    as [[[] | e | p] w1]; cbn [fst snd] in Hsnd |- *;
    rewrite ?sends_logError; exact Hsnd.
Qed.

(** X10: a feed that cannot be fetched, read or parsed is given up with one line
    on the error stream; [processFeed] still returns normally and has
    enqueued nothing. *)
Lemma processFeed_gives_up feedurl w :
  feed_document (sys (now w)) feedurl = None
  \/ (exists xmlb err, feed_document (sys (now w)) feedurl = Some xmlb
                       /\ xml_Unmarshal xmlb = Err err) ->
  fst (processFeed sys flags g feedurl w) = None /\
  sends (snd (processFeed sys flags g feedurl w)) = sends w /\
  exists line,
    errors (snd (processFeed sys flags g feedurl w)) = (errors w ++ [line])%list.
Proof.
  intros Hbad.
  unfold processFeed, feed_document in *. cbv zeta.
  destruct (http_Get (sys (now w)) feedurl) as [resp | err]; cbn [fst snd].
  2: { split; [reflexivity |].
       rewrite sends_logError, sends_emit, app_nil_r. split; [reflexivity |].
       eexists. rewrite errors_logError, errors_emit, app_nil_r. reflexivity. }
  destruct (ioutil_ReadAll (sys (now w)) resp) as [xmlb | err]; cbn [fst snd].
  2: { split; [reflexivity |].
       rewrite sends_logError, sends_emit, app_nil_r. split; [reflexivity |].
       eexists. rewrite errors_logError, errors_emit, app_nil_r. reflexivity. }
  destruct Hbad as [Hn | (xmlb' & err & Hd & Hx)]; [discriminate |].
  inversion Hd; subst xmlb'.
  unfold processChannel. rewrite Hx. cbn [fst snd].
  split; [reflexivity |].
  rewrite sends_logError, sends_logDebug, sends_emit, app_nil_r.
  split; [reflexivity |].
  eexists. rewrite errors_logError, errors_logDebug, errors_emit, app_nil_r.
  reflexivity.
Qed.

End Feeds.

Section FeedTask.

Import podget.
Context {lib : GoLib}.
Variable sys : Timeline.
Variable flags : Flags.
Variable g : Globals.

Ltac grow :=
  repeat first
    [ apply grows_refl
    | eapply grows_trans; [| apply grows_logError]
    | eapply grows_trans; [| apply (grows_logInfo flags)]
    | eapply grows_trans; [| apply (grows_logDebug flags)]
    | eapply grows_trans; [| apply grows_emit; exact I] ].

Lemma grows_processItems feedtitle feeddir items : forall w,
  grows w (snd (processItems sys flags g feedtitle feeddir items w)).
Proof.
  induction items as [| item rest IH]; intros w; [apply grows_refl |].
  cbn [processItems]. cbv zeta.
  set (w0 := logDebug flags "processing item" [] w).
  assert (Hw0 : grows w w0) by apply grows_logDebug.
  pose proof (grows_processItem (sys (now w0)) flags g feedtitle feeddir item w0)
    as Hi.
  destruct (processItem (sys (now w0)) flags g feedtitle feeddir item w0)
    as [[[] | e | p] w1];
    cbn [snd] in Hi |- *;
    (eapply grows_trans; [exact Hw0 |]);
    (eapply grows_trans; [exact Hi |]); [apply IH | apply grows_refl ..].
Qed.

Lemma grows_processFeed feedurl w :
  grows w (snd (processFeed sys flags g feedurl w)).
Proof.
  unfold processFeed. cbv zeta.
  destruct (http_Get (sys (now w)) feedurl) as [resp | err]; cbn [snd]; [| grow].
  destruct (ioutil_ReadAll (sys (now w)) resp) as [xmlb | err]; cbn [snd]; [| grow].
  assert (Hc : forall w0, grows w0 (snd (processChannel sys flags g xmlb w0))).
  { intros w0. unfold processChannel.
    destruct (xml_Unmarshal xmlb) as [feed | err | p]; cbn [snd]; [| grow ..].
    destruct (podcast.Channel_ feed) as [channel |]; cbn [snd]; [| grow].
    match goal with
    | |- context [processItems sys flags g ?t ?d ?items ?w1] =>
        pose proof (grows_processItems t d items w1) as Hi;
        assert (Hw1 : grows w0 w1) by grow;
        destruct (processItems sys flags g t d items w1) as [[[] | e | p] w2];
        cbn [snd] in Hi |- *
    end.
    - eapply grows_trans; [eapply grows_trans; eauto |]. grow.
    - eapply grows_trans; eauto.
    - eapply grows_trans; eauto. }
  specialize (Hc (emit (Call "http.Get" feedurl) w)).
  destruct (processChannel sys flags g xmlb (emit (Call "http.Get" feedurl) w))
    as [[[] | e | p] w1]; cbn [snd] in Hc |- *;
    (eapply grows_trans; [apply (grows_emit (Call "http.Get" feedurl)); exact I |]);
    (eapply grows_trans; [exact Hc |]); grow.
Qed.

(** The jobs [processFeed] sends for a feed at some moment of the task, and
    how it ends there. *)
Definition feed_sends (feedurl : string) (ended : option panic)
    (group : list Download) : Prop :=
  exists w0,
    fst (processFeed sys flags g feedurl w0) = ended /\
    sends (snd (processFeed sys flags g feedurl w0)) = (sends w0 ++ group)%list.

(** X11: the feed task takes the feeds in the order of the command line, and
    what it sends is, feed after feed, what [processFeed] sends for each; it
    closes the queue once, as its last act, after every send; a feed that
    panics ends the task with the queue still open. *)
Lemma feed_task_closes_last feedurls : forall w,
  let run := feed_task sys flags g feedurls w in
  match fst run with
  | None =>
      exists groups,
        Forall2 (fun feedurl group => feed_sends feedurl None group)
          feedurls groups /\
        sends (snd run) = (sends w ++ concat groups)%list /\
        exists tr,
          trace (snd run) = (trace w ++ tr ++ [Close])%list /\ Forall feeding tr
  | Some p =>
      exists before feedurl after groups group,
        feedurls = (before ++ feedurl :: after)%list /\
        Forall2 (fun feedurl group => feed_sends feedurl None group)
          before groups /\
        feed_sends feedurl (Some p) group /\
        sends (snd run) = (sends w ++ concat groups ++ group)%list /\
        grows w (snd run)
  end.
Proof.
  induction feedurls as [| feedurl rest IH]; intros w; cbn [feed_task]; cbv zeta.
  - cbn [fst snd]. exists []. split; [constructor |]. split.
    + rewrite sends_emit. reflexivity.
    + exists []. split; [reflexivity | constructor].
  - set (w0 := logInfo flags "fetching %s" [VString feedurl] w).
    assert (Hs0 : sends w0 = sends w) by apply sends_logInfo.
    assert (Hg0 : grows w w0) by apply grows_logInfo.
    destruct (processFeed_sends sys flags g feedurl w0) as (group & Hsnd).
    pose proof (grows_processFeed feedurl w0) as Hg.
    assert (Hfeed : feed_sends feedurl
                      (fst (processFeed sys flags g feedurl w0)) group)
      by (exists w0; split; [reflexivity | exact Hsnd]).
    rewrite Hs0 in Hsnd. clearbody w0.
    destruct (processFeed sys flags g feedurl w0) as [[p |] w1];
      cbn [fst snd] in Hfeed, Hsnd, Hg |- *.
    + exists [], feedurl, rest, [], group.
      split; [reflexivity |]. split; [constructor |]. split; [exact Hfeed |].
      split; [exact Hsnd | eapply grows_trans; eauto].
    + specialize (IH w1). cbv zeta in IH.
      destruct (fst (feed_task sys flags g rest w1)) as [p |].
      * destruct IH as (before & u & after & groups & last & Hurls & Hall & Hlast
                        & Hs & Hgr).
        exists (feedurl :: before), u, after, (group :: groups), last.
        split; [rewrite Hurls; reflexivity |].
        split; [constructor; assumption |]. split; [exact Hlast |].
        split; [rewrite Hs, Hsnd; cbn [concat]; rewrite <- !app_assoc; reflexivity |].
        eapply grows_trans; [eapply grows_trans; eauto | exact Hgr].
      * destruct IH as (groups & Hall & Hs & tr & Htr & Hf).
        exists (group :: groups).
        split; [constructor; assumption |].
        split; [rewrite Hs, Hsnd; cbn [concat]; rewrite <- app_assoc; reflexivity |].
        destruct (grows_trans _ _ _ Hg0 Hg) as (t1 & Ht1 & Hf1).
        exists (t1 ++ tr)%list.
        split; [rewrite Htr, Ht1, <- !app_assoc; reflexivity | apply Forall_app; auto].
Qed.

End FeedTask.

(** ** [podtracCompile] *)

Lemma SplitN2_whole s :
  strings.mem " " s = false -> strings.SplitN2 s " " = [s].
Proof.
  induction s as [| a s IH]; intros Hmem; [reflexivity |].
  change (strings.mem " " (String a s))
    with (Ascii.eqb " " a || strings.mem " " s)%bool in Hmem.
  apply orb_false_iff in Hmem. destruct Hmem as [Ha Hrest].
  change (strings.SplitN2 (String a s) " ")
    with (if Ascii.eqb a " " then [EmptyString; s]
          else match strings.SplitN2 s " " with
               | [piece] => [String a piece]
               | piece :: pieces => String a piece :: pieces
               | [] => [String a EmptyString]
               end).
  rewrite Ascii.eqb_sym, Ha, (IH Hrest). reflexivity.
Qed.

(** X12: an instruction that has no space (a field without a pattern) is not
    reported as a configuration error: [chunks[1]] is out of range and the
    process panics at startup. *)
Lemma podtracCompile_without_pattern {lib : GoLib} (flags : podget.Flags)
    (w : podget.World) :
  podget.podtrac flags <> "" ->
  strings.mem " " (podget.podtrac flags) = false ->
  fst (podget.main_startup flags w) = podget.Crash (IndexOutOfRange 1 1).
Proof.
  intros Hne Hmem. unfold podget.main_startup, podget.podtracCompile.
  destruct (String.eqb_spec (podget.podtrac flags) ""); [contradiction |].
  rewrite SplitN2_whole by assumption. reflexivity.
Qed.

Lemma podtracCompile_without_pattern_witness :
  fst (podget.main_startup (lib := scenario.lib) (scenario.flags 0 "item.title")
         scenario.start)
  = podget.Crash (IndexOutOfRange 1 1).
Proof.
  apply (podtracCompile_without_pattern (lib := scenario.lib)
           (scenario.flags 0 "item.title") scenario.start);
    [discriminate | reflexivity].
Defined.

(** X13: the pattern handed to [regexp.Compile] is the rest of the instruction
    after its first space, without the spaces and slashes at its two ends,
    so it never begins or ends with a space or a slash; the error of
    [podtracCompile] is the error of that compilation, and the field is the
    token before the first space. *)
Lemma podtracCompile_trims {lib : GoLib} (flags : podget.Flags)
    (g : podget.Globals) (w : podget.World) (field pattern : string) :
  strings.mem " " field = false ->
  podget.podtrac flags = field ++ " " ++ pattern ->
  let sregex := strings.Trim pattern " /" in
  trimmed " /" sregex /\
  fst (fst (podget.podtracCompile flags g w))
  = match regexp_Compile sregex with
    | inl _ => Ok tt
    | inr err => Err err
    end /\
  podget.podtracField (snd (fst (podget.podtracCompile flags g w)))
  = strings_TrimSpace field /\
  podget.podtracRE (snd (fst (podget.podtracCompile flags g w)))
  = match regexp_Compile sregex with
    | inl re => Some re
    | inr _ => None
    end.
Proof.
  intros Hfield Hflag sregex. split; [apply Trim_trimmed |].
  unfold podget.podtracCompile. rewrite Hflag.
  assert (Hne : String.eqb (field ++ " " ++ pattern) "" = false)
    by (destruct field; reflexivity).
  rewrite Hne. change (" " ++ pattern)%string with (String " " pattern).
  rewrite SplitN2_cut by assumption. cbn [nth_error]. cbv zeta. fold sregex.
  destruct (regexp_Compile sregex); cbn [fst snd podget.podtracField podget.podtracRE];
    repeat split; reflexivity.
Qed.

Lemma podtracCompile_trims_witness :
  podget.podtracRE
    (snd (fst (podget.podtracCompile (lib := scenario.lib)
                 (scenario.flags 0 "item.title /episode-(\d+)/ ")
                 podget.initial_globals scenario.start)))
  = match model.Compile "episode-(\d+)" with
    | inl re => Some re
    | inr _ => None
    end.
Proof.
  apply (podtracCompile_trims (lib := scenario.lib)
           (scenario.flags 0 "item.title /episode-(\d+)/ ")
           podget.initial_globals scenario.start "item.title" "/episode-(\d+)/ ");
    reflexivity.
Defined.

(** ** An extraction rule on a well-formed item *)

Lemma extraction_rule_witness :
  exists w1,
    podget.processItem_destfile (lib := scenario.lib) scenario.titled
      (scenario.globals scenario.titled) "My Feed" "My_Feed"
      (scenario.episode "episode-42: hello") scenario.start
    = (Ok (Some (scenario.enclosure, "/pods/My_Feed/42.mp3")), w1).
Proof.
  assert (Hre : exists re,
    podget.podtracRE (scenario.globals scenario.titled) = Some re).
  { vm_compute. eexists. reflexivity. }
  destruct Hre as [re Hre].
  assert (Hep : Regexp_FindStringSubmatch (GoLib := scenario.lib) re
                  "episode-42: hello" = ["episode-42"; "42"]).
  { vm_compute in Hre. inversion Hre; subst re. vm_compute. reflexivity. }
  destruct (extraction_rule (lib := scenario.lib) scenario.fresh scenario.titled
              (scenario.globals scenario.titled) "My Feed" "My_Feed"
              (scenario.episode "episode-42: hello") scenario.start
              scenario.enclosure
              {| Path := "/audio/ep1.mp3";
                 URL_String := "http://example.com/audio/ep1.mp3" |}
              {| podcast.AttrIsPermaLink := "false"; podcast.Text := "guid-1" |}
              re eq_refl eq_refl ltac:(discriminate) eq_refl Hre) as [_ Hstem].
  - change (field_value (lib := scenario.lib)
              (podget.podtracField (scenario.globals scenario.titled)) _ _ _ _)
      with "episode-42: hello".
    rewrite Hep. discriminate.
  - apply (Hstem "42"); [| discriminate].
    change (field_value (lib := scenario.lib)
              (podget.podtracField (scenario.globals scenario.titled)) _ _ _ _)
      with "episode-42: hello".
    rewrite Hep. reflexivity.
Defined.

(** ** A maxAge beyond the range of [time.Duration] *)

Lemma maxage_overflow days :
  106752 <= days <= 213503 -> mul64 (mul64 days time.Hour) 24 < 0.
Proof.
  intros H. unfold mul64.
  assert (Hh : time.Hour = 3600000000000) by reflexivity. rewrite Hh.
  rewrite (wrap64_small (days * 3600000000000)) by lia.
  unfold wrap64.
  assert (Hmod : (days * 3600000000000 * 24 + 2 ^ 63) mod 2 ^ 64
                 = days * 3600000000000 * 24 + 2 ^ 63 - 2 ^ 64).
  { symmetry. apply (Z.mod_unique _ _ 1); lia. }
  rewrite Hmod. lia.
Qed.

(** X15: from 106752 to 213503 days the maxAge, turned into nanoseconds, wraps
    around to a negative duration: every existing file whose modification
    time is not in the future is then older than it, and is enqueued for
    download again on every run. *)
Lemma huge_maxdays_always_overwrites {lib : GoLib} (env : Env)
    (flags : podget.Flags) (g : podget.Globals) (feedtitle feeddir : string)
    (item : podcast.Item) (w : podget.World) (enc : podcast.Enclosure)
    (destfile : string) (w1 : podget.World) :
  podget.processItem_destfile flags g feedtitle feeddir item w
  = (Ok (Some (enc, destfile)), w1) ->
  106752 <= podget.maxdays flags <= 213503 ->
  file_exists (os_Stat env destfile) ->
  0 <= file_age env (os_Stat env destfile) ->
  decided DoOverwrite (os_Stat env destfile) w
    (snd (podget.processItem env flags g feedtitle feeddir item w)) enc destfile.
Proof.
  intros Hdest Hdays Hex Hage. simpl. split; [exact Hex |].
  apply (decided_cases env flags g feedtitle feeddir item w enc destfile w1 Hdest).
  destruct Hex as [stats Hs].
  unfold allows_overwrite. rewrite Hs. rewrite <- Hs.
  apply orb_true_iff. right. apply andb_true_iff. split.
  - apply Z.ltb_lt. lia.
  - apply Z.ltb_lt. pose proof (maxage_overflow _ Hdays). lia.
Qed.

Lemma huge_maxdays_always_overwrites_witness :
  decided DoOverwrite scenario.existing scenario.start
    (snd (podget.processItem (lib := scenario.lib)
            (scenario.system scenario.existing time.Hour)
            (scenario.flags 200000 "") podget.initial_globals "My Feed" "My_Feed"
            (scenario.episode "episode-42: hello") scenario.start))
    scenario.enclosure scenario.destination.
Proof.
  apply (huge_maxdays_always_overwrites (lib := scenario.lib)
           (scenario.system scenario.existing time.Hour)
           (scenario.flags 200000 "") podget.initial_globals "My Feed" "My_Feed"
           (scenario.episode "episode-42: hello") scenario.start
           scenario.enclosure scenario.destination scenario.start eq_refl).
  - simpl. lia.
  - eexists. reflexivity.
  - vm_compute. discriminate.
Defined.

(** ** The WaitGroup with several feeds *)

Definition alive (s : tasks.System) : Prop :=
  match tasks.process s with
  | tasks.Crashed _ => False
  | _ => True
  end.

Lemma counter_nonneg_step a s s' :
  tasks.step a s = Some s' ->
  (alive s -> 0 <= tasks.counter s) -> alive s' -> 0 <= tasks.counter s'.
Proof.
  unfold tasks.step, alive.
  destruct (tasks.process s) eqn:Hproc; [| discriminate | discriminate].
  intros Hstep Hs. specialize (Hs I).
  assert (Hdone : forall s0, tasks.counter s0 = tasks.counter s ->
            match tasks.process (tasks.wg_Done s0) with
            | tasks.Crashed _ => False
            | _ => True
            end -> 0 <= tasks.counter (tasks.wg_Done s0)).
  { intros s0 Hc. unfold tasks.wg_Done.
    destruct (tasks.counter s0 - 1 <? 0) eqn:Hneg; simpl; [tauto |].
    apply Z.ltb_ge in Hneg. intros _. exact Hneg. }
  destruct a;
    repeat match type of Hstep with
           | context [match ?x with _ => _ end] => destruct x; try discriminate
           end;
    inversion Hstep; subst; clear Hstep;
    try (apply Hdone; reflexivity); simpl; intros _; exact Hs.
Qed.

Lemma counter_nonneg feeds s :
  tasks.reachable feeds s -> alive s -> 0 <= tasks.counter s.
Proof.
  intros [actions Hrun].
  assert (Hgen : forall s0, tasks.run actions s0 = Some s ->
            (alive s0 -> 0 <= tasks.counter s0) -> alive s -> 0 <= tasks.counter s).
  { clear Hrun. induction actions as [| a rest IH]; intros s0 Hrun H0; simpl in Hrun.
    - inversion Hrun; subst; exact H0.
    - destruct (tasks.step a s0) as [s1 |] eqn:Hstep; [| discriminate].
      apply (IH s1 Hrun). eapply counter_nonneg_step; eauto. }
  apply (Hgen (tasks.initial feeds) Hrun). intros _. simpl. lia.
Qed.

(** X23: with two or more feeds the two tasks never both finish in a process
    that is still alive: the feed task calls [wg.Done()] once per feed, one
    call too many for the two [wg.Add(1)], so either [main] has returned
    before a task was through or the counter has gone negative. *)
Lemma several_feeds_never_finish feeds s :
  (2 <= List.length feeds)%nat ->
  tasks.reachable feeds s ->
  tasks.producer s = tasks.ProducerGone ->
  tasks.worker s = tasks.WorkerGone ->
  exists p, tasks.process s = tasks.Crashed p.
Proof.
  intros Hn Hreach Hp Hw.
  pose proof (counter_invariant_reachable feeds s Hreach) as Hc.
  pose proof (counter_nonneg feeds s Hreach) as Hpos.
  unfold counter_invariant, alive, producer_dones, worker_dones in *.
  rewrite Hp, Hw in Hc.
  destruct (tasks.process s) as [| | p]; [| | eauto];
    destruct Hc as (Hcount & _); specialize (Hpos I); lia.
Qed.

Lemma several_feeds_never_finish_witness :
  exists s,
    tasks.run
      [tasks.NextFeed; tasks.FeedDone; tasks.NextFeed; tasks.FeedDone;
       tasks.CloseQueue; tasks.RangeEnds; tasks.ProducerDone; tasks.ProducerDone;
       tasks.ProducerExit; tasks.WorkerDone]
      (tasks.initial [[]; []]) = Some s /\
    exists p, tasks.process s = tasks.Crashed p.
Proof.
  eexists. split; [vm_compute; reflexivity |].
  apply (several_feeds_never_finish [[]; []]).
  - simpl. lia.
  - exists [tasks.NextFeed; tasks.FeedDone; tasks.NextFeed; tasks.FeedDone;
            tasks.CloseQueue; tasks.RangeEnds; tasks.ProducerDone;
            tasks.ProducerDone; tasks.ProducerExit; tasks.WorkerDone].
    vm_compute. reflexivity.
  - reflexivity.
  - reflexivity.
Defined.

Lemma one_feed_exits_after_drain_witness :
  exists s,
    tasks.run
      [tasks.NextFeed; tasks.SendJob; tasks.FeedDone; tasks.CloseQueue;
       tasks.ProducerDone; tasks.Receive; tasks.Finish; tasks.RangeEnds;
       tasks.WorkerDone; tasks.MainReturns]
      (tasks.initial [[scenario.job_a]]) = Some s /\
    tasks.completed s = [scenario.job_a] /\ tasks.buffer s = [].
Proof.
  eexists. split; [vm_compute; reflexivity |].
  apply (one_feed_exits_after_drain [scenario.job_a]).
  - exists [tasks.NextFeed; tasks.SendJob; tasks.FeedDone; tasks.CloseQueue;
            tasks.ProducerDone; tasks.Receive; tasks.Finish; tasks.RangeEnds;
            tasks.WorkerDone; tasks.MainReturns].
    vm_compute. reflexivity.
  - reflexivity.
Defined.

(** ** The age that is compared *)

Lemma Round_second d :
  0 <= d <= 2 ^ 62 ->
  time.Round d time.Second
  = time.Second * ((d + time.Second / 2) / time.Second).
Proof.
  intros Hd.
  assert (Hs : time.Second = 1000000000) by reflexivity.
  unfold time.Round, time.lessThanHalf, add64, sub64. rewrite Hs.
  change (1000000000 <=? 0) with false. cbv iota.
  assert (Hneg : (d <? 0) = false) by (apply Z.ltb_ge; lia).
  rewrite Hneg. cbv zeta.
  rewrite Z.rem_mod_nonneg by lia.
  pose proof (Z.mod_pos_bound d 1000000000 ltac:(lia)) as Hr.
  pose proof (Z.div_mod d 1000000000 ltac:(lia)) as Hdm.
  rewrite (Z.mod_small (d mod 1000000000) (2 ^ 64)) by lia.
  rewrite (Z.mod_small 1000000000 (2 ^ 64)) by lia.
  rewrite (Z.mod_small (d mod 1000000000 + d mod 1000000000) (2 ^ 64)) by lia.
  change (1000000000 / 2) with 500000000.
  destruct (d mod 1000000000 + d mod 1000000000 <? 1000000000) eqn:Hhalf.
  - apply Z.ltb_lt in Hhalf.
    rewrite wrap64_small by lia.
    assert (Hq : (d + 500000000) / 1000000000 = d / 1000000000).
    { symmetry. apply (Z.div_unique _ _ _ (d mod 1000000000 + 500000000)); lia. }
    rewrite Hq. lia.
  - apply Z.ltb_ge in Hhalf.
    rewrite (wrap64_small (d + 1000000000)) by lia.
    rewrite wrap64_small by lia.
    assert (Hlt : (d <? d + 1000000000 - d mod 1000000000) = true)
      by (apply Z.ltb_lt; lia).
    rewrite Hlt.
    assert (Hq : (d + 500000000) / 1000000000 = d / 1000000000 + 1).
    { symmetry. apply (Z.div_unique _ _ _ (d mod 1000000000 - 500000000)); lia. }
    rewrite Hq. lia.
Qed.

(** X16: the age is rounded to the nearest second before it is compared: with a
    maxAge of R days, an existing file is overwritten exactly when at least
    R days and half a second have passed since its modification. *)
Lemma overwrite_from_half_second {lib : GoLib} (env : Env)
    (flags : podget.Flags) (g : podget.Globals) (feedtitle feeddir : string)
    (item : podcast.Item) (w : podget.World) (enc : podcast.Enclosure)
    (destfile : string) (w1 : podget.World) (stats : FileInfo) :
  podget.processItem_destfile flags g feedtitle feeddir item w
  = (Ok (Some (enc, destfile)), w1) ->
  0 < podget.maxdays flags <= 106751 ->
  os_Stat env destfile = inl stats ->
  0 <= time_Since env (ModTime stats) <= 2 ^ 62 ->
  (decided DoOverwrite (os_Stat env destfile) w
     (snd (podget.processItem env flags g feedtitle feeddir item w)) enc destfile
   <-> podget.maxdays flags * (24 * time.Hour) + time.Second / 2
       <= time_Since env (ModTime stats)).
Proof.
  intros Hdest Hdays Hstat Hsince.
  pose proof (decided_cases env flags g feedtitle feeddir item w enc destfile w1 Hdest)
    as [Henq _].
  cbv zeta in Henq. simpl.
  assert (Hex : file_exists (os_Stat env destfile)) by (exists stats; exact Hstat).
  rewrite Henq. unfold allows_overwrite, file_age, stat_error.
  rewrite Hstat. cbn [os_IsNotExist orb].
  rewrite maxage_exact by lia. rewrite Round_second by exact Hsince.
  assert (Hpos : (0 <? podget.maxdays flags) = true) by (apply Z.ltb_lt; lia).
  rewrite Hpos. cbn [andb]. rewrite Z.ltb_lt.
  assert (Hs : time.Second = 1000000000) by reflexivity.
  assert (Hh : time.Hour = 3600000000000) by reflexivity.
  rewrite Hs, Hh. change (1000000000 / 2) with 500000000.
  set (d := time_Since env (ModTime stats)) in *.
  pose proof (Z.div_mod (d + 500000000) 1000000000 ltac:(lia)) as Hdm.
  pose proof (Z.mod_pos_bound (d + 500000000) 1000000000 ltac:(lia)) as Hr.
  split; [intros [_ Hlt] | intros Hle; split; [exists stats; reflexivity |]]; lia.
Qed.

Lemma overwrite_from_half_second_witness :
  ~ decided DoOverwrite scenario.existing scenario.start
      (snd (podget.processItem (lib := scenario.lib)
              (scenario.system scenario.existing (30 * 24 * time.Hour + 400000000))
              (scenario.flags 30 "") podget.initial_globals "My Feed" "My_Feed"
              (scenario.episode "episode-42: hello") scenario.start))
      scenario.enclosure scenario.destination.
Proof.
  intros Hover.
  apply (overwrite_from_half_second (lib := scenario.lib)
           (scenario.system scenario.existing (30 * 24 * time.Hour + 400000000))
           (scenario.flags 30 "") podget.initial_globals "My Feed" "My_Feed"
           (scenario.episode "episode-42: hello") scenario.start
           scenario.enclosure scenario.destination scenario.start
           {| ModTime := scenario.published |} eq_refl) in Hover.
  - vm_compute in Hover. apply Hover. reflexivity.
  - simpl. lia.
  - reflexivity.
  - vm_compute. split; discriminate.
Defined.

(** ** Runs of the feed task and of the queue *)

Lemma processFeed_gives_up_witness :
  podget.sends
    (snd (podget.processFeed (lib := scenario.lib) (scenario.always scenario.fresh)
            (scenario.flags 0 "") podget.initial_globals scenario.feed_url
            scenario.start)) = [].
Proof.
  apply (processFeed_gives_up (lib := scenario.lib) (scenario.always scenario.fresh)
           (scenario.flags 0 "") podget.initial_globals scenario.feed_url
           scenario.start).
  left. reflexivity.
Defined.

(** The decoder on the document of the feed: the two episodes, with the
    durations and the dates the methods of package [podcast] read. *)
Example decoded_feed :
  model.decode (scenario.document "02:03")
  = Ok {| podcast.AttrXmlnsItunes := "";
          podcast.AttrVersion := "2.0";
          podcast.Channel_ := Some scenario.channel |}.
Proof. vm_compute. reflexivity. Qed.

(** A feed of two episodes, the first not on disk and the second on disk and
    older than the maxAge: two jobs, in the order of the feed, then the
    close. *)
Example feed_task_two_jobs :
  let run := podget.feed_task (lib := scenario.library)
               (scenario.always
                  (scenario.online scenario.first_is_new (31 * 24 * time.Hour)))
               (scenario.flags 30 "") podget.initial_globals [scenario.feed_url]
               scenario.start in
  fst run = None /\
  podget.sends (snd run)
  = [ {| podget.URL := "http://example.com/audio/ep1.mp3";
         podget.File := "/pods/My_Feed/ep1.mp3" |};
      {| podget.URL := "http://example.com/audio/ep2.mp3";
         podget.File := "/pods/My_Feed/ep2.mp3" |} ] /\
  List.last (podget.trace (snd run)) (podget.Sleep 0) = podget.Close.
Proof. vm_compute. repeat split. Qed.

(** Two episodes with one destination: the first is sent, and by the time
    the second is looked at the download task has created the file, so the
    second is skipped. *)
Example same_destination_first_only :
  let run := podget.feed_task (lib := scenario.twins) scenario.arriving
               (scenario.flags 0 "") podget.initial_globals [scenario.twin_url]
               scenario.start in
  podget.sends (snd run)
  = [ {| podget.URL := "http://example.com/1/default.mp3";
         podget.File := "/pods/My_Feed/default.mp3" |} ] /\
  podget.errors (snd run)
  = [(("skipping %s, already downloaded" ++ podget.newline)%string,
      [podget.VString "/pods/My_Feed/default.mp3"])].
Proof. vm_compute. split; reflexivity. Qed.

(** A duration of five components in a feed: the decoder runs
    [Duration.UnmarshalXML], [parseDuration] indexes past its table, and the
    panic ends [processFeed] and the feed task before anything is sent; the
    feed after it is never fetched and the queue is not closed. *)
Example long_duration_crashes_feed_task :
  let run := podget.feed_task (lib := scenario.library)
               (scenario.always (scenario.online scenario.first_is_new 0))
               (scenario.flags 30 "") podget.initial_globals
               [scenario.long_url; scenario.feed_url] scenario.start in
  fst run = Some (IndexOutOfRange 4 4) /\
  podget.sends (snd run) = [] /\
  podget.calls "http.Get" (snd run) = [scenario.long_url] /\
  ~ In podget.Close (podget.trace (snd run)).
Proof.
  vm_compute. repeat split.
  intros [H | []]. discriminate H.
Qed.

(** Two jobs, the directory of the first not creatable: the first job
    leaves its line, the second is downloaded, and both are followed by the
    sleep. *)
Example failed_job_then_next :
  let run := podget.downloader (lib := scenario.lib) scenario.recovering
               (scenario.flags 0 "") [scenario.job_a; scenario.job_b]
               scenario.start in
  podget.errors run
  = [(("can't create destination directory %s: %v" ++ podget.newline)%string,
      [podget.VString "/pods/A"; podget.VMissing])] /\
  podget.sleeps run = [2 * time.Second; 2 * time.Second] /\
  podget.files run !! "/pods/B/ep1.mp3" = Some "audio" /\
  podget.files run !! "/pods/A/ep1.mp3" = None.
Proof. vm_compute. repeat split. Qed.

Lemma queue_bounded_witness :
  exists s,
    tasks.run [tasks.NextFeed; tasks.SendJob; tasks.SendJob]
      (tasks.initial [[scenario.job_a; scenario.job_b]]) = Some s /\
    (List.length (tasks.buffer s) <= 15)%nat.
Proof.
  eexists. split; [vm_compute; reflexivity |].
  apply (queue_bounded [[scenario.job_a; scenario.job_b]]).
  exists [tasks.NextFeed; tasks.SendJob; tasks.SendJob]. vm_compute. reflexivity.
Defined.

Lemma queue_is_fifo_witness :
  exists s,
    tasks.run [tasks.NextFeed; tasks.SendJob; tasks.Receive; tasks.FeedDone;
               tasks.NextFeed; tasks.SendJob; tasks.Finish]
      (tasks.initial [[scenario.job_a]; [scenario.job_b]]) = Some s /\
    (tasks.completed s ++ tasks.in_hand s ++ tasks.buffer s
     ++ tasks.unsent_jobs s)%list = [scenario.job_a; scenario.job_b].
Proof.
  eexists. split; [vm_compute; reflexivity |].
  apply (queue_is_fifo [[scenario.job_a]; [scenario.job_b]]).
  exists [tasks.NextFeed; tasks.SendJob; tasks.Receive; tasks.FeedDone;
          tasks.NextFeed; tasks.SendJob; tasks.Finish].
  vm_compute. reflexivity.
Defined.

Lemma full_queue_blocks_send_witness :
  tasks.step tasks.SendJob scenario.full_queue = None.
Proof.
  apply (full_queue_blocks_send scenario.full_queue scenario.job_b [] []);
    reflexivity.
Defined.

Lemma worker_returns_after_drain_witness :
  exists s,
    tasks.run [tasks.NextFeed; tasks.SendJob; tasks.FeedDone; tasks.CloseQueue;
               tasks.Receive; tasks.Finish; tasks.RangeEnds]
      (tasks.initial [[scenario.job_a]]) = Some s /\
    tasks.completed s = [scenario.job_a].
Proof.
  eexists. split; [vm_compute; reflexivity |].
  apply (worker_returns_after_drain [[scenario.job_a]]).
  - exists [tasks.NextFeed; tasks.SendJob; tasks.FeedDone; tasks.CloseQueue;
            tasks.Receive; tasks.Finish; tasks.RangeEnds].
    vm_compute. reflexivity.
  - reflexivity.
Defined.

Lemma no_feed_never_exits_witness :
  exists s,
    tasks.run [tasks.CloseQueue; tasks.RangeEnds; tasks.WorkerDone;
               tasks.ProducerExit]
      (tasks.initial []) = Some s /\
    tasks.process s <> tasks.Exited /\ tasks.step tasks.MainReturns s = None.
Proof.
  eexists. split; [vm_compute; reflexivity |]. split; [| reflexivity].
  apply no_feed_never_exits.
  exists [tasks.CloseQueue; tasks.RangeEnds; tasks.WorkerDone; tasks.ProducerExit].
  vm_compute. reflexivity.
Defined.
